(** * mplcairo: a shallow embedding of the rendering core

    The development follows [src/_util.cpp] (matrix adapter, surface
    classification, the two [load_path_exact] overloads) and
    [src/_mplcairo.cpp] (the [GraphicsContextRenderer]: state stack, scoped
    additional context, marker stamping, path collections, region capture
    and restore).

    Conventions of the embedding.
    - A C++ [double] is a value of [double] below: an exact rational, one of
      the two infinities, or NaN.  Comparisons, [std::clamp], [std::floor],
      [std::ceil], [std::round] and [std::isfinite] are modelled exactly;
      [+ - * /] are modelled without signed zeros and without rounding,
      but for the sum [std::floor(x) + .5] of the half-integer snapper,
      whose rounding the idempotence of the snapper depends on: it is
      rounded to binary64, to the nearest value and to the even one halfway
      ([Double.round_binary64]), and is exact from -2^52 up to 2^52.
    - A C++ [int] is a [Z]; arithmetic whose result leaves the 32-bit range
      is undefined behaviour and is reported as [Undefined].
    - A thrown C++ exception is an [Err] result.  *)

From Stdlib Require Import String.
From Stdlib Require Import ZArith QArith Qround Qabs Qpower Lqa Lia List Bool.
From Stdlib Require Import Init.Byte.
Import ListNotations.

Set Implicit Arguments.

(** ** Results: normal return, a thrown exception, or undefined behaviour *)

Inductive error : Type :=
| InvalidArgument   (* std::invalid_argument *)
| RuntimeError      (* std::runtime_error *)
| Undefined.        (* the C++ standard gives the execution no meaning *)

Inductive result (A : Type) : Type :=
| Ok (a : A)
| Err (e : error).

Arguments Ok {A} a.
Arguments Err {A} e.

Definition bind {A B : Type} (r : result A) (k : A -> result B) : result B :=
  match r with
  | Ok a => k a
  | Err e => Err e
  end.

Declare Scope result_scope.
Delimit Scope result_scope with result.
Notation "x <- r ;; k" := (bind r (fun x => k))
  (at level 61, r at next level, right associativity) : result_scope.
Notation "' p <- r ;; k" := (bind r (fun p => k))
  (at level 61, p pattern, r at next level, right associativity) : result_scope.
Open Scope result_scope.

Arguments bind {A B} r k : simpl never.

Definition is_ok {A : Type} (r : result A) : bool :=
  match r with Ok _ => true | Err _ => false end.

(** ** Doubles *)

Module Double.

Inductive double : Type :=
| Fin (q : Q)
| PInf
| NInf
| NaN.

Definition isfinite (x : double) : bool :=
  match x with Fin _ => true | _ => false end.

Definition of_Z (z : Z) : double := Fin (inject_Z z).

Definition Qltb (a b : Q) : bool := negb (Qle_bool b a).

Definition Qsign_pos (q : Q) : bool := Qltb 0 q.
Definition Qsign_neg (q : Q) : bool := Qltb q 0.

Definition opp (x : double) : double :=
  match x with
  | Fin q => Fin (- q)
  | PInf => NInf
  | NInf => PInf
  | NaN => NaN
  end.

Definition add (x y : double) : double :=
  match x, y with
  | NaN, _ | _, NaN => NaN
  | Fin a, Fin b => Fin (a + b)
  | PInf, NInf | NInf, PInf => NaN
  | PInf, _ | _, PInf => PInf
  | NInf, _ | _, NInf => NInf
  end.

Definition sub (x y : double) : double := add x (opp y).

(** The infinity of the sign of [q], NaN when [q] is zero. *)
Definition inf_of_sign (q : Q) : double :=
  if Qsign_pos q then PInf else if Qsign_neg q then NInf else NaN.

Definition mul (x y : double) : double :=
  match x, y with
  | NaN, _ | _, NaN => NaN
  | Fin a, Fin b => Fin (a * b)
  | Fin a, PInf | PInf, Fin a => inf_of_sign a
  | Fin a, NInf | NInf, Fin a => inf_of_sign (- a)
  | PInf, PInf | NInf, NInf => PInf
  | PInf, NInf | NInf, PInf => NInf
  end.

Definition div (x y : double) : double :=
  match x, y with
  | NaN, _ | _, NaN => NaN
  | Fin a, Fin b => if Qeq_bool b 0 then inf_of_sign a else Fin (a / b)
  | Fin _, PInf | Fin _, NInf => Fin 0
  | PInf, Fin b => if Qsign_neg b then NInf else PInf
  | NInf, Fin b => if Qsign_neg b then PInf else NInf
  | _, _ => NaN
  end.

Definition ltb (x y : double) : bool :=
  match x, y with
  | NaN, _ | _, NaN => false
  | Fin a, Fin b => Qltb a b
  | Fin _, PInf | NInf, Fin _ | NInf, PInf => true
  | Fin _, NInf | NInf, NInf | PInf, _ => false
  end.

Definition leb (x y : double) : bool :=
  match x, y with
  | NaN, _ | _, NaN => false
  | Fin a, Fin b => Qle_bool a b
  | Fin _, PInf | PInf, PInf | NInf, _ => true
  | Fin _, NInf | PInf, _ => false
  end.

Definition eqb (x y : double) : bool :=
  match x, y with
  | Fin a, Fin b => Qeq_bool a b
  | PInf, PInf | NInf, NInf => true
  | _, _ => false
  end.

(** [std::clamp(v, lo, hi)]: [(v < lo) ? lo : (hi < v) ? hi : v]. *)
Definition clamp (v lo hi : double) : double :=
  if ltb v lo then lo else if ltb hi v then hi else v.

Definition floor (x : double) : double :=
  match x with Fin q => of_Z (Qfloor q) | _ => x end.

Definition ceil (x : double) : double :=
  match x with Fin q => of_Z (Qceiling q) | _ => x end.

(** [std::round]: to the nearest integer, halfway cases away from zero. *)
Definition Qround_away (q : Q) : Z :=
  if Qltb q 0 then Qceiling (q - (1 # 2)) else Qfloor (q + (1 # 2)).

Definition round (x : double) : double :=
  match x with Fin q => of_Z (Qround_away q) | _ => x end.

Definition LONG_MIN : Z := - 2 ^ 63.
Definition LONG_MAX : Z := 2 ^ 63 - 1.

(** [std::lround]: the C standard leaves the value unspecified when the
    rounded argument is not a [long]; the x86-64 result (LONG_MIN) is used. *)
Definition lround (x : double) : Z :=
  match x with
  | Fin q =>
      let r := Qround_away q in
      if (LONG_MIN <=? r)%Z && (r <=? LONG_MAX)%Z then r else LONG_MIN
  | _ => LONG_MIN
  end.

Definition INT_MIN : Z := - 2 ^ 31.
Definition INT_MAX : Z := 2 ^ 31 - 1.

Definition int_range (z : Z) : bool := (INT_MIN <=? z)%Z && (z <=? INT_MAX)%Z.

(** A [double] converted to [int]: truncation; undefined when the truncated
    value is not an [int]. *)
Definition to_int (x : double) : result Z :=
  match x with
  | Fin q =>
      let t := if Qltb q 0 then Qceiling q else Qfloor q in
      if int_range t then Ok t else Err Undefined
  | _ => Err Undefined
  end.

(** *** The binary64 format

    An operation above returns the exact rational result.  Where a property
    depends on the rounding of an operation, the rounding is applied on top
    of it: [round_binary64] maps a rational to the nearest binary64 value
    (53 significant bits, the exponent of the last place not below -1074,
    halfway cases to the even significand, magnitudes from 2^1024 on to
    an infinity). *)

Definition two_power (e : Z) : Q := (2 # 1) ^ e.

(** For [q] other than zero, the [k] with [2^k <= |q| < 2^(k+1)]. *)
Definition Qlog2 (q : Q) : Z :=
  let k := (Z.log2 (Z.abs (Qnum q)) - Z.log2 (Zpos (Qden q)))%Z in
  if Qle_bool (two_power k) (Qabs q) then k else (k - 1)%Z.

(** To the nearest integer, halfway cases to the even one. *)
Definition round_half_even (q : Q) : Z :=
  let f := Qfloor q in
  match Qcompare (q - inject_Z f) (1 # 2) with
  | Lt => f
  | Gt => (f + 1)%Z
  | Eq => if Z.even f then f else (f + 1)%Z
  end.

(** The exponent of the last place of the binary64 values around [q]. *)
Definition ulp_exponent (q : Q) : Z := Z.max (-1074) (Qlog2 q - 52).

Definition round_binary64 (q : Q) : double :=
  if Qeq_bool q 0 then Fin 0
  else
    let e := ulp_exponent q in
    let r := inject_Z (round_half_even (q / two_power e)) * two_power e in
    if Qle_bool (two_power 1024) (Qabs r)
    then (if Qltb q 0 then NInf else PInf)
    else Fin (Qred r).

Definition rounded (x : double) : double :=
  match x with Fin q => round_binary64 q | _ => x end.

(** The doubles of the embedding that are binary64 values. *)
Definition is_binary64 (x : double) : bool :=
  match x with
  | Fin q => eqb (round_binary64 q) x
  | _ => true
  end.

End Double.

Import Double.

Declare Scope double_scope.
Delimit Scope double_scope with D.
Bind Scope double_scope with double.
Infix "+" := add : double_scope.
Infix "-" := sub : double_scope.
Infix "*" := mul : double_scope.
Infix "/" := div : double_scope.
Notation "- x" := (opp x) : double_scope.
Infix "<?" := ltb : double_scope.
Infix "<=?" := leb : double_scope.
Infix "=?" := eqb : double_scope.

(** [int] arithmetic: a result outside the 32-bit range is undefined. *)
Definition cint (z : Z) : result Z :=
  if int_range z then Ok z else Err Undefined.

(** ** The drawing library (cairo), as far as the renderer relies on it *)

Module Cairo.

(** [cairo_surface_type_t], in the order of [cairo.h]. *)
Inductive cairo_surface_type_t : Type :=
| CAIRO_SURFACE_TYPE_IMAGE
| CAIRO_SURFACE_TYPE_PDF
| CAIRO_SURFACE_TYPE_PS
| CAIRO_SURFACE_TYPE_XLIB
| CAIRO_SURFACE_TYPE_XCB
| CAIRO_SURFACE_TYPE_GLITZ
| CAIRO_SURFACE_TYPE_QUARTZ
| CAIRO_SURFACE_TYPE_WIN32
| CAIRO_SURFACE_TYPE_BEOS
| CAIRO_SURFACE_TYPE_DIRECTFB
| CAIRO_SURFACE_TYPE_SVG
| CAIRO_SURFACE_TYPE_OS2
| CAIRO_SURFACE_TYPE_WIN32_PRINTING
| CAIRO_SURFACE_TYPE_QUARTZ_IMAGE
| CAIRO_SURFACE_TYPE_SCRIPT
| CAIRO_SURFACE_TYPE_QT
| CAIRO_SURFACE_TYPE_RECORDING
| CAIRO_SURFACE_TYPE_VG
| CAIRO_SURFACE_TYPE_GL
| CAIRO_SURFACE_TYPE_DRM
| CAIRO_SURFACE_TYPE_TEE
| CAIRO_SURFACE_TYPE_XML
| CAIRO_SURFACE_TYPE_SKIA
| CAIRO_SURFACE_TYPE_SUBSURFACE
| CAIRO_SURFACE_TYPE_COGL.

Inductive cairo_antialias_t : Type :=
| CAIRO_ANTIALIAS_DEFAULT
| CAIRO_ANTIALIAS_NONE
| CAIRO_ANTIALIAS_GRAY
| CAIRO_ANTIALIAS_SUBPIXEL
| CAIRO_ANTIALIAS_FAST
| CAIRO_ANTIALIAS_GOOD
| CAIRO_ANTIALIAS_BEST.

Inductive cairo_status_t : Type :=
| CAIRO_STATUS_SUCCESS
| CAIRO_STATUS_INVALID_RESTORE.

(** [cairo_matrix_t]: x' = xx*x + xy*y + x0, y' = yx*x + yy*y + y0. *)
Record cairo_matrix_t : Type := {
  xx : double; yx : double;
  xy : double; yy : double;
  x0 : double; y0 : double
}.

Definition point : Type := (double * double)%type.

Definition cairo_matrix_transform_point (m : cairo_matrix_t) (p : point) : point :=
  let '(x, y) := p in
  ((xx m * x + xy m * y) + x0 m, (yx m * x + yy m * y) + y0 m)%D.

Definition cairo_matrix_multiply (a b : cairo_matrix_t) : cairo_matrix_t :=
  {| xx := xx a * xx b + yx a * xy b;
     yx := xx a * yx b + yx a * yy b;
     xy := xy a * xx b + yy a * xy b;
     yy := xy a * yx b + yy a * yy b;
     x0 := x0 a * xx b + y0 a * xy b + x0 b;
     y0 := x0 a * yx b + y0 a * yy b + y0 b |}%D.

(** An image surface owns [stride * height] bytes; other surfaces own no
    pixel data. *)
Record cairo_surface_t : Type := {
  surface_type : cairo_surface_type_t;
  surface_width : Z;
  surface_height : Z;
  surface_stride : Z;
  surface_data : list byte
}.

(** [cairo_path_data_t]: a header announces [length - 1] points. *)
Inductive cairo_path_data_type_t : Type :=
| CAIRO_PATH_MOVE_TO
| CAIRO_PATH_LINE_TO
| CAIRO_PATH_CURVE_TO
| CAIRO_PATH_CLOSE_PATH.

Inductive cairo_path_data_t : Type :=
| header (type : cairo_path_data_type_t) (length : Z)
| pt (x y : double).

(** The calls that build the current path. *)
Inductive path_call : Type :=
| cairo_move_to (x y : double)
| cairo_line_to (x y : double)
| cairo_curve_to (x1 y1 x2 y2 x3 y3 : double)
| cairo_close_path
| cairo_new_sub_path.

Definition rgba_t : Type := (double * double * double * double)%type.

Definition rectangle_t : Type := (double * double * double * double)%type.

(** A clip region: the rectangle or the path that was current at
    [cairo_clip]. *)
Inductive clip_t : Type :=
| clip_rectangle_of (x y w h : double)
| clip_path_of (p : list cairo_path_data_t).

(** What [cairo_save] saves and [cairo_restore] restores. *)
Record gstate : Type := {
  source : rgba_t;
  antialias : cairo_antialias_t;
  line_width : double;
  clips : list clip_t
}.

(** The current path: the calls issued since [cairo_new_path], the current
    point, and the start of the current sub-path. *)
Record path_state : Type := {
  calls : list path_call;
  current_point : option point;
  last_move_point : option point
}.

Definition empty_path : path_state :=
  {| calls := []; current_point := None; last_move_point := None |}.

Definition do_move_to (p : path_state) (x y : double) : path_state :=
  {| calls := calls p ++ [cairo_move_to x y];
     current_point := Some (x, y);
     last_move_point := Some (x, y) |}.

(** Without a current point [cairo_line_to] behaves as [cairo_move_to]. *)
Definition do_line_to (p : path_state) (x y : double) : path_state :=
  {| calls := calls p ++ [cairo_line_to x y];
     current_point := Some (x, y);
     last_move_point :=
       match current_point p with
       | Some _ => last_move_point p
       | None => Some (x, y)
       end |}.

(** Without a current point [cairo_curve_to] first moves to (x1, y1). *)
Definition do_curve_to (p : path_state) (x1 y1 x2 y2 x3 y3 : double) : path_state :=
  {| calls := calls p ++ [cairo_curve_to x1 y1 x2 y2 x3 y3];
     current_point := Some (x3, y3);
     last_move_point :=
       match current_point p with
       | Some _ => last_move_point p
       | None => Some (x1, y1)
       end |}.

(** After [cairo_close_path] the current point is the start of the closed
    sub-path; without a current point the call has no effect on it. *)
Definition do_close_path (p : path_state) : path_state :=
  {| calls := calls p ++ [cairo_close_path];
     current_point :=
       match current_point p with
       | Some _ => last_move_point p
       | None => None
       end;
     last_move_point := last_move_point p |}.

Definition do_new_sub_path (p : path_state) : path_state :=
  {| calls := calls p ++ [cairo_new_sub_path];
     current_point := None;
     last_move_point := last_move_point p |}.

End Cairo.

Import Cairo.

(** ** [_util]: additional state, matrices, surface classification *)

(** [std::variant<cairo_antialias_t, bool>]. *)
Inductive antialias_variant : Type :=
| aa_enum (aa : cairo_antialias_t)
| aa_bool (aa : bool).

(** The fields of [AdditionalState], in the order in which the constructor
    of [GraphicsContextRenderer] initialises them. *)
Record AdditionalState : Type := {
  alpha : option double;
  antialias_ : antialias_variant;
  clip_rectangle : option rectangle_t;
  clip_path : option (list cairo_path_data_t);
  hatch : option string;
  hatch_color : rgba_t;
  hatch_linewidth : double;
  sketch : option (double * double * double);
  snap : bool
}.

Definition set_snap_field (b : bool) (s : AdditionalState) : AdditionalState :=
  {| alpha := alpha s; antialias_ := antialias_ s;
     clip_rectangle := clip_rectangle s; clip_path := clip_path s;
     hatch := hatch s; hatch_color := hatch_color s;
     hatch_linewidth := hatch_linewidth s; sketch := sketch s;
     snap := b |}.

(** A [cairo_t]: target, graphics state and its save stack, status, current
    path, and the user data stored under [STATE_KEY] (the stack of
    additional states, top first). *)
Record cairo_t : Type := {
  target : cairo_surface_t;
  gs : gstate;
  saved : list gstate;
  status : cairo_status_t;
  current_path : path_state;
  state_key : option (list AdditionalState)
}.

Definition with_gs (g : gstate) (cr : cairo_t) : cairo_t :=
  {| target := target cr; gs := g; saved := saved cr; status := status cr;
     current_path := current_path cr; state_key := state_key cr |}.

Definition with_path (p : path_state) (cr : cairo_t) : cairo_t :=
  {| target := target cr; gs := gs cr; saved := saved cr; status := status cr;
     current_path := p; state_key := state_key cr |}.

Definition with_states (st : list AdditionalState) (cr : cairo_t) : cairo_t :=
  {| target := target cr; gs := gs cr; saved := saved cr; status := status cr;
     current_path := current_path cr; state_key := Some st |}.

Definition with_target (t : cairo_surface_t) (cr : cairo_t) : cairo_t :=
  {| target := t; gs := gs cr; saved := saved cr; status := status cr;
     current_path := current_path cr; state_key := state_key cr |}.

Definition cairo_save (cr : cairo_t) : cairo_t :=
  {| target := target cr; gs := gs cr; saved := gs cr :: saved cr;
     status := status cr; current_path := current_path cr; state_key := state_key cr |}.

(** A restore without a matching save puts the context in an error
    status; it does not throw. *)
Definition cairo_restore (cr : cairo_t) : cairo_t :=
  match saved cr with
  | g :: rest =>
      {| target := target cr; gs := g; saved := rest; status := status cr;
         current_path := current_path cr; state_key := state_key cr |}
  | [] =>
      {| target := target cr; gs := gs cr; saved := [];
         status := CAIRO_STATUS_INVALID_RESTORE;
         current_path := current_path cr; state_key := state_key cr |}
  end.

Definition cairo_set_source_rgba (c : rgba_t) (cr : cairo_t) : cairo_t :=
  with_gs {| source := c; antialias := antialias (gs cr);
             line_width := line_width (gs cr); clips := clips (gs cr) |} cr.

Definition cairo_set_antialias (aa : cairo_antialias_t) (cr : cairo_t) : cairo_t :=
  with_gs {| source := source (gs cr); antialias := aa;
             line_width := line_width (gs cr); clips := clips (gs cr) |} cr.

(** [cairo_set_line_width] replaces a negative width by zero. *)
Definition cairo_set_line_width (w : double) (cr : cairo_t) : cairo_t :=
  with_gs {| source := source (gs cr); antialias := antialias (gs cr);
             line_width := if (w <? Fin 0)%D then Fin 0 else w;
             clips := clips (gs cr) |} cr.

Definition cairo_clip (c : clip_t) (cr : cairo_t) : cairo_t :=
  with_path empty_path
    (with_gs {| source := source (gs cr); antialias := antialias (gs cr);
                line_width := line_width (gs cr);
                clips := clips (gs cr) ++ [c] |} cr).

Definition cairo_get_line_width (cr : cairo_t) : double := line_width (gs cr).

(** A two-dimensional [py::array_t<double>], row-major. *)
Record array2 : Type := {
  shape0 : Z;
  shape1 : Z;
  elements : list double
}.

Definition at2 (a : array2) (i j : Z) : double :=
  nth (Z.to_nat (i * shape1 a + j)) (elements a) NaN.

(** A transform object: its [is_affine] attribute, when it has one, and the
    array it casts to. *)
Record transform_t : Type := {
  is_affine : option bool;
  matrix : array2
}.

(** [py::getattr(transform, "is_affine", py::bool_(true))]. *)
Definition marked_affine (t : transform_t) : bool :=
  match is_affine t with Some b => b | None => true end.

(** [matrix_from_transform(transform, y0)]. *)
Definition matrix_from_transform (transform : transform_t) (y0 : double)
  : result cairo_matrix_t :=
  if negb (marked_affine transform) then Err InvalidArgument
  else
    let py_matrix := matrix transform in
    if negb (shape0 py_matrix =? 3)%Z || negb (shape1 py_matrix =? 3)%Z
    then Err InvalidArgument
    else Ok {| xx := at2 py_matrix 0 0; yx := - at2 py_matrix 1 0;
               xy := at2 py_matrix 0 1; yy := - at2 py_matrix 1 1;
               x0 := at2 py_matrix 0 2; y0 := y0 - at2 py_matrix 1 2 |}%D.

(** [matrix_from_transform(transform, master_matrix)]. *)
Definition matrix_from_transform_master
  (transform : transform_t) (master_matrix : cairo_matrix_t)
  : result cairo_matrix_t :=
  if negb (marked_affine transform) then Err InvalidArgument
  else
    let py_matrix := matrix transform in
    if negb (shape0 py_matrix =? 3)%Z || negb (shape1 py_matrix =? 3)%Z
    then Err InvalidArgument
    else
      let m := {| xx := at2 py_matrix 0 0; yx := at2 py_matrix 1 0;
                  xy := at2 py_matrix 0 1; yy := at2 py_matrix 1 1;
                  x0 := at2 py_matrix 0 2; y0 := at2 py_matrix 1 2 |} in
      Ok (cairo_matrix_multiply m master_matrix).

(** [has_vector_surface]. *)
Definition has_vector_surface (cr : cairo_t) : result bool :=
  match surface_type (target cr) with
  | CAIRO_SURFACE_TYPE_IMAGE
  | CAIRO_SURFACE_TYPE_XLIB => Ok false
  | CAIRO_SURFACE_TYPE_PDF
  | CAIRO_SURFACE_TYPE_PS
  | CAIRO_SURFACE_TYPE_SVG
  | CAIRO_SURFACE_TYPE_RECORDING
  | CAIRO_SURFACE_TYPE_SCRIPT => Ok true
  | _ => Err InvalidArgument
  end.

(** [get_additional_state] of [_util], which checks that the stack exists
    and is not empty. *)
Definition get_additional_state_checked (cr : cairo_t) : result AdditionalState :=
  match state_key cr with
  | None => Err RuntimeError
  | Some [] => Err RuntimeError
  | Some (top :: _) => Ok top
  end.

(** ** Pixel snapping *)

(** [std::floor(x) + .5]: the sum is rounded to binary64. *)
Definition snap_half (x : double) : double := rounded (floor x + Fin (1 # 2))%D.
Definition snap_round (x : double) : double := round x.
Definition snap_none (x : double) : double := x.

(** [std::lround(lw) % 2 == 1], with the truncating [%] of C++. *)
Definition lround_is_odd (lw : double) : bool := (Z.rem (lround lw) 2 =? 1)%Z.

(** The snapper of the general overload of [load_path_exact]. *)
Definition snapper_general (snap : bool) (lw : double) : double -> double :=
  if snap then
    if (Fin 0 <? lw)%D && ((lw <? Fin 1)%D || lround_is_odd lw)
    then snap_half else snap_round
  else snap_none.

(** The snapper of the codeless overload; it is applied only under [snap]. *)
Definition snapper_codeless (lw : double) : double -> double :=
  if (lw <? Fin 1)%D || lround_is_odd lw then snap_half else snap_round.

(** ** Paths and the two [load_path_exact] overloads *)

(** Modelled from the spec: the [PathCode] enumeration of [_util.h], which is
    not among the sources; the spec names the op codes MOVETO, LINETO, CURVE3,
    CURVE4, CLOSEPOLY and STOP, and the numeric values are those of the host
    framework's path codes. *)
Inductive PathCode : Type :=
| STOP | MOVETO | LINETO | CURVE3 | CURVE4 | CLOSEPOLY.

(** [static_cast<PathCode>(codes(i))]; [None] when no enumerator has the
    value, so that no [case] of the [switch] is taken. *)
Definition path_code_of_int (c : Z) : option PathCode :=
  if (c =? 0)%Z then Some STOP
  else if (c =? 1)%Z then Some MOVETO
  else if (c =? 2)%Z then Some LINETO
  else if (c =? 3)%Z then Some CURVE3
  else if (c =? 4)%Z then Some CURVE4
  else if (c =? 79)%Z then Some CLOSEPOLY
  else None.

(** A path object: its [vertices] array and its optional [codes] array. *)
Record path_t : Type := {
  vertices : array2;
  codes : option (list Z)
}.

(** [double(-(1 << 22))] and [double(1 << 22)]. *)
Definition qmin : Q := - (4194304 # 1).
Definition qmax : Q := 4194304 # 1.
Definition dmin : double := Fin qmin.
Definition dmax : double := Fin qmax.

(** An unchecked read [a(i, j)]: outside the array it is undefined. *)
Definition read2 (a : array2) (i j : Z) : result double :=
  if (0 <=? i)%Z && (i <? shape0 a)%Z && (0 <=? j)%Z && (j <? shape1 a)%Z
  then Ok (at2 a i j) else Err Undefined.

Definition read_point (a : array2) (i : Z) : result point :=
  x <- read2 a i 0 ;; y <- read2 a i 1 ;; Ok (x, y).

Definition read_code (c : list Z) (i : Z) : result Z :=
  match nth_error c (Z.to_nat i) with
  | Some v => if (0 <=? i)%Z then Ok v else Err Undefined
  | None => Err Undefined
  end.

Definition has_current_point (p : path_state) : bool :=
  match current_point p with Some _ => true | None => false end.

(** [snap] as both overloads compute it:
    [(!has_vector_surface(cr)) && get_additional_state(cr).snap]. *)
Definition snap_control (cr : cairo_t) : result bool :=
  vector <- has_vector_surface cr ;;
  if negb vector then
    state <- get_additional_state_checked cr ;; Ok (snap state)
  else Ok false.

Section LoadPathGeneral.

Variable snapper : double -> double.
Variable vertices_ : array2.
Variable codes_ : list Z.
Variable matrix_ : cairo_matrix_t.

Definition three : double := Fin (3 # 1).
Definition two : double := Fin (2 # 1).

(** One iteration of the main loop at index [i]: the index of the last
    vertex consumed and the path after the iteration. *)
Definition general_step (i : Z) (p : path_state) : result (Z * path_state) :=
  v <- read_point vertices_ i ;;
  let '(x0, y0) := cairo_matrix_transform_point matrix_ v in
  let is_finite := isfinite x0 && isfinite y0 in
  let x0 := clamp x0 dmin dmax in
  let y0 := clamp y0 dmin dmax in
  c <- read_code codes_ i ;;
  match path_code_of_int c with
  | Some STOP => Ok (i, p)
  | Some MOVETO =>
      if is_finite then Ok (i, do_move_to p (snapper x0) (snapper y0))
      else Ok (i, do_new_sub_path p)
  | Some LINETO =>
      if is_finite then Ok (i, do_line_to p (snapper x0) (snapper y0))
      else Ok (i, do_new_sub_path p)
  | Some CURVE3 =>
      v1 <- read_point vertices_ (i + 1) ;;
      let '(x1, y1) := cairo_matrix_transform_point matrix_ v1 in
      let last_finite := isfinite x1 && isfinite y1 in
      if last_finite then
        let x1 := clamp x1 dmin dmax in
        let y1 := clamp y1 dmin dmax in
        match is_finite, current_point p with
        | true, Some (x_prev, y_prev) =>
            Ok (i + 1,
                do_curve_to p
                  ((x_prev + two * x0) / three) ((y_prev + two * y0) / three)
                  ((two * x0 + x1) / three) ((two * y0 + y1) / three)
                  (snapper x1) (snapper y1))%Z%D
        | _, _ => Ok (i + 1, do_move_to p (snapper x1) (snapper y1))%Z
        end
      else Ok (i + 1, do_new_sub_path p)%Z
  | Some CURVE4 =>
      v1 <- read_point vertices_ (i + 1) ;;
      v2 <- read_point vertices_ (i + 2) ;;
      let '(x1, y1) := cairo_matrix_transform_point matrix_ v1 in
      let '(x2, y2) := cairo_matrix_transform_point matrix_ v2 in
      let last_finite := isfinite x2 && isfinite y2 in
      if last_finite then
        let x1 := clamp x1 dmin dmax in
        let y1 := clamp y1 dmin dmax in
        let x2 := clamp x2 dmin dmax in
        let y2 := clamp y2 dmin dmax in
        if is_finite && isfinite x1 && isfinite y1 && has_current_point p
        then Ok (i + 2, do_curve_to p x0 y0 x1 y1 (snapper x2) (snapper y2))%Z
        else Ok (i + 2, do_move_to p (snapper x2) (snapper y2))%Z
      else Ok (i + 2, do_new_sub_path p)%Z
  | Some CLOSEPOLY => Ok (i, do_close_path p)
  | None => Ok (i, p)
  end.

(** [for (auto i = 0; i < n; ++i)]: every iteration advances [i], so
    [n - i] units of fuel always reach the exit test. *)
Fixpoint general_loop (fuel : nat) (n i : Z) (p : path_state)
  : result path_state :=
  match fuel with
  | O => Ok p
  | S fuel' =>
      if (i <? n)%Z then
        '(i', p') <- general_step i p ;;
        general_loop fuel' n (i' + 1)%Z p'
      else Ok p
  end.

End LoadPathGeneral.

(** *** The codeless overload: Cohen-Sutherland clipping *)

Definition LEFT : Z := Z.shiftl 1 0.
Definition RIGHT : Z := Z.shiftl 1 1.
Definition BOTTOM : Z := Z.shiftl 1 2.
Definition TOP : Z := Z.shiftl 1 3.

Definition outcode (x y : double) : Z :=
  let code := 0%Z in
  let code :=
    if (x <? dmin)%D then Z.lor code LEFT
    else if (dmax <? x)%D then Z.lor code RIGHT
    else code in
  let code :=
    if (y <? dmin)%D then Z.lor code BOTTOM
    else if (dmax <? y)%D then Z.lor code TOP
    else code in
  code.

(** The variables the clipping loop works on. *)
Record clip_vars : Type := {
  cv_x_prev : double; cv_y_prev : double;
  cv_x : double; cv_y : double;
  cv_code0 : Z; cv_code1 : Z;
  cv_update_prev : bool
}.

Definition nonzero (z : Z) : bool := negb (z =? 0)%Z.

(** The intersection computed in the last branch of the loop. *)
Definition clip_point (s : clip_vars) (code : Z) : point :=
  let x_prev := cv_x_prev s in
  let y_prev := cv_y_prev s in
  let x := cv_x s in
  let y := cv_y s in
  if nonzero (Z.land code TOP) then
    (x_prev + (x - x_prev) * (dmax - y_prev) / (y - y_prev), dmax)%D
  else if nonzero (Z.land code BOTTOM) then
    (x_prev + (x - x_prev) * (dmin - y_prev) / (y - y_prev), dmin)%D
  else if nonzero (Z.land code RIGHT) then
    (dmax, y_prev + (y - y_prev) * (dmax - x_prev) / (x - x_prev))%D
  else if nonzero (Z.land code LEFT) then
    (dmin, y_prev + (y - y_prev) * (dmin - x_prev) / (x - x_prev))%D
  else (Fin 0, Fin 0).

(** One pass through the body of [while (true)]: [inl accept] when the loop
    is left, [inr s'] when it goes round again. *)
Definition clip_iter (s : clip_vars) : bool + clip_vars :=
  let code0 := cv_code0 s in
  let code1 := cv_code1 s in
  if negb (nonzero (Z.lor code0 code1)) then inl true
  else if nonzero (Z.land code0 code1) then inl false
  else
    let code := if nonzero code0 then code0 else code1 in
    let '(xc, yc) := clip_point s code in
    if (code =? code0)%Z then
      inr {| cv_x_prev := xc; cv_y_prev := yc; cv_x := cv_x s; cv_y := cv_y s;
             cv_code0 := outcode xc yc; cv_code1 := code1;
             cv_update_prev := true |}
    else
      inr {| cv_x_prev := cv_x_prev s; cv_y_prev := cv_y_prev s;
             cv_x := xc; cv_y := yc;
             cv_code0 := code0; cv_code1 := outcode xc yc;
             cv_update_prev := cv_update_prev s |}.

(** [while (true)] with fuel: [None] when the fuel does not reach a
    [break]. *)
Fixpoint clip_loop (fuel : nat) (s : clip_vars) : option (bool * clip_vars) :=
  match fuel with
  | O => None
  | S fuel' =>
      match clip_iter s with
      | inl accept => Some (accept, s)
      | inr s' => clip_loop fuel' s'
      end
  end.

Definition clip_start (x_prev y_prev x y : double) : clip_vars :=
  {| cv_x_prev := x_prev; cv_y_prev := y_prev; cv_x := x; cv_y := y;
     cv_code0 := outcode x_prev y_prev; cv_code1 := outcode x y;
     cv_update_prev := false |}.

(** Each pass clips against one of the four lines of the box and no line is
    used twice, so five passes reach a [break]. *)
Definition clip_fuel : nat := 5.

(** [path_data.back().point = ...]: undefined on an empty vector. *)
Definition set_back (path_data : list cairo_path_data_t) (d : cairo_path_data_t)
  : result (list cairo_path_data_t) :=
  match path_data with
  | [] => Err Undefined
  | _ => Ok (removelast path_data ++ [d])
  end.

Section LoadPathCodeless.

Variable snap_ : bool.
Variable snapper : double -> double.

(** The body of the main loop for a finite point [(x, y)] that has a
    predecessor [(x_prev, y_prev)]. *)
Definition codeless_segment
  (path_data : list cairo_path_data_t) (x_prev y_prev x y : double)
  : result (list cairo_path_data_t) :=
  match clip_loop clip_fuel (clip_start x_prev y_prev x y) with
  | None => Err Undefined
  | Some (accept, s) =>
      let x_prev := cv_x_prev s in
      let y_prev := cv_y_prev s in
      let x := cv_x s in
      let y := cv_y s in
      let hd := if accept then header CAIRO_PATH_LINE_TO 2
                else header CAIRO_PATH_MOVE_TO 2 in
      let path_data :=
        if accept && cv_update_prev s
        then path_data ++ [header CAIRO_PATH_MOVE_TO 2; pt x_prev y_prev]
        else path_data in
      '(path_data, point) <-
        (if snap_ then
           if (x =? x_prev)%D || (y =? y_prev)%D then
             path_data <- set_back path_data
                            (pt (snapper x_prev) (snapper y_prev)) ;;
             Ok (path_data, pt (snapper x) (snapper y))
           else Ok (path_data, pt x y)
         else Ok (path_data, pt x y)) ;;
      Ok (path_data ++ [hd; point])
  end.

End LoadPathCodeless.

Section LoadPathCodelessLoop.

Variable snap_ : bool.
Variable snapper : double -> double.
Variable vertices_ : array2.
Variable matrix_ : cairo_matrix_t.

(** [for (auto i = start; i < stop; ++i)], with [count = stop - i]. *)
Fixpoint codeless_loop (count : nat) (i : Z) (prev : option point)
  (path_data : list cairo_path_data_t) : result (list cairo_path_data_t) :=
  match count with
  | O => Ok path_data
  | S count' =>
      v <- read_point vertices_ i ;;
      let '(x, y) := cairo_matrix_transform_point matrix_ v in
      if isfinite x && isfinite y then
        match prev with
        | Some (x_prev, y_prev) =>
            path_data <- codeless_segment snap_ snapper path_data
                           x_prev y_prev x y ;;
            codeless_loop count' (i + 1)%Z (Some (x, y)) path_data
        | None =>
            codeless_loop count' (i + 1)%Z (Some (x, y))
              (path_data ++ [header CAIRO_PATH_MOVE_TO 2; pt x y])
        end
      else codeless_loop count' (i + 1)%Z None path_data
  end.

End LoadPathCodelessLoop.

(** [cairo_append_path]: the path data replayed as path calls; data that is
    not a header followed by its points ends the replay. *)
Fixpoint cairo_append_path (path_data : list cairo_path_data_t) (p : path_state)
  : path_state :=
  match path_data with
  | header CAIRO_PATH_MOVE_TO _ :: pt x y :: rest =>
      cairo_append_path rest (do_move_to p x y)
  | header CAIRO_PATH_LINE_TO _ :: pt x y :: rest =>
      cairo_append_path rest (do_line_to p x y)
  | header CAIRO_PATH_CLOSE_PATH _ :: rest =>
      cairo_append_path rest (do_close_path p)
  | _ => p
  end.

(** The codeless overload of [load_path_exact]; the [LoadPathContext]
    starts a new path. *)
Definition load_path_exact_codeless
  (cr : cairo_t) (vertices_keepref : array2) (start stop : Z)
  (matrix : cairo_matrix_t) : result cairo_t :=
  let cr := with_path empty_path cr in
  let n := shape0 vertices_keepref in
  if negb ((0 <=? start)%Z && (start <=? stop)%Z && (stop <=? n)%Z)
  then Err InvalidArgument
  else
    snap <- snap_control cr ;;
    let lw := cairo_get_line_width cr in
    let snapper := snapper_codeless lw in
    path_data <- codeless_loop snap snapper vertices_keepref matrix
                   (Z.to_nat (stop - start)) start None [] ;;
    Ok (with_path (cairo_append_path path_data (current_path cr)) cr).

(** The general overload of [load_path_exact]. *)
Definition load_path_exact
  (cr : cairo_t) (path : path_t) (matrix : cairo_matrix_t) : result cairo_t :=
  let cr0 := with_path empty_path cr in
  let vertices_keepref := vertices path in
  let n := shape0 vertices_keepref in
  if negb (shape1 vertices_keepref =? 2)%Z then Err InvalidArgument
  else
    match codes path with
    | None => load_path_exact_codeless cr0 vertices_keepref 0 n matrix
    | Some codes =>
        if negb (Z.of_nat (length codes) =? n)%Z then Err InvalidArgument
        else
          snap <- snap_control cr0 ;;
          let lw := cairo_get_line_width cr0 in
          let snapper := snapper_general snap lw in
          p <- general_loop snapper vertices_keepref codes matrix
                 (Z.to_nat n) n 0 (current_path cr0) ;;
          Ok (with_path p cr0)
    end.

(** ** [GraphicsContextRenderer] *)

Record GraphicsContextRenderer : Type := {
  self : nat;
  cr_ : cairo_t;
  width_ : Z;
  height_ : Z;
  dpi_ : double
}.

Definition with_cr (cr : cairo_t) (g : GraphicsContextRenderer)
  : GraphicsContextRenderer :=
  {| self := self g; cr_ := cr; width_ := width_ g; height_ := height_ g;
     dpi_ := dpi_ g |}.

(** The base state the constructor pushes; the hatch colour and line width
    come from the host configuration. *)
Definition base_state (hatch_color : rgba_t) (hatch_linewidth : double)
  : AdditionalState :=
  {| alpha := None;
     antialias_ := aa_bool true;
     clip_rectangle := None;
     clip_path := None;
     hatch := None;
     hatch_color := hatch_color;
     hatch_linewidth := hatch_linewidth;
     sketch := None;
     snap := true |}.

(** [GraphicsContextRenderer(cr, width, height, dpi)]: a one-element stack
    is stored under [STATE_KEY]. *)
Definition new_renderer (self : nat) (cr : cairo_t) (width height : Z)
  (dpi : double) (hatch_color : rgba_t) (hatch_linewidth : double)
  : GraphicsContextRenderer :=
  {| self := self;
     cr_ := with_states [base_state hatch_color hatch_linewidth] cr;
     width_ := width; height_ := height; dpi_ := dpi |}.

(** The member [get_additional_state]: [top()] of the stack, unchecked. *)
Definition get_additional_state (g : GraphicsContextRenderer)
  : result AdditionalState :=
  match state_key (cr_ g) with
  | Some (top :: _) => Ok top
  | _ => Err Undefined
  end.

(** An assignment through the reference [get_additional_state()] returns. *)
Definition update_additional_state
  (f : AdditionalState -> AdditionalState) (g : GraphicsContextRenderer)
  : result GraphicsContextRenderer :=
  match state_key (cr_ g) with
  | Some (top :: rest) => Ok (with_cr (with_states (f top :: rest) (cr_ g)) g)
  | _ => Err Undefined
  end.

Definition stack_depth (g : GraphicsContextRenderer) : nat :=
  match state_key (cr_ g) with
  | Some st => length st
  | None => 0
  end.

(** [new_gc]: [cairo_save], then [states.push(states.top())]. *)
Definition new_gc (g : GraphicsContextRenderer) : result GraphicsContextRenderer :=
  let cr := cairo_save (cr_ g) in
  match state_key cr with
  | Some (top :: rest) => Ok (with_cr (with_states (top :: top :: rest) cr) g)
  | _ => Err Undefined
  end.

(** [restore]: [states.pop()], then [cairo_restore].  Nothing is tested
    before the pop; only popping an empty stack is undefined. *)
Definition restore (g : GraphicsContextRenderer) : result GraphicsContextRenderer :=
  match state_key (cr_ g) with
  | Some (_ :: rest) => Ok (with_cr (cairo_restore (with_states rest (cr_ g))) g)
  | _ => Err Undefined
  end.

Inductive stack_op : Type := op_new_gc | op_restore.

Definition run_op (o : stack_op) (g : GraphicsContextRenderer)
  : result GraphicsContextRenderer :=
  match o with
  | op_new_gc => new_gc g
  | op_restore => restore g
  end.

Fixpoint run_ops (ops : list stack_op) (g : GraphicsContextRenderer)
  : result GraphicsContextRenderer :=
  match ops with
  | [] => Ok g
  | o :: rest => g' <- run_op o g ;; run_ops rest g'
  end.

(** No prefix of [ops] holds more than [d] restores in excess of its
    [new_gc]s. *)
Fixpoint matched (d : nat) (ops : list stack_op) : bool :=
  match ops with
  | [] => true
  | op_new_gc :: rest => matched (S d) rest
  | op_restore :: rest =>
      match d with
      | O => false
      | S d' => matched d' rest
      end
  end.

(** [get_rgba]: the source colour, its alpha replaced by the state's. *)
Definition get_rgba (g : GraphicsContextRenderer) : result rgba_t :=
  state <- get_additional_state g ;;
  let '(r, g_, b, a) := source (gs (cr_ g)) in
  Ok (r, g_, b, match alpha state with Some a' => a' | None => a end).

Definition one_third : double := (Fin 1 / Fin (3 # 1))%D.

(** The antialiasing an [AdditionalContext] sets. *)
Definition resolve_antialias (aa : antialias_variant) (lw : double)
  : cairo_antialias_t :=
  match aa with
  | aa_enum aa => aa
  | aa_bool true =>
      if (lw <? one_third)%D then CAIRO_ANTIALIAS_BEST else CAIRO_ANTIALIAS_FAST
  | aa_bool false => CAIRO_ANTIALIAS_NONE
  end.

(** The constructor of [AdditionalContext]. *)
Definition additional_context (gcr : GraphicsContextRenderer)
  : result GraphicsContextRenderer :=
  let cr := cairo_save (cr_ gcr) in
  rgba <- get_rgba gcr ;;
  let cr := cairo_set_source_rgba rgba cr in
  state <- get_additional_state gcr ;;
  let cr := cairo_set_antialias
              (resolve_antialias (antialias_ state) (cairo_get_line_width cr))
              cr in
  let cr :=
    match clip_rectangle state with
    | Some (x, y, w, h) =>
        cairo_clip
          (clip_rectangle_of x (of_Z (height_ gcr) - h - y)%D w h) cr
    | None => cr
    end in
  let cr :=
    match clip_path state with
    | Some clip_path => cairo_clip (clip_path_of clip_path) cr
    | None => cr
    end in
  Ok (with_cr cr gcr).

(** The destructor of [AdditionalContext]. *)
Definition additional_context_exit (gcr : GraphicsContextRenderer)
  : GraphicsContextRenderer :=
  with_cr (cairo_restore (cr_ gcr)) gcr.

(** The surface types [has_vector_surface] classifies as raster and as
    vector; it rejects every other type. *)
Definition is_raster (t : cairo_surface_type_t) : bool :=
  match t with
  | CAIRO_SURFACE_TYPE_IMAGE | CAIRO_SURFACE_TYPE_XLIB => true
  | _ => false
  end.

Definition is_vector (t : cairo_surface_type_t) : bool :=
  match t with
  | CAIRO_SURFACE_TYPE_PDF | CAIRO_SURFACE_TYPE_PS | CAIRO_SURFACE_TYPE_SVG
  | CAIRO_SURFACE_TYPE_RECORDING | CAIRO_SURFACE_TYPE_SCRIPT => true
  | _ => false
  end.

(** *** Markers *)

(** What one call of [draw_markers] draws: either the stamp grid, with the
    offset of every pre-rendered patch and, for every marker, the index of
    the patch painted and the integer position it is painted at, or one
    direct drawing per marker, with the marker's own matrix. *)
Inductive marker_output : Type :=
| stamped (n_subpix : Z) (patches : list point)
    (stamps : list (Z * double * double))
| direct (markers : list cairo_matrix_t).

Definition one_sixteenth : double := (Fin 1 / Fin (16 # 1))%D.

(** [draw_one_marker]: the matrix handed to [fill_and_stroke_exact]. *)
Definition marker_matrix_at (marker_matrix : cairo_matrix_t) (x y : double)
  : cairo_matrix_t :=
  {| xx := xx marker_matrix; yx := yx marker_matrix;
     xy := xy marker_matrix; yy := yy marker_matrix;
     x0 := x0 marker_matrix + x; y0 := y0 marker_matrix + y |}%D.

(** The two nested loops that fill the pattern cache: patch [i * n + j] is
    drawn at [(-x0 + i / n, -y0 + j / n)]. *)
Definition stamp_patches (n_subpix : Z) (x0 y0 : double) : list point :=
  flat_map
    (fun i =>
       map (fun j =>
              ((- x0) + of_Z (Z.of_nat i) / of_Z n_subpix,
               (- y0) + of_Z (Z.of_nat j) / of_Z n_subpix)%D)
           (seq 0 (Z.to_nat n_subpix)))
    (seq 0 (Z.to_nat n_subpix)).

Definition is_stamped (out : marker_output) : bool :=
  match out with
  | stamped _ _ _ => true
  | direct _ => false
  end.

(** The transformed marker positions, in order. *)
Definition marker_positions (vertices_ : array2) (matrix_ : cairo_matrix_t)
  : list point :=
  map (fun i => cairo_matrix_transform_point matrix_
                  (at2 vertices_ (Z.of_nat i) 0, at2 vertices_ (Z.of_nat i) 1))
      (seq 0 (Z.to_nat (shape0 vertices_))).

Definition finite_point (p : point) : bool :=
  isfinite (fst p) && isfinite (snd p).

Section DrawMarkers.

(** [rc_param("path.simplify_threshold")]. *)
Variable rc_simplify_threshold : double.
(** The extents cairo reports for the stroked and for the filled marker
    path. *)
Variable stroke_extents : double * double * double * double.
Variable fill_extents : double * double * double * double.

Definition dmin2 (a b : double) : double := if (b <? a)%D then b else a.
Definition dmax2 (a b : double) : double := if (a <? b)%D then b else a.

(** The stamping loop over the marker positions. *)
Fixpoint stamp_loop (vertices_ : array2) (matrix_ : cairo_matrix_t)
  (n_subpix : Z) (x0 y0 : double) (count : nat) (i : Z)
  : result (list (Z * double * double)) :=
  match count with
  | O => Ok []
  | S count' =>
      v <- read_point vertices_ i ;;
      let '(x, y) := cairo_matrix_transform_point matrix_ v in
      let target_x := (x + x0)%D in
      let target_y := (y + y0)%D in
      if negb (isfinite target_x && isfinite target_y) then
        stamp_loop vertices_ matrix_ n_subpix x0 y0 count' (i + 1)%Z
      else
        let i_target_x := floor target_x in
        let i_target_y := floor target_y in
        let f_target_x := (target_x - i_target_x)%D in
        let f_target_y := (target_y - i_target_y)%D in
        a <- to_int (of_Z n_subpix * f_target_x)%D ;;
        b <- to_int (of_Z n_subpix * f_target_y)%D ;;
        idx <- (c <- cint (a * n_subpix) ;; cint (c + b)) ;;
        if (0 <=? idx)%Z && (idx <? n_subpix * n_subpix)%Z then
          rest <- stamp_loop vertices_ matrix_ n_subpix x0 y0 count'
                    (i + 1)%Z ;;
          Ok ((idx, i_target_x, i_target_y) :: rest)
        else Err Undefined
  end.

(** The loop that draws every marker on its own; the [continue] of a
    non-finite position skips the [cairo_restore] of the iteration. *)
Fixpoint direct_loop (vertices_ : array2) (matrix_ marker_matrix : cairo_matrix_t)
  (count : nat) (i : Z) (cr : cairo_t)
  : result (cairo_t * list cairo_matrix_t) :=
  match count with
  | O => Ok (cr, [])
  | S count' =>
      let cr := cairo_save cr in
      v <- read_point vertices_ i ;;
      let '(x, y) := cairo_matrix_transform_point matrix_ v in
      if negb (isfinite x && isfinite y) then
        direct_loop vertices_ matrix_ marker_matrix count' (i + 1)%Z cr
      else
        let cr := cairo_restore cr in
        '(cr, rest) <- direct_loop vertices_ matrix_ marker_matrix count'
                         (i + 1)%Z cr ;;
        Ok (cr, marker_matrix_at marker_matrix x y :: rest)
  end.

(** [has_vector_surface(cr_) ? 0 : rc_param("path.simplify_threshold")]. *)
Definition simplify_threshold_of (cr : cairo_t) : result double :=
  vector <- has_vector_surface cr ;;
  Ok (if vector then Fin 0 else rc_simplify_threshold).

(** [n_subpix], and whether the array of patterns is allocated. *)
Definition stamp_grid (simplify_threshold : double) (n_vertices : Z)
  : result (Z * bool) :=
  if (one_sixteenth <=? simplify_threshold)%D then
    n_subpix <- to_int (ceil (Fin 1 / simplify_threshold)%D) ;;
    sq <- cint (n_subpix * n_subpix) ;;
    Ok (n_subpix, (sq <? n_vertices)%Z)
  else Ok (0%Z, false).

(** The corner [(x0, y0)] of the marker's extents the stamps are
    positioned by. *)
Definition marker_origin (fc : option rgba_t) : double * double :=
  let '(x0, y0, x1, y1) := stroke_extents in
  match fc with
  | Some _ =>
      let '(fx1, fy1, fx2, fy2) := fill_extents in
      (dmin2 x0 fx1, dmax2 y0 fy1)
  | None => (x0, y0)
  end.

Definition draw_markers
  (this gc : GraphicsContextRenderer)
  (marker_path : path_t) (marker_transform : transform_t)
  (path : path_t) (transform : transform_t) (fc : option rgba_t)
  : result (GraphicsContextRenderer * marker_output) :=
  if negb (self gc =? self this)%nat then Err InvalidArgument
  else
    this <- additional_context this ;;
    state <- get_additional_state this ;;
    let old_snap := snap state in
    this <- update_additional_state (set_snap_field false) this ;;
    let vertices := vertices path in
    let n_vertices := shape0 vertices in
    marker_matrix <- matrix_from_transform marker_transform (Fin 0) ;;
    matrix <- matrix_from_transform transform (of_Z (height_ this)) ;;
    simplify_threshold <- simplify_threshold_of (cr_ this) ;;
    '(n_subpix, patterns) <- stamp_grid simplify_threshold n_vertices ;;
    '(this, out) <-
      (if patterns : bool then
         let '(x0, y0) := marker_origin fc in
         stamps <- stamp_loop vertices matrix n_subpix x0 y0
                     (Z.to_nat n_vertices) 0 ;;
         Ok (this, stamped n_subpix (stamp_patches n_subpix x0 y0) stamps)
       else
         '(cr, markers) <- direct_loop vertices matrix marker_matrix
                             (Z.to_nat n_vertices) 0 (cr_ this) ;;
         Ok (with_cr cr this, direct markers)) ;;
    this <- update_additional_state (set_snap_field old_snap) this ;;
    Ok (additional_context_exit this, out).

End DrawMarkers.

(** *** Path collections *)

Inductive draw_func_t : Type := Fill | Stroke.

(** One call of [PatternCache::mask]: the indices of the path and of the
    matrix, the source colour, the operation with its line width and the
    index of its dash, and the offset. *)
Record mask_call : Type := {
  mask_path : Z;
  mask_matrix : cairo_matrix_t;
  mask_source : rgba_t;
  mask_func : draw_func_t;
  mask_lw : double;
  mask_dash : option Z;
  mask_x : double;
  mask_y : double
}.

Definition row_rgba (a : array2) (i : Z) : rgba_t :=
  (at2 a i 0, at2 a i 1, at2 a i 2, at2 a i 3).

Definition truthy (s : option string) : bool :=
  match s with
  | Some s => negb (String.eqb s EmptyString)
  | None => false
  end.

Section DrawPathCollection.

Variable n_paths : Z.
Variable matrices : list cairo_matrix_t.
Variable offsets_raw : array2.
Variable offset_matrix : cairo_matrix_t.
Variable fcs_raw ecs_raw : array2.
Variable lws_raw : list double.
Variable n_dashes : Z.

Definition points_to_pixels (g : GraphicsContextRenderer) (points : double)
  : double := (points * dpi_ g / Fin (72 # 1))%D.

(** The body of the loop over the [n] elements of the collection. *)
Definition collection_element (g : GraphicsContextRenderer) (i : Z)
  : list mask_call :=
  let n_transforms := Z.of_nat (length matrices) in
  let n_offsets := shape0 offsets_raw in
  let matrix := nth (Z.to_nat (i mod n_transforms)) matrices
                  {| xx := NaN; yx := NaN; xy := NaN; yy := NaN;
                     x0 := NaN; y0 := NaN |} in
  let '(x, y) :=
    cairo_matrix_transform_point offset_matrix
      (at2 offsets_raw (i mod n_offsets) 0,
       at2 offsets_raw (i mod n_offsets) 1) in
  if negb (isfinite x && isfinite y) then []
  else
    (if nonzero (shape0 fcs_raw) then
       [{| mask_path := i mod n_paths; mask_matrix := matrix;
           mask_source := row_rgba fcs_raw (i mod shape0 fcs_raw);
           mask_func := Fill; mask_lw := Fin 0; mask_dash := None;
           mask_x := x; mask_y := y |}]
     else [])
    ++
    (if nonzero (shape0 ecs_raw * shape1 ecs_raw) then
       [{| mask_path := i mod n_paths; mask_matrix := matrix;
           mask_source := row_rgba ecs_raw (i mod shape0 ecs_raw);
           mask_func := Stroke;
           mask_lw :=
             match lws_raw with
             | [] => cairo_get_line_width (cr_ g)
             | _ =>
                 points_to_pixels g
                   (nth (Z.to_nat (i mod Z.of_nat (length lws_raw)))
                      lws_raw NaN)
             end;
           mask_dash := Some (i mod n_dashes)%Z;
           mask_x := x; mask_y := y |}]
     else []).

End DrawPathCollection.

Fixpoint matrices_from_transforms (transforms : list transform_t)
  (master_matrix : cairo_matrix_t) : result (list cairo_matrix_t) :=
  match transforms with
  | [] => Ok []
  | t :: rest =>
      m <- matrix_from_transform_master t master_matrix ;;
      ms <- matrices_from_transforms rest master_matrix ;;
      Ok (m :: ms)
  end.

(** A dash of the collection: its offset and its list, either optional. *)
Definition dash_arg : Type := (option double * option (list double))%type.

(** [set_dashes] on every dash: a list without an offset is rejected. *)
Fixpoint convert_dashes (dashes : list dash_arg) : result unit :=
  match dashes with
  | [] => Ok tt
  | (None, Some _) :: _ => Err InvalidArgument
  | _ :: rest => convert_dashes rest
  end.

Section DrawPathCollectionCall.

(** [RendererBase.draw_path_collection], the host framework's generic
    implementation the unsupported cases fall back onto. *)
Variable renderer_base_draw_path_collection :
  GraphicsContextRenderer -> result GraphicsContextRenderer.

Definition draw_path_collection
  (this gc : GraphicsContextRenderer)
  (master_transform : transform_t)
  (paths : list path_t) (transforms : list transform_t)
  (offsets : array2) (offset_transform : transform_t)
  (fcs ecs : array2) (lws : list double) (dashes : list dash_arg)
  (offset_position : string)
  : result (GraphicsContextRenderer * list mask_call) :=
  hatch_state <- get_additional_state this ;;
  if truthy (hatch hatch_state) || String.eqb offset_position "data"
  then
    this <- renderer_base_draw_path_collection this ;;
    Ok (this, [])
  else if negb (self gc =? self this)%nat then Err InvalidArgument
  else
    this <- additional_context this ;;
    state <- get_additional_state this ;;
    let old_snap := snap state in
    this <- update_additional_state (set_snap_field false) this ;;
    let n_paths := Z.of_nat (length paths) in
    let n_transforms := Z.of_nat (length transforms) in
    let n_offsets := shape0 offsets in
    let n := Z.max (Z.max n_paths n_transforms) n_offsets in
    if negb (nonzero n_paths) || negb (nonzero n_offsets)
    then Ok (additional_context_exit this, [])
    else
      master_matrix <-
        matrix_from_transform master_transform (of_Z (height_ this)) ;;
      matrices <-
        (if nonzero n_transforms
         then matrices_from_transforms transforms master_matrix
         else Ok [master_matrix]) ;;
      if negb (shape1 offsets =? 2)%Z then Err InvalidArgument
      else
        offset_matrix <- matrix_from_transform offset_transform (Fin 0) ;;
        _ <- convert_dashes dashes ;;
        let n_dashes :=
          match dashes with
          | [] => 1%Z
          | _ => Z.of_nat (length dashes)
          end in
        _ <- has_vector_surface (cr_ this) ;;
        let masks :=
          flat_map
            (fun i => collection_element n_paths matrices offsets
                        offset_matrix fcs ecs lws n_dashes this
                        (Z.of_nat i))
            (seq 0 (Z.to_nat n)) in
        this <- update_additional_state (set_snap_field old_snap) this ;;
        Ok (additional_context_exit this, masks).

End DrawPathCollectionCall.

(** *** Regions *)

(** [cairo_rectangle_int_t]. *)
Record cairo_rectangle_int_t : Type := {
  rect_x : Z; rect_y : Z; rect_width : Z; rect_height : Z
}.

Record Region : Type := {
  bbox : cairo_rectangle_int_t;
  buf : list byte
}.

(** The bounding box handed to [copy_from_bbox]: its four attributes. *)
Record bbox_t : Type := {
  bbox_x0 : double; bbox_y0 : double; bbox_x1 : double; bbox_y1 : double
}.

(** The source of a [memcpy]: [n] bytes at offset [off]. *)
Definition read_bytes (mem : list byte) (off n : Z) : result (list byte) :=
  if (0 <=? off)%Z && (0 <=? n)%Z && (off + n <=? Z.of_nat (length mem))%Z
  then Ok (firstn (Z.to_nat n) (skipn (Z.to_nat off) mem))
  else Err Undefined.

(** The destination of a [memcpy]: [src] written at offset [off]. *)
Definition write_bytes (mem : list byte) (off : Z) (src : list byte)
  : result (list byte) :=
  if (0 <=? off)%Z && (off + Z.of_nat (length src) <=? Z.of_nat (length mem))%Z
  then Ok (firstn (Z.to_nat off) mem ++ src
             ++ skipn (Z.to_nat off + length src) mem)
  else Err Undefined.

Section RegionRows.

Variable x0 y0 width stride : Z.

(** The offset [(y - y0) * 4 * width] into the buffer. *)
Definition buf_offset (y : Z) : result Z :=
  a <- cint (y - y0) ;; b <- cint (a * 4) ;; cint (b * width).

(** The offset [y * stride + 4 * x0] into the pixel data. *)
Definition raw_offset (y : Z) : result Z :=
  a <- cint (y * stride) ;; b <- cint (4 * x0) ;; Ok (a + b)%Z.

(** [for (int y = y0; y < y1; ++y) memcpy(buf + ..., raw + ..., 4 * width)],
    with [count = y1 - y]. *)
Fixpoint copy_rows (raw : list byte) (count : nat) (y : Z) (buf : list byte)
  : result (list byte) :=
  match count with
  | O => Ok buf
  | S count' =>
      dst <- buf_offset y ;;
      src <- raw_offset y ;;
      len <- cint (4 * width) ;;
      row <- read_bytes raw src len ;;
      buf <- write_bytes buf dst row ;;
      copy_rows raw count' (y + 1)%Z buf
  end.

(** [for (int y = y0; y < y1; ++y) memcpy(raw + ..., buf + ..., 4 * width)]. *)
Fixpoint restore_rows (buf : list byte) (count : nat) (y : Z) (raw : list byte)
  : result (list byte) :=
  match count with
  | O => Ok raw
  | S count' =>
      dst <- raw_offset y ;;
      src <- buf_offset y ;;
      len <- cint (4 * width) ;;
      row <- read_bytes buf src len ;;
      raw <- write_bytes raw dst row ;;
      restore_rows buf count' (y + 1)%Z raw
  end.

End RegionRows.

Definition is_image (s : cairo_surface_t) : bool :=
  match surface_type s with
  | CAIRO_SURFACE_TYPE_IMAGE => true
  | _ => false
  end.

Definition bbox_in_bounds (g : GraphicsContextRenderer) (x0 y0 x1 y1 : Z) : bool :=
  (0 <=? x0)%Z && (x0 <=? x1)%Z && (x1 <=? width_ g)%Z
  && (0 <=? y0)%Z && (y0 <=? y1)%Z && (y1 <=? height_ g)%Z.

(** [copy_from_bbox]; the bytes of a new array are unspecified until they
    are written, and are taken to be zero. *)
Definition copy_from_bbox (g : GraphicsContextRenderer) (bbox : bbox_t)
  : result Region :=
  x0 <- to_int (floor (bbox_x0 bbox)) ;;
  x1 <- to_int (ceil (bbox_x1 bbox)) ;;
  y0 <- to_int (floor (bbox_y0 bbox)) ;;
  y1 <- to_int (ceil (bbox_y1 bbox)) ;;
  if negb (bbox_in_bounds g x0 y0 x1 y1) then Err InvalidArgument
  else
    width <- cint (x1 - x0) ;;
    height <- cint (y1 - y0) ;;
    size <- (a <- cint (4 * width) ;; cint (a * height)) ;;
    let buf := repeat x00 (Z.to_nat size) in
    let surface := target (cr_ g) in
    if negb (is_image surface) then Err RuntimeError
    else
      let raw := surface_data surface in
      let stride := surface_stride surface in
      buf <- copy_rows x0 y0 width stride raw (Z.to_nat (y1 - y0)) y0 buf ;;
      Ok {| bbox := {| rect_x := x0; rect_y := y0;
                       rect_width := width; rect_height := height |};
            buf := buf |}.

Definition with_surface_data (d : list byte) (s : cairo_surface_t)
  : cairo_surface_t :=
  {| surface_type := surface_type s; surface_width := surface_width s;
     surface_height := surface_height s; surface_stride := surface_stride s;
     surface_data := d |}.

(** [restore_region]. *)
Definition restore_region (g : GraphicsContextRenderer) (region : Region)
  : result GraphicsContextRenderer :=
  let x0 := rect_x (bbox region) in
  let y0 := rect_y (bbox region) in
  let width := rect_width (bbox region) in
  let height := rect_height (bbox region) in
  y1 <- cint (y0 + height) ;;
  let surface := target (cr_ g) in
  if negb (is_image surface) then Err RuntimeError
  else
    let raw := surface_data surface in
    let stride := surface_stride surface in
    raw <- restore_rows x0 y0 width stride (buf region)
             (Z.to_nat (y1 - y0)) y0 raw ;;
    Ok (with_cr (with_target (with_surface_data raw surface) (cr_ g)) g).

(** A finite double within [lo, hi]. *)
Definition in_range (lo hi : Q) (d : double) : Prop :=
  match d with
  | Fin q => lo <= q /\ q <= hi
  | _ => False
  end.

(** The coordinates a path call hands to the surface. *)
Definition call_coords (c : path_call) : list double :=
  match c with
  | cairo_move_to x y => [x; y]
  | cairo_line_to x y => [x; y]
  | cairo_curve_to x1 y1 x2 y2 x3 y3 => [x1; y1; x2; y2; x3; y3]
  | cairo_close_path => []
  | cairo_new_sub_path => []
  end.

Definition calls_in_range (lo hi : Q) (l : list path_call) : Prop :=
  Forall (fun c => Forall (in_range lo hi) (call_coords c)) l.

Definition point_in_range (lo hi : Q) (p : option point) : Prop :=
  match p with
  | Some (x, y) => in_range lo hi x /\ in_range lo hi y
  | None => True
  end.

(** Every coordinate of the path so far, its current point and the start
    of its current sub-path included, lies within [lo, hi]. *)
Definition path_in_range (lo hi : Q) (p : path_state) : Prop :=
  calls_in_range lo hi (calls p)
  /\ point_in_range lo hi (current_point p)
  /\ point_in_range lo hi (last_move_point p).

(** ** The clipping box and segments, to state what the clipper does *)

Definition qpoint : Type := (Q * Q)%type.

Definition dpoint (p : qpoint) : point := (Fin (fst p), Fin (snd p)).

(** The box [-2^22, 2^22] x [-2^22, 2^22]. *)
Definition in_box (p : qpoint) : Prop :=
  (qmin <= fst p /\ fst p <= qmax) /\ (qmin <= snd p /\ snd p <= qmax).

Definition in_boxb (p : qpoint) : bool :=
  Qle_bool qmin (fst p) && Qle_bool (fst p) qmax
  && Qle_bool qmin (snd p) && Qle_bool (snd p) qmax.

(** The four lines that bound the box. *)
Inductive side : Type := side_top | side_bottom | side_right | side_left.

(** The point lies strictly beyond the line of the side. *)
Definition beyond (s : side) (p : qpoint) : Prop :=
  match s with
  | side_top => qmax < snd p
  | side_bottom => snd p < qmin
  | side_right => qmax < fst p
  | side_left => fst p < qmin
  end.

(** The point lies exactly on the line of the side. *)
Definition on_side (s : side) (p : qpoint) : Prop :=
  match s with
  | side_top => snd p = qmax
  | side_bottom => snd p = qmin
  | side_right => fst p = qmax
  | side_left => fst p = qmin
  end.

(** On the boundary of the box: in the box, and on one of its lines. *)
Definition on_boundary (p : qpoint) : Prop :=
  in_box p /\ exists s, on_side s p.

(** The point of the segment from [a] to [b] at the parameter [t]. *)
Definition at_param (a b : qpoint) (t : Q) (p : qpoint) : Prop :=
  fst p == fst a + t * (fst b - fst a)
  /\ snd p == snd a + t * (snd b - snd a).

Definition on_segment (a b p : qpoint) : Prop :=
  exists t, (0 <= t /\ t <= 1) /\ at_param a b t p.

Definition outcode_of (p : qpoint) : Z := outcode (Fin (fst p)) (Fin (snd p)).

(** The side the loop clips a point against: the first it lies beyond, in
    the order top, bottom, right, left. *)
Definition first_side (p : qpoint) : option side :=
  if Qltb qmax (snd p) then Some side_top
  else if Qltb (snd p) qmin then Some side_bottom
  else if Qltb qmax (fst p) then Some side_right
  else if Qltb (fst p) qmin then Some side_left
  else None.

(** The intersection of the line through [a] and [b] with the line of a
    side, as the loop computes it from the previous point [a] and the
    current point [b]. *)
Definition clip_at (s : side) (a b : qpoint) : qpoint :=
  let '(xa, ya) := a in
  let '(xb, yb) := b in
  match s with
  | side_top => (xa + (xb - xa) * (qmax - ya) / (yb - ya), qmax)
  | side_bottom => (xa + (xb - xa) * (qmin - ya) / (yb - ya), qmin)
  | side_right => (qmax, ya + (yb - ya) * (qmax - xa) / (xb - xa))
  | side_left => (qmin, ya + (yb - ya) * (qmin - xa) / (xb - xa))
  end.

(** The variables of the loop hold the finite points [p] and [q] and their
    outcodes. *)
Definition represents (s : clip_vars) (p q : qpoint) : Prop :=
  cv_x_prev s = Fin (fst p) /\ cv_y_prev s = Fin (snd p)
  /\ cv_x s = Fin (fst q) /\ cv_y s = Fin (snd q)
  /\ cv_code0 s = outcode_of p /\ cv_code1 s = outcode_of q.

(** How far a point lies beyond the line of a side (positive: beyond). *)
Definition level (s : side) (p : qpoint) : Q :=
  match s with
  | side_top => snd p - qmax
  | side_bottom => qmin - snd p
  | side_right => fst p - qmax
  | side_left => qmin - fst p
  end.

(** The number of sides one of the two points lies beyond. *)
Definition beyondb (s : side) (p : qpoint) : bool := Qltb 0 (level s p).

Definition side_count (s : side) (p q : qpoint) : nat :=
  if beyondb s p || beyondb s q then 1 else 0.

Definition sides_beyond (p q : qpoint) : nat :=
  side_count side_top p q + side_count side_bottom p q
  + side_count side_right p q + side_count side_left p q.

(** What the loop maintains about the points [p] and [q] its variables
    hold, for the segment from [p0] to [q0] it was started on: they are
    points of the segment, in this order; no point of the segment that is
    in the box lies outside the part between them; the previous point is
    the original one until [update_prev] is set, and then lies on the
    line of a side; the current point is the original one until the
    previous point is in the box, and then lies on the line of a side. *)
Definition clip_invariant (p0 q0 p q : qpoint) (update_prev : bool) : Prop :=
  exists a b : Q,
    (0 <= a /\ a <= b /\ b <= 1)
    /\ at_param p0 q0 a p /\ at_param p0 q0 b q
    /\ (forall t x, 0 <= t -> t <= 1 -> at_param p0 q0 t x -> in_box x ->
          a <= t /\ t <= b)
    /\ (if update_prev
        then ~ in_box p0 /\ exists s, on_side s p
        else p = p0)
    /\ (q = q0 \/ (in_box p /\ ~ in_box q0 /\ exists s, on_side s q)).

(** The byte at offset [i] of a buffer. *)
Definition byte_at (mem : list byte) (i : Z) : option byte :=
  if (0 <=? i)%Z then nth_error mem (Z.to_nat i) else None.

(** cairo's bound on the width and on the height of an image surface. *)
Definition MAX_IMAGE_SIZE : Z := 32767.

(** An image surface of a four-byte pixel format, as cairo creates it for
    the renderer: rows of [stride >= 4 * width] bytes, [stride * height]
    bytes in all, addressable with [int] offsets, and at least as large as
    the renderer takes it to be. *)
Definition image_ok (g : GraphicsContextRenderer) : bool :=
  let s := target (cr_ g) in
  is_image s
  && (0 <=? width_ g)%Z && (width_ g <=? surface_width s)%Z
  && (0 <=? height_ g)%Z && (height_ g <=? surface_height s)%Z
  && (surface_width s <=? MAX_IMAGE_SIZE)%Z
  && (surface_height s <=? MAX_IMAGE_SIZE)%Z
  && (4 * surface_width s <=? surface_stride s)%Z
  && (Z.of_nat (length (surface_data s))
      =? surface_stride s * surface_height s)%Z
  && (surface_stride s * surface_height s <=? INT_MAX)%Z.

(** Whether the size [4 * width * height] of a region's buffer is an
    [int]. *)
Definition buffer_size_defined (x0 y0 x1 y1 : Z) : bool :=
  is_ok (a <- cint (4 * (x1 - x0)) ;; cint (a * (y1 - y0))).

(** The rectangle a region was captured from. *)
Definition region_rectangle (r : Region) (x y w h : Z) : Prop :=
  bbox r = {| rect_x := x; rect_y := y; rect_width := w; rect_height := h |}.

(** Two renderers on surfaces of one geometry. *)
Definition same_geometry (g g' : GraphicsContextRenderer) : bool :=
  (surface_width (target (cr_ g)) =? surface_width (target (cr_ g')))%Z
  && (surface_height (target (cr_ g)) =? surface_height (target (cr_ g')))%Z
  && (surface_stride (target (cr_ g)) =? surface_stride (target (cr_ g')))%Z.

(** The states of the stack, top first, and its bottom element. *)
Definition states_of (g : GraphicsContextRenderer) : list AdditionalState :=
  match state_key (cr_ g) with
  | Some st => st
  | None => []
  end.

Fixpoint bottom {A : Type} (l : list A) : option A :=
  match l with
  | [] => None
  | x :: rest =>
      match rest with
      | [] => Some x
      | _ :: _ => bottom rest
      end
  end.

Definition count_op (o : stack_op) (ops : list stack_op) : nat :=
  length (filter (fun o' => match o, o' with
                            | op_new_gc, op_new_gc
                            | op_restore, op_restore => true
                            | _, _ => false
                            end) ops).

(** ** Sample values, used to run the definitions *)

Module Sample.

Definition zero_bytes (n : nat) : list byte := repeat x00 n.

(** A 3 x 2 image surface, four bytes per pixel, rows of 12 bytes. *)
Definition image : cairo_surface_t :=
  {| surface_type := CAIRO_SURFACE_TYPE_IMAGE;
     surface_width := 3; surface_height := 2; surface_stride := 12;
     surface_data :=
       [x01; x02; x03; x04;  x05; x06; x07; x08;  x09; x0a; x0b; x0c;
        x11; x12; x13; x14;  x15; x16; x17; x18;  x19; x1a; x1b; x1c] |}.

Definition surface_of (t : cairo_surface_type_t) : cairo_surface_t :=
  {| surface_type := t; surface_width := 3; surface_height := 2;
     surface_stride := 0; surface_data := [] |}.

Definition black : rgba_t := (Fin 0, Fin 0, Fin 0, Fin 1).

Definition context (s : cairo_surface_t) (lw : double) : cairo_t :=
  {| target := s;
     gs := {| source := black; antialias := CAIRO_ANTIALIAS_DEFAULT;
              line_width := lw; clips := [] |};
     saved := [];
     status := CAIRO_STATUS_SUCCESS;
     current_path := empty_path;
     state_key := None |}.

(** A renderer as its constructor leaves it. *)
Definition renderer (s : cairo_surface_t) (lw : double)
  : GraphicsContextRenderer :=
  new_renderer 1 (context s lw) 3 2 (Fin (72 # 1)) black (Fin 1).

Definition identity_matrix : cairo_matrix_t :=
  {| xx := Fin 1; yx := Fin 0; xy := Fin 0; yy := Fin 1;
     x0 := Fin 0; y0 := Fin 0 |}.

(** The transform whose device matrix for a height of 0 is the identity. *)
Definition flip : transform_t :=
  {| is_affine := Some true;
     matrix := {| shape0 := 3; shape1 := 3;
                  elements := [Fin 1; Fin 0; Fin 0;
                               Fin 0; - Fin 1; Fin 0;
                               Fin 0; Fin 0; Fin 1]%D |} |}.

Definition points (ps : list (Q * Q)) : array2 :=
  {| shape0 := Z.of_nat (length ps); shape1 := 2;
     elements := flat_map (fun p => [Fin (fst p); Fin (snd p)]) ps |}.

(** The same surface after every pixel was overwritten. *)
Definition image_redrawn : cairo_surface_t :=
  with_surface_data (zero_bytes 24) image.

Definition box (x0 y0 x1 y1 : Q) : bbox_t :=
  {| bbox_x0 := Fin x0; bbox_y0 := Fin y0;
     bbox_x1 := Fin x1; bbox_y1 := Fin y1 |}.

(** A path with op codes: MOVETO, LINETO, CURVE3 with its control point,
    CLOSEPOLY; the second vertex lies beyond the clamping box. *)
Definition coded_path : path_t :=
  {| vertices := points [(0, 0); (5000000, 10); (20, 30); (40, 1 # 2); (0, 0)];
     codes := Some [1; 2; 3; 3; 79]%Z |}.

(** The single vertex (2^22, 0), with the code MOVETO. *)
Definition corner_path : path_t :=
  {| vertices := points [(4194304, 0)]; codes := Some [1%Z] |}.

(** A horizontal segment well inside the clipping box. *)
Definition level_line : array2 := points [(1 # 5, 1 # 5); (26 # 5, 1 # 5)].

(** A polyline that leaves the box through its top side and goes on
    horizontally above it. *)
Definition overshoot : array2 :=
  points [(0, 0); (10, 8388608); (20, 8388608)].

(** Five marker positions, and the extents of a marker one pixel wide. *)
Definition five_points : path_t :=
  {| vertices := points [(0, 0); (1 # 2, 1); (2, 2); (3, 3 # 4); (4, 4)];
     codes := None |}.

Definition unit_extents : double * double * double * double :=
  (Fin 0, Fin 0, Fin 1, Fin 1).

End Sample.

(** ** The setters of the graphics context *)

Definition set_alpha_field (a : option double) (s : AdditionalState)
  : AdditionalState :=
  {| alpha := a; antialias_ := antialias_ s;
     clip_rectangle := clip_rectangle s; clip_path := clip_path s;
     hatch := hatch s; hatch_color := hatch_color s;
     hatch_linewidth := hatch_linewidth s; sketch := sketch s;
     snap := snap s |}.

Definition set_antialias_field (aa : antialias_variant) (s : AdditionalState)
  : AdditionalState :=
  {| alpha := alpha s; antialias_ := aa;
     clip_rectangle := clip_rectangle s; clip_path := clip_path s;
     hatch := hatch s; hatch_color := hatch_color s;
     hatch_linewidth := hatch_linewidth s; sketch := sketch s;
     snap := snap s |}.

Definition set_clip_rectangle_field (r : option rectangle_t)
  (s : AdditionalState) : AdditionalState :=
  {| alpha := alpha s; antialias_ := antialias_ s;
     clip_rectangle := r; clip_path := clip_path s;
     hatch := hatch s; hatch_color := hatch_color s;
     hatch_linewidth := hatch_linewidth s; sketch := sketch s;
     snap := snap s |}.

Definition set_hatch_field (h : option string) (s : AdditionalState)
  : AdditionalState :=
  {| alpha := alpha s; antialias_ := antialias_ s;
     clip_rectangle := clip_rectangle s; clip_path := clip_path s;
     hatch := h; hatch_color := hatch_color s;
     hatch_linewidth := hatch_linewidth s; sketch := sketch s;
     snap := snap s |}.

Definition set_hatch_color_field (c : rgba_t) (s : AdditionalState)
  : AdditionalState :=
  {| alpha := alpha s; antialias_ := antialias_ s;
     clip_rectangle := clip_rectangle s; clip_path := clip_path s;
     hatch := hatch s; hatch_color := c;
     hatch_linewidth := hatch_linewidth s; sketch := sketch s;
     snap := snap s |}.

(** [set_alpha]. *)
Definition set_alpha (alpha : option double) (g : GraphicsContextRenderer)
  : result GraphicsContextRenderer :=
  update_additional_state (set_alpha_field alpha) g.

(** [set_antialiased]. *)
Definition set_antialiased (aa : antialias_variant) (g : GraphicsContextRenderer)
  : result GraphicsContextRenderer :=
  update_additional_state (set_antialias_field aa) g.

(** [set_clip_rectangle]; the argument is the rectangle after its cast to
    [rectangle_t]. *)
Definition set_clip_rectangle (rectangle : option rectangle_t)
  (g : GraphicsContextRenderer) : result GraphicsContextRenderer :=
  update_additional_state (set_clip_rectangle_field rectangle) g.

(** [set_foreground]; the argument is the colour [to_rgba] returns. *)
Definition set_foreground (fg : rgba_t) (g : GraphicsContextRenderer)
  : result GraphicsContextRenderer :=
  let '(r, g_, b, a) := fg in
  state <- get_additional_state g ;;
  let a := match alpha state with Some a' => a' | None => a end in
  Ok (with_cr (cairo_set_source_rgba (r, g_, b, a) (cr_ g)) g).

(** [set_hatch]. *)
Definition set_hatch (hatch : option string) (g : GraphicsContextRenderer)
  : result GraphicsContextRenderer :=
  update_additional_state (set_hatch_field hatch) g.

(** [set_hatch_color]; the argument is the colour [to_rgba] returns. *)
Definition set_hatch_color (hatch_color : rgba_t) (g : GraphicsContextRenderer)
  : result GraphicsContextRenderer :=
  update_additional_state (set_hatch_color_field hatch_color) g.

(** [set_snap]: [snap.value_or(true)]. *)
Definition set_snap (snap : option bool) (g : GraphicsContextRenderer)
  : result GraphicsContextRenderer :=
  update_additional_state
    (set_snap_field (match snap with Some b => b | None => true end)) g.

(** A call on the graphics context: a setter, [new_gc] or [restore]. *)
Inductive gc_call : Type :=
| call_set_alpha (alpha : option double)
| call_set_antialiased (aa : antialias_variant)
| call_set_clip_rectangle (rectangle : option rectangle_t)
| call_set_foreground (fg : rgba_t)
| call_set_hatch (hatch : option string)
| call_set_hatch_color (hatch_color : rgba_t)
| call_set_snap (snap : option bool)
| call_new_gc
| call_restore.

Definition run_call (c : gc_call) (g : GraphicsContextRenderer)
  : result GraphicsContextRenderer :=
  match c with
  | call_set_alpha a => set_alpha a g
  | call_set_antialiased aa => set_antialiased aa g
  | call_set_clip_rectangle r => set_clip_rectangle r g
  | call_set_foreground fg => set_foreground fg g
  | call_set_hatch h => set_hatch h g
  | call_set_hatch_color c => set_hatch_color c g
  | call_set_snap s => set_snap s g
  | call_new_gc => new_gc g
  | call_restore => restore g
  end.

Fixpoint run_calls (calls : list gc_call) (g : GraphicsContextRenderer)
  : result GraphicsContextRenderer :=
  match calls with
  | [] => Ok g
  | c :: rest => g' <- run_call c g ;; run_calls rest g'
  end.

(** The depth of [new_gc]s open after the calls, started at depth [d];
    [None] when a [restore] comes without a [new_gc] of the calls to
    close. *)
Fixpoint depth_after (d : nat) (calls : list gc_call) : option nat :=
  match calls with
  | [] => Some d
  | call_new_gc :: rest => depth_after (S d) rest
  | call_restore :: rest =>
      match d with
      | O => None
      | S d' => depth_after d' rest
      end
  | _ :: rest => depth_after d rest
  end.

(** What no call on the graphics context changes. *)
Definition same_frame (g g' : GraphicsContextRenderer) : Prop :=
  self g' = self g /\ width_ g' = width_ g /\ height_ g' = height_ g
  /\ dpi_ g' = dpi_ g /\ target (cr_ g') = target (cr_ g)
  /\ status (cr_ g') = status (cr_ g)
  /\ current_path (cr_ g') = current_path (cr_ g).

(** ** Markers, path data and images: what the properties speak of *)

(** The positions the direct loop skips: those that are not finite. *)
Definition skipped_point (p : point) : bool := negb (finite_point p).

(** A point handed to the surface lies in the box [-2^22, 2^22] x
    [-2^22, 2^22]. *)
Definition point_in_box (p : point) : Prop :=
  in_range qmin qmax (fst p) /\ in_range qmin qmax (snd p).

(** Every line segment of the calls, which are [cairo_move_to]s and
    [cairo_line_to]s, starts and ends in the box; [cur] is the current
    point before the calls. *)
Fixpoint lines_in_box (cur : option point) (l : list path_call) : Prop :=
  match l with
  | [] => True
  | cairo_move_to x y :: rest => lines_in_box (Some (x, y)) rest
  | cairo_line_to x y :: rest =>
      match cur with
      | Some p => point_in_box p
      | None => False
      end
      /\ point_in_box (x, y) /\ lines_in_box (Some (x, y)) rest
  | _ :: _ => False
  end.

(** The current point after calls that are [cairo_move_to]s and
    [cairo_line_to]s. *)
Fixpoint point_after (cur : option point) (l : list path_call) : option point :=
  match l with
  | [] => cur
  | cairo_move_to x y :: rest => point_after (Some (x, y)) rest
  | cairo_line_to x y :: rest => point_after (Some (x, y)) rest
  | _ :: rest => point_after cur rest
  end.

(** A record of the path data the codeless overload builds: a MOVE_TO or
    a LINE_TO header with its point. *)
Definition path_record : Type := (bool * qpoint)%type.

Definition encode_record (r : path_record) : list cairo_path_data_t :=
  [header (if fst r then CAIRO_PATH_LINE_TO else CAIRO_PATH_MOVE_TO) 2;
   pt (Fin (fst (snd r))) (Fin (snd (snd r)))].

Definition call_of_record (r : path_record) : path_call :=
  if fst r
  then cairo_line_to (Fin (fst (snd r))) (Fin (snd (snd r)))
  else cairo_move_to (Fin (fst (snd r))) (Fin (snd (snd r))).

(** The previous point of the main loop and the records so far: the
    previous point is finite, and when it lies in the box it is the point
    recorded last. *)
Definition prev_recorded (prev : option point) (recs : list path_record) : Prop :=
  match prev with
  | None => True
  | Some (Fin px, Fin py) =>
      in_box (px, py) ->
      point_after None (map call_of_record recs) = Some (dpoint (px, py))
  | Some _ => False
  end.

(** Two doubles of the embedding that stand for one value: the rationals
    are compared as fractions. *)
Definition same_double (x y : double) : Prop :=
  match x, y with
  | Fin a, Fin b => a == b
  | PInf, PInf | NInf, NInf | NaN, NaN => True
  | _, _ => False
  end.

Definition same_matrix (m m' : cairo_matrix_t) : Prop :=
  same_double (xx m) (xx m') /\ same_double (yx m) (yx m')
  /\ same_double (xy m) (xy m') /\ same_double (yy m) (yy m')
  /\ same_double (x0 m) (x0 m') /\ same_double (y0 m) (y0 m').

(** The device matrix of the vertical flip about the height [h],
    [cairo_matrix_t{1, 0, 0, -1, 0, h}]. *)
Definition flip_matrix (h : double) : cairo_matrix_t :=
  {| xx := Fin 1; yx := Fin 0; xy := Fin 0; yy := Fin (- (1)); x0 := Fin 0;
     y0 := h |}.

(** The two top rows of a transform's array are finite. *)
Definition finite_rows (a : array2) : bool :=
  isfinite (at2 a 0 0) && isfinite (at2 a 0 1) && isfinite (at2 a 0 2)
  && isfinite (at2 a 1 0) && isfinite (at2 a 1 1) && isfinite (at2 a 1 2).

(** ** [draw_image]: the conversion of the pixels *)

(** A [double] converted to [uint8_t]: truncation; undefined when the
    truncated value is not an [uint8_t]. *)
Definition to_uint8 (x : double) : result Z :=
  match x with
  | Fin q =>
      let t := if Qltb q 0 then Qceiling q else Qfloor q in
      if (0 <=? t)%Z && (t <=? 255)%Z then Ok t else Err Undefined
  | _ => Err Undefined
  end.

(** [uint8_t(a / 255. * c)] for two [uint8_t] values: the quotient and the
    product are rounded to binary64. *)
Definition premultiply (a c : Z) : result Z :=
  to_uint8 (rounded (rounded (of_Z a / Fin (255 # 1)) * of_Z c))%D.

(** The word of a pixel,
    [(uint8_t(a) << 24) | (uint8_t(a / 255. * r) << 16)
     | (uint8_t(a / 255. * g) << 8) | (uint8_t(a / 255. * b))],
    as the [uint32_t] it is stored as (the operands are [int]s, in two's
    complement). *)
Definition argb32 (r g b a : Z) : result Z :=
  pr <- premultiply a r ;;
  pg <- premultiply a g ;;
  pb <- premultiply a b ;;
  Ok (Z.lor (Z.lor (Z.lor (Z.shiftl a 24) (Z.shiftl pr 16)) (Z.shiftl pg 8)) pb).

(** The [uint8_t] values. *)
Definition uint8_values : list Z := map Z.of_nat (seq 0 256).

(** A channel at its largest value comes out as the alpha value. *)
Definition premultiply_full_channel (a : Z) : bool :=
  match premultiply a 255 with
  | Ok p => (p =? a)%Z
  | Err _ => false
  end.

(** What holds of [p], the value stored for the channel [c] at alpha [a]:
    it is the integer quotient [a * c / 255] or one less, and the quotient
    itself unless 255 divides [a * c]; it is above neither [a] nor [c];
    an opaque pixel keeps its channel, a full channel becomes the alpha. *)
Definition premultiplied (a c p : Z) : Prop :=
  (a * c / 255 - 1 <= p <= a * c / 255)%Z /\
  (0 <= p <= Z.min a c)%Z /\
  ((a * c) mod 255 <> 0 -> p = a * c / 255)%Z /\
  (a = 255%Z -> p = c) /\
  (c = 255%Z -> p = a).

(** ** [MathtextBackend]: the bounds of what is rendered *)

(** The bounds a [MathtextBackend] keeps.  Its recording context is drawn to
    by the same calls and is never read back by them; it is left out. *)
Record MathtextBackend : Type := {
  xmin_ : double; ymin_ : double; xmax_ : double; ymax_ : double
}.

(** The constructor value-initialises the four bounds. *)
Definition MathtextBackend_new : MathtextBackend :=
  {| xmin_ := Fin 0; ymin_ := Fin 0; xmax_ := Fin 0; ymax_ := Fin 0 |}.

(** The attributes of [info.metrics] that [render_glyph] reads. *)
Record glyph_metrics : Type := {
  metrics_xmin : double; metrics_ymin : double;
  metrics_xmax : double; metrics_ymax : double
}.

(** [render_glyph]: the bounds after the call; the sums and differences are
    rounded to binary64.  The font calls that can throw come after the four
    assignments. *)
Definition render_glyph (ox oy : double) (metrics : glyph_metrics)
    (this : MathtextBackend) : MathtextBackend :=
  {| xmin_ := dmin2 (xmin_ this) (rounded (ox + metrics_xmin metrics))%D;
     ymin_ := dmin2 (ymin_ this) (rounded (oy - metrics_ymin metrics))%D;
     xmax_ := dmax2 (xmax_ this) (rounded (ox + metrics_xmax metrics))%D;
     ymax_ := dmax2 (ymax_ this) (rounded (oy - metrics_ymax metrics))%D |}.

(** [render_rect_filled]. *)
Definition render_rect_filled (x1 y1 x2 y2 : double) (this : MathtextBackend)
  : MathtextBackend :=
  {| xmin_ := dmin2 (xmin_ this) x1;
     ymin_ := dmin2 (ymin_ this) y1;
     xmax_ := dmax2 (xmax_ this) x2;
     ymax_ := dmax2 (ymax_ this) y2 |}.

(** [cairo_rectangle_t]. *)
Record cairo_rectangle_t : Type := {
  rectangle_x : double; rectangle_y : double;
  rectangle_width : double; rectangle_height : double
}.

(** The rectangle [get_results] attaches to the surface,
    [{xmin_, ymin_, xmax_ - xmin_, ymax_ - ymin_}]. *)
Definition get_results (this : MathtextBackend) : cairo_rectangle_t :=
  {| rectangle_x := xmin_ this;
     rectangle_y := ymin_ this;
     rectangle_width := rounded (xmax_ this - xmin_ this)%D;
     rectangle_height := rounded (ymax_ this - ymin_ this)%D |}.

(** A call on the backend. *)
Inductive mathtext_call : Type :=
| call_render_glyph (ox oy : double) (metrics : glyph_metrics)
| call_render_rect_filled (x1 y1 x2 y2 : double).

Definition run_mathtext_call (this : MathtextBackend) (c : mathtext_call)
  : MathtextBackend :=
  match c with
  | call_render_glyph ox oy metrics => render_glyph ox oy metrics this
  | call_render_rect_filled x1 y1 x2 y2 => render_rect_filled x1 y1 x2 y2 this
  end.

(** What [matplotlib.mathtext.ship] does to the backend in [get_results]: a
    sequence of such calls. *)
Definition run_mathtext_calls (calls : list mathtext_call)
    (this : MathtextBackend) : MathtextBackend :=
  fold_left run_mathtext_call calls this.

(** [a <= b] holds of two doubles (neither is NaN then). *)
Definition dle (a b : double) : Prop := (a <=? b)%D = true.

(** What the bounds of a backend hold of a call that was made on it. *)
Definition bounds_hold (this : MathtextBackend) (c : mathtext_call) : Prop :=
  match c with
  | call_render_glyph ox oy metrics =>
      let left := rounded (ox + metrics_xmin metrics)%D in
      let right := rounded (ox + metrics_xmax metrics)%D in
      let low := rounded (oy - metrics_ymin metrics)%D in
      let high := rounded (oy - metrics_ymax metrics)%D in
      (left <> NaN -> dle (xmin_ this) left)
      /\ (right <> NaN -> dle right (xmax_ this))
      /\ (low <> NaN -> dle (ymin_ this) low)
      /\ (high <> NaN -> dle high (ymax_ this))
  | call_render_rect_filled x1 y1 x2 y2 =>
      (x1 <> NaN -> dle (xmin_ this) x1)
      /\ (x2 <> NaN -> dle x2 (xmax_ this))
      /\ (y1 <> NaN -> dle (ymin_ this) y1)
      /\ (y2 <> NaN -> dle y2 (ymax_ this))
  end.

(** The bounds enclose the origin. *)
Definition encloses_origin (this : MathtextBackend) : Prop :=
  dle (xmin_ this) (Fin 0) /\ dle (Fin 0) (xmax_ this)
  /\ dle (ymin_ this) (Fin 0) /\ dle (Fin 0) (ymax_ this).

(** The bounds of [this'] enclose those of [this]. *)
Definition bounds_grow (this this' : MathtextBackend) : Prop :=
  dle (xmin_ this') (xmin_ this) /\ dle (xmax_ this) (xmax_ this')
  /\ dle (ymin_ this') (ymin_ this) /\ dle (ymax_ this) (ymax_ this').

(** ** Polylines: the two overloads of [load_path_exact] side by side *)

(** The codes of a polyline of [n] vertices: MOVETO, then LINETOs. *)
Definition polyline_codes (n : Z) : list Z :=
  match Z.to_nat n with
  | O => []
  | S k => 1%Z :: repeat 2%Z k
  end.

(** The vertex [i] after [cairo_matrix_transform_point]. *)
Definition device_point (vertices_ : array2) (matrix_ : cairo_matrix_t) (i : Z)
  : point :=
  cairo_matrix_transform_point matrix_ (at2 vertices_ i 0, at2 vertices_ i 1).

(** [cairo_line_to] for the [count] vertices from [i] on. *)
Fixpoint line_to_from (vertices_ : array2) (matrix_ : cairo_matrix_t)
    (count : nat) (i : Z) (p : path_state) : path_state :=
  match count with
  | O => p
  | S count' =>
      line_to_from vertices_ matrix_ count' (i + 1)%Z
        (do_line_to p (fst (device_point vertices_ matrix_ i))
                      (snd (device_point vertices_ matrix_ i)))
  end.

(** The path data of these calls. *)
Fixpoint line_data (vertices_ : array2) (matrix_ : cairo_matrix_t)
    (count : nat) (i : Z) : list cairo_path_data_t :=
  match count with
  | O => []
  | S count' =>
      header CAIRO_PATH_LINE_TO 2
      :: pt (fst (device_point vertices_ matrix_ i))
            (snd (device_point vertices_ matrix_ i))
      :: line_data vertices_ matrix_ count' (i + 1)%Z
  end.

(** ** [draw_path]: the chunks of a long codeless path *)

(** [for (auto i = decltype(n)(0); i < n; i += chunksize)]: the [start] and
    [stop] handed to the codeless overload of [load_path_exact] by each
    pass, [i] and [std::min(i + chunksize + 1, n)].  The path is stroked
    after each of them.  [n] is the length of an array in memory, so the
    sums stay far below the range of its type. *)
Fixpoint chunk_loop (fuel : nat) (n chunksize i : Z) : list (Z * Z) :=
  match fuel with
  | O => []
  | S fuel' =>
      if (i <? n)%Z
      then (i, Z.min (i + chunksize + 1) n)
           :: chunk_loop fuel' n chunksize (i + chunksize)%Z
      else []
  end.

(** With a positive [chunksize] every pass advances [i], so [n] units of
    fuel reach the exit test. *)
Definition draw_path_chunks (n chunksize : Z) : list (Z * Z) :=
  chunk_loop (Z.to_nat n) n chunksize 0.

(** The segment from vertex [j] to vertex [j + 1] is within a chunk. *)
Definition segment_in_chunk (j : Z) (chunk : Z * Z) : Prop :=
  (fst chunk <= j)%Z /\ (j + 1 < snd chunk)%Z.

(** ** More sample values *)

Module SampleX.

(** Three marker positions, the second of them not a number. *)
Definition holey_points : path_t :=
  {| vertices := {| shape0 := 3; shape1 := 2;
                    elements := [Fin 0; Fin 0; NaN; Fin 1; Fin 2; Fin 2] |};
     codes := None |}.

Definition pdf_renderer : GraphicsContextRenderer :=
  Sample.renderer (Sample.surface_of CAIRO_SURFACE_TYPE_PDF) (Fin 1).

(** A glyph at (10, 10) and a filled rectangle one corner of which is not
    a number. *)
Definition mathtext_calls : list mathtext_call :=
  [call_render_glyph (Fin 10) (Fin 10)
     {| metrics_xmin := Fin 1; metrics_ymin := Fin (-2);
        metrics_xmax := Fin 6; metrics_ymax := Fin 8 |};
   call_render_rect_filled (Fin (-3)) NaN (Fin 4) (Fin 5)].

End SampleX.

(** * Properties *)

(** ** Results *)

Lemma bind_Ok {A B : Type} (a : A) (k : A -> result B) : bind (Ok a) k = k a.
Proof. reflexivity. Qed.

Lemma bind_Err {A B : Type} (e : error) (k : A -> result B) :
  bind (Err e) k = Err e.
Proof. reflexivity. Qed.

Lemma bind_ok_inv {A B : Type} (r : result A) (k : A -> result B) (b : B) :
  bind r k = Ok b -> exists a, r = Ok a /\ k a = Ok b.
Proof.
  destruct r as [a | e]; [| discriminate].
  intros H; exists a; split; [reflexivity | exact H].
Qed.

(** Split a hypothesis [bind r k = Ok b] into [r = Ok a] and [k a = Ok b]. *)
Ltac bind_inv H a Ha :=
  apply bind_ok_inv in H; destruct H as (a & Ha & H).

(** ** Facts about rationals and doubles *)

Lemma Qltb_lt (a b : Q) : Qltb a b = true <-> a < b.
Proof.
  unfold Qltb. rewrite negb_true_iff.
  destruct (Qle_bool b a) eqn:E.
  - apply Qle_bool_iff in E. split; [discriminate | intros H; lra].
  - split; [intros _ | reflexivity].
    destruct (Qlt_le_dec a b) as [H | H]; [exact H |].
    apply Qle_bool_iff in H. congruence.
Qed.

Lemma Qltb_ge (a b : Q) : Qltb a b = false <-> b <= a.
Proof.
  unfold Qltb. rewrite negb_false_iff. apply Qle_bool_iff.
Qed.

Lemma Qfloor_plus_half (n : Z) : Qfloor (inject_Z n + (1 # 2)) = n.
Proof.
  unfold Qfloor, Qplus, inject_Z; simpl.
  symmetry; apply Z.div_unique with (r := 1%Z); lia.
Qed.

Lemma Qceiling_minus_half (n : Z) : Qceiling (inject_Z n - (1 # 2)) = n.
Proof.
  unfold Qceiling, Qfloor, Qminus, Qplus, Qopp, inject_Z; simpl.
  assert (H : ((- (n * 2 + -1)) / 2 = - n)%Z).
  { symmetry; apply Z.div_unique with (r := 1%Z); lia. }
  rewrite H; lia.
Qed.

Lemma Qround_away_inject_Z (n : Z) : Qround_away (inject_Z n) = n.
Proof.
  unfold Qround_away.
  destruct (Qltb (inject_Z n) 0).
  - apply Qceiling_minus_half.
  - apply Qfloor_plus_half.
Qed.


(** ** Powers of two *)

Lemma two_power_pos (e : Z) : 0 < two_power e.
Proof. apply Qpower_0_lt. reflexivity. Qed.

Lemma two_power_add (a b : Z) : two_power (a + b) == two_power a * two_power b.
Proof. apply Qpower_plus. discriminate. Qed.

Lemma two_power_sub (a b : Z) : two_power (a - b) == two_power a / two_power b.
Proof. apply Qpower_minus. discriminate. Qed.

Lemma two_power_nonneg (e : Z) : (0 <= e)%Z -> two_power e == inject_Z (2 ^ e).
Proof. intros H. unfold two_power. now rewrite (Zpower_Qpower 2 e H). Qed.

Lemma two_power_lt (a b : Z) : (a < b)%Z -> two_power a < two_power b.
Proof. intros H. apply Qpower_lt_compat_l; [exact H | reflexivity]. Qed.

Lemma two_power_le (a b : Z) : (a <= b)%Z -> two_power a <= two_power b.
Proof. intros H. apply Qpower_le_compat_l; [exact H | discriminate]. Qed.

Lemma two_power_lt_inv (a b : Z) : two_power a < two_power b -> (a < b)%Z.
Proof. intros H. apply (Qpower_lt_compat_l_inv (2 # 1)); [exact H | reflexivity]. Qed.

Lemma two_power_succ (e : Z) : two_power (e + 1) == 2 * two_power e.
Proof. rewrite two_power_add. change (two_power 1) with (2 # 1). ring. Qed.

(** ** The binary exponent *)

Lemma Qabs_Qmake (q : Q) :
  Qabs q * inject_Z (Zpos (Qden q)) == inject_Z (Z.abs (Qnum q)).
Proof.
  destruct q as [n d]; simpl.
  unfold Qeq, Qmult, inject_Z; simpl. lia.
Qed.

Lemma Qnum_nonzero (q : Q) : ~ q == 0 -> (0 < Z.abs (Qnum q))%Z.
Proof.
  destruct q as [n d]; unfold Qeq; simpl. lia.
Qed.

Lemma Qlog2_spec (q : Q) :
  ~ q == 0 -> two_power (Qlog2 q) <= Qabs q < two_power (Qlog2 q + 1).
Proof.
  intros Hq.
  pose proof (Qnum_nonzero Hq) as HN.
  pose proof (Qabs_Qmake q) as Hx.
  destruct (Z.log2_spec _ HN) as [Ha1 Ha2].
  destruct (Z.log2_spec (Zpos (Qden q)) eq_refl) as [Hb1 Hb2].
  pose proof (Z.log2_nonneg (Z.abs (Qnum q))) as Ha0.
  pose proof (Z.log2_nonneg (Zpos (Qden q))) as Hb0.
  unfold Qlog2.
  set (a := Z.log2 (Z.abs (Qnum q))) in *.
  set (b := Z.log2 (Zpos (Qden q))) in *.
  assert (HT : two_power (a - b) * two_power b == two_power a).
  { rewrite <- two_power_add. now replace (a - b + b)%Z with a by lia. }
  pose proof (two_power_pos (a - b)) as HT0.
  pose proof (two_power_pos b) as HB0.
  assert (HA : two_power a <= inject_Z (Z.abs (Qnum q)) < 2 * two_power a).
  { split.
    - rewrite (two_power_nonneg Ha0). now rewrite <- Zle_Qle.
    - rewrite <- two_power_succ, (two_power_nonneg (e := a + 1)) by lia.
      rewrite <- Zlt_Qlt. exact Ha2. }
  assert (HB : two_power b <= inject_Z (Zpos (Qden q)) < 2 * two_power b).
  { split.
    - rewrite (two_power_nonneg Hb0). now rewrite <- Zle_Qle.
    - rewrite <- two_power_succ, (two_power_nonneg (e := b + 1)) by lia.
      rewrite <- Zlt_Qlt. exact Hb2. }
  pose proof (Qabs_nonneg q) as Hx0.
  revert Hx HT HT0 HB0 HA HB Hx0.
  generalize (two_power a) (two_power b) (inject_Z (Z.abs (Qnum q)))
             (inject_Z (Zpos (Qden q))) (Qabs q).
  intros A B N D x Hx HT HA HB.
  destruct (Qle_bool (two_power (a - b)) x) eqn:E.
  - apply Qle_bool_iff in E. split; [exact E |].
    rewrite two_power_succ.
    revert E HT HA HB. generalize (two_power (a - b)). intros T. intros. nra.
  - assert (E' : x < two_power (a - b)).
    { apply Qnot_le_lt. intros H. apply Qle_bool_iff in H. congruence. }
    replace (a - b - 1 + 1)%Z with (a - b)%Z by lia.
    split; [| exact E'].
    assert (HT' : 2 * two_power (a - b - 1) == two_power (a - b)).
    { rewrite <- two_power_succ. now replace (a - b - 1 + 1)%Z with (a - b)%Z by lia. }
    revert E' HT HA HB HT'. generalize (two_power (a - b)) (two_power (a - b - 1)). intros T T'. intros. nra.
Qed.

Lemma Qlog2_unique (q : Q) (k : Z) :
  two_power k <= Qabs q < two_power (k + 1) -> Qlog2 q = k.
Proof.
  intros [H1 H2].
  assert (Hq : ~ q == 0).
  { intros E. rewrite E in H1. pose proof (two_power_pos k) as H0.
    change (Qabs 0) with 0 in H1. lra. }
  destruct (Qlog2_spec Hq) as [L1 L2].
  assert (A : (k < Qlog2 q + 1)%Z) by (apply two_power_lt_inv; lra).
  assert (B : (Qlog2 q < k + 1)%Z) by (apply two_power_lt_inv; lra).
  lia.
Qed.

(** ** Rounding to an integer *)

Lemma inject_Z_pred (z : Z) : inject_Z (z - 1) == inject_Z z - 1.
Proof. unfold Qeq; simpl; lia. Qed.

Lemma inject_Z_succ (z : Z) : inject_Z (z + 1) == inject_Z z + 1.
Proof. unfold Qeq; simpl; lia. Qed.

Lemma Qfloor_unique (q : Q) (z : Z) :
  inject_Z z <= q < inject_Z z + 1 -> Qfloor q = z.
Proof.
  intros [H1 H2].
  pose proof (Qfloor_le q) as F1. pose proof (Qlt_floor q) as F2.
  rewrite inject_Z_succ in F2.
  assert (A : (z < Qfloor q + 1)%Z) by (rewrite Zlt_Qlt, inject_Z_succ; lra).
  assert (B : (Qfloor q < z + 1)%Z) by (rewrite Zlt_Qlt, inject_Z_succ; lra).
  lia.
Qed.

Lemma round_half_even_comp (q q' : Q) :
  q == q' -> round_half_even q = round_half_even q'.
Proof.
  intros E. unfold round_half_even.
  rewrite (Qfloor_comp _ _ E).
  assert (E' : q - inject_Z (Qfloor q') == q' - inject_Z (Qfloor q'))
    by (rewrite E; reflexivity).
  now rewrite (Qcompare_comp _ _ E' _ _ (Qeq_refl (1 # 2))).
Qed.

(** A rational nearer than one half to an integer rounds to it. *)
Lemma round_half_even_near (q : Q) (z : Z) :
  - (1 # 2) < q - inject_Z z < 1 # 2 -> round_half_even q = z.
Proof.
  intros [H1 H2]. unfold round_half_even.
  destruct (Qlt_le_dec q (inject_Z z)) as [Hlt | Hge].
  - assert (F : Qfloor q = (z - 1)%Z).
    { apply Qfloor_unique. rewrite inject_Z_pred. lra. }
    rewrite F.
    assert (G : q - inject_Z (z - 1) > 1 # 2) by (rewrite inject_Z_pred; lra).
    destruct (Qcompare_spec (q - inject_Z (z - 1)) (1 # 2)) as [C | C | C];
      [lra | lra | lia].
  - assert (F : Qfloor q = z) by (apply Qfloor_unique; lra).
    rewrite F.
    destruct (Qcompare_spec (q - inject_Z z) (1 # 2)) as [C | C | C];
      [lra | reflexivity | lra].
Qed.

Lemma round_half_even_Z (q : Q) (z : Z) : q == inject_Z z -> round_half_even q = z.
Proof. intros E. apply round_half_even_near. rewrite E. lra. Qed.

(** Halfway between two integers, the even one is taken. *)
Lemma round_half_even_tie (q : Q) (z : Z) :
  q == inject_Z z + (1 # 2) ->
  round_half_even q = if Z.even z then z else (z + 1)%Z.
Proof.
  intros E. unfold round_half_even.
  assert (F : Qfloor q = z) by (apply Qfloor_unique; lra).
  rewrite F.
  destruct (Qcompare_spec (q - inject_Z z) (1 # 2)) as [C | C | C];
    [reflexivity | lra | lra].
Qed.

(** ** Rounding to binary64 *)

Lemma round_binary64_eq (q : Q) (k m : Z) :
  two_power k <= Qabs q < two_power (k + 1) ->
  round_half_even (q / two_power (Z.max (-1074) (k - 52))) = m ->
  Qabs (inject_Z m * two_power (Z.max (-1074) (k - 52))) < two_power 1024 ->
  round_binary64 q = Fin (Qred (inject_Z m * two_power (Z.max (-1074) (k - 52)))).
Proof.
  intros Hk Hm Hov.
  assert (Hq : Qeq_bool q 0 = false).
  { destruct (Qeq_bool q 0) eqn:E; [| reflexivity].
    apply Qeq_bool_iff in E. rewrite E in Hk. change (Qabs 0) with 0 in Hk.
    pose proof (two_power_pos k). lra. }
  unfold round_binary64, ulp_exponent. rewrite Hq.
  rewrite (@Qlog2_unique q k Hk). cbv zeta. rewrite Hm.
  destruct (Qle_bool (two_power 1024) _) eqn:E; [| reflexivity].
  apply Qle_bool_iff in E. lra.
Qed.

(** A rational with a significand of at most 53 bits at an exponent of the
    format is a binary64 value: rounding returns it. *)
Lemma round_binary64_exact (q : Q) (M E : Z) :
  q == inject_Z M * two_power E ->
  (-1074 <= E)%Z ->
  Qabs q < two_power (E + 53) ->
  Qabs q < two_power 1024 ->
  round_binary64 q = Fin (Qred q).
Proof.
  intros Hq HE Hb Hov.
  destruct (Qeq_bool q 0) eqn:E0.
  - unfold round_binary64. rewrite E0. apply Qeq_bool_iff in E0.
    f_equal. now rewrite (Qred_complete _ _ E0).
  - assert (Hne : ~ q == 0).
    { intros H. apply Qeq_bool_iff in H. congruence. }
    destruct (Qlog2_spec Hne) as [L1 L2].
    set (e := Z.max (-1074) (Qlog2 q - 52)).
    assert (He : (e <= E)%Z).
    { assert (Qlog2 q < E + 53)%Z by (apply two_power_lt_inv; lra). lia. }
    assert (Hz : q / two_power e == inject_Z (M * 2 ^ (E - e))).
    { rewrite inject_Z_mult, <- two_power_nonneg by lia.
      rewrite two_power_sub, Hq. field.
      pose proof (two_power_pos e). lra. }
    assert (Hr : inject_Z (M * 2 ^ (E - e)) * two_power e == q).
    { rewrite <- Hz. field. pose proof (two_power_pos e). lra. }
    rewrite (@round_binary64_eq q (Qlog2 q) (M * 2 ^ (E - e))).
    + fold e. f_equal. now apply Qred_complete.
    + split; assumption.
    + fold e. now apply round_half_even_Z.
    + fold e. now rewrite Hr.
Qed.

(** ** The half-integer snapper in binary64 *)

Lemma Qred_inject_Z (q : Q) (z : Z) : q == inject_Z z -> Qred q = inject_Z z.
Proof.
  intros E. rewrite (Qred_complete _ _ E).
  unfold Qred, inject_Z.
  pose proof (Z.ggcd_gcd z 1) as G.
  pose proof (Z.ggcd_correct_divisors z 1) as D.
  destruct (Z.ggcd z 1) as [g [aa bb]]; simpl in *.
  rewrite Z.gcd_1_r in G. subst g. destruct D as [D1 D2].
  rewrite Z.mul_1_l in D1, D2. subst aa bb. reflexivity.
Qed.

Lemma snap_half_Fin (q : Q) :
  snap_half (Fin q) = round_binary64 (inject_Z (Qfloor q) + (1 # 2)).
Proof. reflexivity. Qed.

Lemma snap_half_comp (q q' : Q) : q == q' -> snap_half (Fin q) = snap_half (Fin q').
Proof. intros E. rewrite !snap_half_Fin. now rewrite (Qfloor_comp _ _ E). Qed.

(** From -2^52 up to 2^52 the sum [floor(x) + .5] is computed exactly. *)
Lemma snap_half_exact (q : Q) :
  - two_power 52 <= q < two_power 52 ->
  snap_half (Fin q) = Fin (Qred (inject_Z (Qfloor q) + (1 # 2))).
Proof.
  intros [H1 H2]. rewrite snap_half_Fin.
  pose proof (Qfloor_le q) as F1. pose proof (Qlt_floor q) as F2.
  rewrite inject_Z_succ in F2.
  assert (N1 : (- 2 ^ 52 <= Qfloor q)%Z).
  { apply Qfloor_resp_le in H1. rewrite <- H1.
    now rewrite <- (Qfloor_Z (- 2 ^ 52)). }
  assert (N2 : (Qfloor q < 2 ^ 52)%Z).
  { rewrite Zlt_Qlt. rewrite two_power_nonneg in H2 by lia. lra. }
  assert (N3 : (Qfloor q <= 2 ^ 52 - 1)%Z) by lia.
  rewrite Zle_Qle in N1. rewrite Zle_Qle, inject_Z_pred in N3.
  apply (@round_binary64_exact _ (2 * Qfloor q + 1) (-1)).
  - rewrite inject_Z_plus, inject_Z_mult. change (two_power (-1)) with (1 # 2).
    change (inject_Z 2) with 2. change (inject_Z 1) with 1. lra.
  - lia.
  - change (two_power (-1 + 53)) with (inject_Z (2 ^ 52)).
    apply Qabs_Qlt_condition.
    change (inject_Z (- 2 ^ 52)) with (- inject_Z (2 ^ 52)) in N1. lra.
  - apply Qlt_trans with (inject_Z (2 ^ 52)).
    + apply Qabs_Qlt_condition.
      change (inject_Z (- 2 ^ 52)) with (- inject_Z (2 ^ 52)) in N1. lra.
    + rewrite <- (two_power_nonneg (e := 52)) by lia. now apply two_power_lt.
Qed.

Lemma snap_half_exact_idempotent (q : Q) :
  - two_power 52 <= q < two_power 52 ->
  snap_half (snap_half (Fin q)) = snap_half (Fin q).
Proof.
  intros H. rewrite (snap_half_exact H).
  rewrite snap_half_Fin.
  rewrite (Qfloor_comp _ _ (Qred_correct _)), Qfloor_plus_half.
  rewrite <- snap_half_Fin. now apply snap_half_exact.
Qed.

(** Beyond that range a binary64 value is an integer: a significand of 53
    bits at an exponent that is not negative. *)
Lemma binary64_large (q : Q) :
  is_binary64 (Fin q) = true ->
  two_power 52 <= Qabs q ->
  exists M e : Z,
    (0 <= e <= 971)%Z /\ (2 ^ 52 <= Z.abs M < 2 ^ 53)%Z
    /\ q == inject_Z (M * 2 ^ e).
Proof.
  intros Hb Hq.
  assert (Hne : ~ q == 0).
  { intros E. rewrite E in Hq. change (Qabs 0) with 0 in Hq.
    pose proof (two_power_pos 52). lra. }
  destruct (Qlog2_spec Hne) as [L1 L2].
  assert (HL : (52 <= Qlog2 q)%Z).
  { assert (52 < Qlog2 q + 1)%Z by (apply two_power_lt_inv; lra). lia. }
  unfold is_binary64, round_binary64, ulp_exponent in Hb.
  assert (E0 : Qeq_bool q 0 = false).
  { destruct (Qeq_bool q 0) eqn:E; [| reflexivity].
    apply Qeq_bool_iff in E. contradiction. }
  rewrite E0 in Hb.
  replace (Z.max (-1074) (Qlog2 q - 52)) with (Qlog2 q - 52)%Z in Hb by lia.
  set (e := (Qlog2 q - 52)%Z) in *.
  set (M := round_half_even (q / two_power e)) in *.
  cbv zeta in Hb.
  destruct (Qle_bool (two_power 1024) (Qabs (inject_Z M * two_power e))) eqn:Eov.
  { destruct (Qltb q 0); discriminate. }
  change (Qeq_bool (Qred (inject_Z M * two_power e)) q = true) in Hb.
  apply Qeq_bool_iff in Hb. rewrite Qred_correct in Hb.
  assert (Hov : Qabs q < two_power 1024).
  { rewrite <- Hb. apply Qnot_le_lt. intros H.
    apply Qle_bool_iff in H. congruence. }
  assert (He : (e <= 971)%Z).
  { assert (Qlog2 q < 1024)%Z by (apply two_power_lt_inv; lra). lia. }
  pose proof (two_power_pos e) as HP.
  assert (HA : Qabs q == inject_Z (Z.abs M) * two_power e).
  { rewrite <- Hb, Qabs_Qmult, (Qabs_pos (two_power e)) by lra. reflexivity. }
  assert (H52 : two_power (Qlog2 q) == inject_Z (2 ^ 52) * two_power e).
  { rewrite <- (two_power_nonneg (e := 52)), <- two_power_add by lia.
    now replace (52 + e)%Z with (Qlog2 q) by lia. }
  assert (H53 : two_power (Qlog2 q + 1) == inject_Z (2 ^ 53) * two_power e).
  { rewrite <- (two_power_nonneg (e := 53)), <- two_power_add by lia.
    now replace (53 + e)%Z with (Qlog2 q + 1)%Z by lia. }
  exists M, e. split; [lia |]. split.
  - rewrite HA, H52 in L1. rewrite HA, H53 in L2.
    split.
    + rewrite Zle_Qle. apply Qmult_le_r with (z := two_power e); assumption.
    + rewrite Zlt_Qlt. apply Qmult_lt_r with (z := two_power e); assumption.
  - rewrite <- Hb, inject_Z_mult, <- two_power_nonneg by lia. reflexivity.
Qed.

(** An integer bound, as a bound between rationals. *)
Ltac Zupper M c H :=
  let v := eval vm_compute in c in
  assert (H : inject_Z M <= v # 1)
    by (change (v # 1) with (inject_Z c); rewrite <- Zle_Qle; lia).

Ltac Zlower M c H :=
  let v := eval vm_compute in c in
  assert (H : v # 1 <= inject_Z M)
    by (change (v # 1) with (inject_Z c); rewrite <- Zle_Qle; lia).

Lemma snap_half_of_Z (n : Z) :
  snap_half (of_Z n) = round_binary64 (inject_Z n + (1 # 2)).
Proof. unfold of_Z. now rewrite snap_half_Fin, Qfloor_Z. Qed.

(** Between 2^52 and 2^53 in magnitude the sum [floor(x) + .5] is halfway
    between two binary64 values, and is rounded to the even one. *)
Lemma snap_half_tie (M : Z) :
  (2 ^ 52 <= M < 2 ^ 53)%Z \/ (- 2 ^ 53 < M < - 2 ^ 52)%Z ->
  snap_half (of_Z M) = of_Z (if Z.even M then M else (M + 1)%Z).
Proof.
  intros HM. rewrite snap_half_of_Z.
  set (m := if Z.even M then M else (M + 1)%Z).
  assert (Hm : (M <= m <= M + 1)%Z) by (unfold m; destruct (Z.even M); lia).
  assert (B52 : two_power 52 == 4503599627370496) by reflexivity.
  assert (B53 : two_power (52 + 1) == 9007199254740992) by reflexivity.
  rewrite (@round_binary64_eq _ 52 m).
  - change (Z.max (-1074) (52 - 52)) with 0%Z. change (two_power 0) with 1.
    unfold of_Z. f_equal. apply Qred_inject_Z. ring.
  - rewrite B52, B53.
    destruct HM as [[A1 A2] | [A1 A2]].
    + Zlower M (2 ^ 52)%Z Q1. Zupper M (2 ^ 53 - 1)%Z Q2.
      assert (EA : Qabs (inject_Z M + (1 # 2)) == inject_Z M + (1 # 2))
        by (apply Qabs_pos; lra).
      rewrite EA. lra.
    + Zlower M (- 2 ^ 53 + 1)%Z Q1. Zupper M (- 2 ^ 52 - 1)%Z Q2.
      assert (EA : Qabs (inject_Z M + (1 # 2)) == - (inject_Z M + (1 # 2)))
        by (apply Qabs_neg; lra).
      rewrite EA. lra.
  - change (Z.max (-1074) (52 - 52)) with 0%Z. change (two_power 0) with 1.
    apply round_half_even_tie. field.
  - change (Z.max (-1074) (52 - 52)) with 0%Z. change (two_power 0) with 1.
    apply Qlt_trans with (two_power 54); [| now apply two_power_lt].
    Zlower m (- 2 ^ 53)%Z Q1. Zupper m (2 ^ 53)%Z Q2.
    assert (B54 : two_power 54 == 18014398509481984) by reflexivity.
    rewrite B54. apply Qabs_Qlt_condition. lra.
Qed.

Lemma two_power_scale (c e : Z) :
  (0 <= c)%Z -> two_power (c + e) == inject_Z (2 ^ c) * two_power e.
Proof. intros H. now rewrite two_power_add, (two_power_nonneg H). Qed.

Lemma two_power_ge_2 (e : Z) : (1 <= e)%Z -> 2 <= two_power e.
Proof. intros H. change 2 with (two_power 1). now apply two_power_le. Qed.

(** The inverse of a rational that is at least 2 lies in (0, 1/2]. *)
Lemma Qinv_small (p : Q) : 2 <= p -> 0 < / p <= 1 # 2.
Proof.
  intros H.
  assert (H0 : 0 < / p) by (apply Qinv_lt_0_compat; lra).
  assert (H1 : / p * p == 1) by (field; lra).
  split; [exact H0 | nra].
Qed.

(** From 2^53 on in magnitude the sum [floor(x) + .5] is rounded back to
    the integer [floor(x)]. *)
Lemma snap_half_coarse (M e : Z) :
  (1 <= e <= 971)%Z -> (2 ^ 52 <= Z.abs M < 2 ^ 53)%Z ->
  snap_half (of_Z (M * 2 ^ e)) = of_Z (M * 2 ^ e).
Proof.
  intros He HM. rewrite snap_half_of_Z.
  pose proof (two_power_ge_2 (proj1 He)) as HP.
  assert (EP : inject_Z (2 ^ e) == two_power e)
    by (symmetry; apply two_power_nonneg; lia).
  assert (Eq1 : inject_Z (M * 2 ^ e) + (1 # 2)
                == inject_Z M * two_power e + (1 # 2))
    by (now rewrite inject_Z_mult, EP).
  destruct (Z.eq_dec M (- 2 ^ 52)) as [HM' | HM'].
  - (* the negative power of two: the sum lies one binade lower *)
    subst M.
    assert (EP' : two_power e == 2 * two_power (e - 1)).
    { rewrite <- two_power_succ. now replace (e - 1 + 1)%Z with e by lia. }
    pose proof (two_power_pos (e - 1)) as HP'.
    assert (HP1 : 1 <= two_power (e - 1)).
    { change 1 with (two_power 0). apply two_power_le. lia. }
    change (inject_Z (- 2 ^ 52)) with (- (4503599627370496)) in Eq1.
    rewrite (@round_binary64_eq _ (51 + e) (- 2 ^ 53)).
    + replace (Z.max (-1074) (51 + e - 52)) with (e - 1)%Z by lia.
      unfold of_Z. f_equal. apply Qred_inject_Z.
      rewrite inject_Z_mult, EP, EP'.
      change (inject_Z (- 2 ^ 53)) with (- (9007199254740992)).
      change (inject_Z (- 2 ^ 52)) with (- (4503599627370496)). ring.
    + rewrite Eq1.
      replace (51 + e + 1)%Z with (52 + e)%Z by lia.
      rewrite !two_power_scale by lia.
      change (inject_Z (2 ^ 51)) with 2251799813685248.
      change (inject_Z (2 ^ 52)) with 4503599627370496.
      assert (EA : Qabs (- (4503599627370496) * two_power e + (1 # 2))
                   == 4503599627370496 * two_power e - (1 # 2)).
      { rewrite Qabs_neg by nra. ring. }
      rewrite EA. nra.
    + replace (Z.max (-1074) (51 + e - 52)) with (e - 1)%Z by lia.
      assert (Ed : (inject_Z (- 2 ^ 52 * 2 ^ e) + (1 # 2)) / two_power (e - 1)
                   == inject_Z (- 2 ^ 53) + (1 # 2) / two_power (e - 1)).
      { rewrite Eq1, EP'.
        change (inject_Z (- 2 ^ 53)) with (- (9007199254740992)).
        field. lra. }
      destruct (Z.eq_dec e 1) as [E1 | E1].
      * subst e. change (two_power (1 - 1)) with 1 in *.
        rewrite (@round_half_even_tie _ (- 2 ^ 53)); [reflexivity |].
        rewrite Ed. field.
      * apply round_half_even_near. rewrite Ed.
        assert (HP2 : 2 <= two_power (e - 1)) by (apply two_power_ge_2; lia).
        destruct (Qinv_small HP2) as [I1 I2].
        unfold Qdiv. lra.
    + replace (Z.max (-1074) (51 + e - 52)) with (e - 1)%Z by lia.
      apply Qlt_le_trans with (two_power (54 + (e - 1))).
      * rewrite two_power_scale by lia.
        change (inject_Z (2 ^ 54)) with 18014398509481984.
        change (inject_Z (- 2 ^ 53)) with (- (9007199254740992)).
        apply Qabs_Qlt_condition. nra.
      * apply two_power_le. lia.
  - (* the other significands: the sum stays in the binade of the integer *)
    rewrite (@round_binary64_eq _ (52 + e) M).
    + replace (Z.max (-1074) (52 + e - 52)) with e by lia.
      unfold of_Z. f_equal. apply Qred_inject_Z.
      now rewrite inject_Z_mult, EP.
    + rewrite Eq1.
      replace (52 + e + 1)%Z with (53 + e)%Z by lia.
      rewrite !two_power_scale by lia.
      change (inject_Z (2 ^ 52)) with 4503599627370496.
      change (inject_Z (2 ^ 53)) with 9007199254740992.
      destruct (Z_lt_le_dec M 0) as [Hneg | Hpos].
      * Zlower M (- 2 ^ 53 + 1)%Z Q1. Zupper M (- 2 ^ 52 - 1)%Z Q2.
        assert (EA : Qabs (inject_Z M * two_power e + (1 # 2))
                     == - (inject_Z M * two_power e + (1 # 2))).
        { apply Qabs_neg. nra. }
        rewrite EA. nra.
      * Zlower M (2 ^ 52)%Z Q1. Zupper M (2 ^ 53 - 1)%Z Q2.
        assert (EA : Qabs (inject_Z M * two_power e + (1 # 2))
                     == inject_Z M * two_power e + (1 # 2)).
        { apply Qabs_pos. nra. }
        rewrite EA. nra.
    + replace (Z.max (-1074) (52 + e - 52)) with e by lia.
      apply round_half_even_near.
      assert (Ed : (inject_Z (M * 2 ^ e) + (1 # 2)) / two_power e - inject_Z M
                   == (1 # 2) * / two_power e).
      { rewrite Eq1. field. lra. }
      rewrite Ed. destruct (Qinv_small HP) as [I1 I2]. lra.
    + replace (Z.max (-1074) (52 + e - 52)) with e by lia.
      apply Qlt_le_trans with (two_power (53 + e)).
      * rewrite two_power_scale by lia.
        change (inject_Z (2 ^ 53)) with 9007199254740992.
        Zlower M (- 2 ^ 53 + 1)%Z Q1. Zupper M (2 ^ 53 - 1)%Z Q2.
        apply Qabs_Qlt_condition. nra.
      * apply two_power_le. lia.
Qed.

Lemma snap_half_large_power : snap_half (of_Z (2 ^ 53)) = of_Z (2 ^ 53).
Proof. exact (@snap_half_coarse (2 ^ 52) 1 ltac:(lia) ltac:(lia)). Qed.

(** The half-integer snapper is idempotent on every binary64 value but
    -(2^52 + 1), which it sends to -2^52 and then to -2^52 + 1/2. *)
Lemma snap_half_idempotent (x : double) :
  is_binary64 x = true ->
  (x =? of_Z (- 2 ^ 52 - 1))%D = false ->
  snap_half (snap_half x) = snap_half x.
Proof.
  intros Hb Hx.
  destruct x as [q | | |]; try reflexivity.
  assert (B52 : two_power 52 == 4503599627370496) by reflexivity.
  destruct (Qlt_le_dec q (- two_power 52)) as [Hlo | Hlo];
    [| destruct (Qlt_le_dec q (two_power 52)) as [Hhi | Hhi]].
  2: { apply snap_half_exact_idempotent. split; assumption. }
  - (* below -2^52 *)
    assert (Hq : two_power 52 <= Qabs q).
    { assert (EA : Qabs q == - q) by (apply Qabs_neg; lra). rewrite EA. lra. }
    destruct (@binary64_large q Hb Hq) as (M & e & He & HM & Eq).
    assert (Hn : (M * 2 ^ e < - 2 ^ 52)%Z).
    { rewrite Zlt_Qlt, <- Eq. change (inject_Z (- 2 ^ 52)) with (- (4503599627370496)).
      lra. }
    rewrite (@snap_half_comp _ _ Eq). fold (of_Z (M * 2 ^ e)).
    destruct (Z.eq_dec e 0) as [E0 | E0].
    + subst e. rewrite Z.pow_0_r, Z.mul_1_r in *.
      assert (Hne : M <> (- 2 ^ 52 - 1)%Z).
      { intros ->. simpl in Hx. apply not_true_iff_false in Hx. apply Hx.
        apply Qeq_bool_iff. exact Eq. }
      rewrite (@snap_half_tie M) by lia.
      destruct (Z.even M) eqn:Ev.
      * rewrite (@snap_half_tie M) by lia. now rewrite Ev.
      * rewrite (@snap_half_tie (M + 1)) by lia.
        rewrite Z.even_add, Ev. reflexivity.
    + rewrite !(@snap_half_coarse M e) by lia. reflexivity.
  - (* from 2^52 on *)
    assert (Hq : two_power 52 <= Qabs q).
    { assert (EA : Qabs q == q) by (apply Qabs_pos; lra). rewrite EA. lra. }
    destruct (@binary64_large q Hb Hq) as (M & e & He & HM & Eq).
    assert (Hn : (2 ^ 52 <= M * 2 ^ e)%Z).
    { rewrite Zle_Qle, <- Eq. change (inject_Z (2 ^ 52)) with 4503599627370496.
      lra. }
    rewrite (@snap_half_comp _ _ Eq). fold (of_Z (M * 2 ^ e)).
    destruct (Z.eq_dec e 0) as [E0 | E0].
    + subst e. rewrite Z.pow_0_r, Z.mul_1_r in *.
      rewrite (@snap_half_tie M) by lia.
      destruct (Z.even M) eqn:Ev.
      * rewrite (@snap_half_tie M) by lia. now rewrite Ev.
      * destruct (Z.eq_dec (M + 1) (2 ^ 53)) as [E53 | E53].
        -- rewrite E53. apply snap_half_large_power.
        -- rewrite (@snap_half_tie (M + 1)) by lia.
           rewrite Z.even_add, Ev. reflexivity.
    + rewrite !(@snap_half_coarse M e) by lia. reflexivity.
Qed.
Lemma snap_round_idempotent (x : double) : snap_round (snap_round x) = snap_round x.
Proof.
  destruct x as [q | | |]; try reflexivity.
  unfold snap_round, round, of_Z.
  now rewrite Qround_away_inject_Z.
Qed.

(** ** Snap idempotence *)

(** C7, as the code has it.  Both snappers are idempotent on the
    binary64 values, the
    half-integer snapper with one exception: [round(round(x)) = round(x)]
    for every [x], and [floor(floor(x) + 0.5) + 0.5 = floor(x) + 0.5], the
    sums rounded to binary64, for every binary64 value [x] other than
    -(2^52 + 1); hence on these values the snapper either overload of
    [load_path_exact] selects for a line width is idempotent.  The snappers
    are those for sub-unit or odd-rounding line widths (half-integer) and
    for the other widths (integer). *)
Theorem snapper_idempotent :
  forall (snap : bool) (lw x : double),
    round (round x) = round x
    /\ (is_binary64 x = true ->
        (x =? of_Z (- 2 ^ 52 - 1))%D = false ->
        rounded (floor (rounded (floor x + Fin (1 # 2))) + Fin (1 # 2))%D
        = rounded (floor x + Fin (1 # 2))%D
        /\ snapper_general snap lw (snapper_general snap lw x)
           = snapper_general snap lw x
        /\ snapper_codeless lw (snapper_codeless lw x) = snapper_codeless lw x)
    /\ (snapper_codeless lw =
        if (lw <? Fin 1)%D || lround_is_odd lw then snap_half else snap_round)
    /\ (snapper_general true lw =
        if (Fin 0 <? lw)%D && ((lw <? Fin 1)%D || lround_is_odd lw)
        then snap_half else snap_round).
Proof.
  intros snap lw x.
  split; [exact (snap_round_idempotent x) |].
  split; [| split; reflexivity].
  intros Hb Hx.
  pose proof (snap_half_idempotent x Hb Hx) as Hh.
  split; [exact Hh |].
  split.
  - unfold snapper_general.
    destruct snap; [| reflexivity].
    destruct ((Fin 0 <? lw)%D && ((lw <? Fin 1)%D || lround_is_odd lw)).
    + exact Hh.
    + apply snap_round_idempotent.
  - unfold snapper_codeless.
    destruct ((lw <? Fin 1)%D || lround_is_odd lw).
    + exact Hh.
    + apply snap_round_idempotent.
Qed.

(** C7, as the claim states it, fails: at the finite coordinate
    -(2^52 + 1) the sum [floor(x) + 0.5] is halfway between the binary64
    values -(2^52 + 1) and -2^52 and is rounded to -2^52, where the next
    sum, -2^52 + 1/2, is exact: snapping twice differs from snapping
    once. *)
Lemma snap_half_not_idempotent :
  let x := of_Z (- 2 ^ 52 - 1) in
  isfinite x = true
  /\ is_binary64 x = true
  /\ rounded (floor x + Fin (1 # 2))%D = of_Z (- 2 ^ 52)
  /\ rounded (floor (rounded (floor x + Fin (1 # 2))) + Fin (1 # 2))%D
     = Fin (- 9007199254740991 # 2)
  /\ rounded (floor (rounded (floor x + Fin (1 # 2))) + Fin (1 # 2))%D
     <> rounded (floor x + Fin (1 # 2))%D
  /\ snapper_codeless (Fin 1) (snapper_codeless (Fin 1) x)
     <> snapper_codeless (Fin 1) x.
Proof.
  cbv zeta. repeat split; try (vm_compute; reflexivity);
    vm_compute; discriminate.
Qed.

Lemma snapper_idempotent_witness :
  is_binary64 (Fin (5 # 2)) = true
  /\ (Fin (5 # 2) =? of_Z (- 2 ^ 52 - 1))%D = false
  /\ rounded (floor (rounded (floor (Fin (5 # 2)) + Fin (1 # 2))) + Fin (1 # 2))%D
     = rounded (floor (Fin (5 # 2)) + Fin (1 # 2))%D.
Proof.
  split; [reflexivity |]. split; [reflexivity |].
  apply (proj1 (proj2 (snapper_idempotent true (Fin 1) (Fin (5 # 2)))));
    reflexivity.
Defined.

(** ** Antialiasing of the additional context *)

Lemma one_third_eq : one_third = Fin (1 / (3 # 1)).
Proof. reflexivity. Qed.


(** ** The affine transform adapter *)

(** C6.  For every 3 x 3 row-major matrix [m] of a transform marked affine
    (or carrying no mark, which counts as affine) and every vertical extent
    [H], the adapter returns the device matrix [a = m00], [b = -m10],
    [c = m01], [d = -m11], [e = m02], [f = H - m12]; for every transform
    marked not affine it raises an invalid-argument error and returns no
    matrix. *)
Theorem matrix_from_transform_affine :
  forall (m00 m01 m02 m10 m11 m12 m20 m21 m22 H : double),
    let m := {| shape0 := 3; shape1 := 3;
                elements := [m00; m01; m02; m10; m11; m12; m20; m21; m22] |} in
    let device := {| xx := m00; yx := - m10; xy := m01; yy := - m11;
                     x0 := m02; y0 := H - m12 |}%D in
    matrix_from_transform {| is_affine := Some true; matrix := m |} H = Ok device
    /\ matrix_from_transform {| is_affine := None; matrix := m |} H = Ok device
    /\ forall a : array2,
         matrix_from_transform {| is_affine := Some false; matrix := a |} H
         = Err InvalidArgument.
Proof.
  intros; repeat split; reflexivity.
Qed.

(** ** The state stack *)


Lemma restore_pops (g : GraphicsContextRenderer) top rest :
  state_key (cr_ g) = Some (top :: rest) ->
  exists g', restore g = Ok g' /\ state_key (cr_ g') = Some rest.
Proof.
  intros H. unfold restore. rewrite H.
  eexists; split; [reflexivity |].
  unfold cairo_restore; simpl. destruct (saved (cr_ g)); reflexivity.
Qed.

Lemma new_gc_pushes (g : GraphicsContextRenderer) top rest :
  state_key (cr_ g) = Some (top :: rest) ->
  exists g', new_gc g = Ok g' /\ state_key (cr_ g') = Some (top :: top :: rest).
Proof.
  intros H. unfold new_gc; simpl. rewrite H.
  eexists; split; reflexivity.
Qed.

Lemma run_ops_matched (ops : list stack_op) :
  forall (g : GraphicsContextRenderer) top rest,
    state_key (cr_ g) = Some (top :: rest) ->
    matched (length rest) ops = true ->
    exists g' top' rest',
      run_ops ops g = Ok g'
      /\ state_key (cr_ g') = Some (top' :: rest')
      /\ bottom (top' :: rest') = bottom (top :: rest)
      /\ (length rest' + count_op op_restore ops
          = length rest + count_op op_new_gc ops)%nat.
Proof.
  induction ops as [| o ops IH]; intros g top rest Hst Hm.
  - exists g, top, rest. repeat split; auto.
  - destruct o; simpl in Hm.
    + destruct (new_gc_pushes g Hst) as (g1 & E1 & S1).
      destruct (IH g1 top (top :: rest) S1 Hm) as (g' & top' & rest' & R & S & L & C).
      exists g', top', rest'. simpl run_ops. rewrite E1; simpl bind.
      split; [exact R |]. split; [exact S |]. split.
      * rewrite L. reflexivity.
      * unfold count_op in *; simpl in *; lia.
    + destruct rest as [| top2 rest2]; [discriminate |].
      destruct (restore_pops g Hst) as (g1 & E1 & S1).
      destruct (IH g1 top2 rest2 S1 Hm) as (g' & top' & rest' & R & S & L & C).
      exists g', top', rest'. simpl run_ops. rewrite E1; simpl bind.
      split; [exact R |]. split; [exact S |]. split.
      * rewrite L. reflexivity.
      * unfold count_op in *; simpl in *; lia.
Qed.

(** C2, as the code has it.  [restore] tests nothing: on a stack of any
    depth except zero it returns normally with the top state removed, the
    base state included.  The depth stays at least 1, and the base state
    stays in place, along every sequence of [new_gc] and [restore] in which
    no prefix holds more [restore]s than the states above the base plus
    its [new_gc]s. *)
Theorem restore_unguarded_stack_depth :
  forall (g : GraphicsContextRenderer) (top : AdditionalState)
         (rest : list AdditionalState),
    state_key (cr_ g) = Some (top :: rest) ->
    (exists g', restore g = Ok g' /\ state_key (cr_ g') = Some rest)
    /\ forall ops : list stack_op,
         matched (length rest) ops = true ->
         exists g',
           run_ops ops g = Ok g'
           /\ (1 <= stack_depth g')%nat
           /\ (stack_depth g' + count_op op_restore ops
               = stack_depth g + count_op op_new_gc ops)%nat
           /\ bottom (states_of g') = bottom (states_of g).
Proof.
  intros g top rest Hst. split.
  - exact (restore_pops g Hst).
  - intros ops Hm.
    destruct (run_ops_matched ops g Hst Hm) as (g' & top' & rest' & R & S & L & C).
    exists g'. unfold stack_depth, states_of. rewrite S, Hst.
    split; [exact R |]. split; [simpl; lia |]. split; [simpl length; lia |].
    exact L.
Qed.


(** C2, as the claim states it, fails: on a renderer fresh from its
    constructor [restore] returns normally and leaves a stack of depth 0. *)
Lemma restore_removes_base_state :
  stack_depth (Sample.renderer Sample.image (Fin 1)) = 1%nat
  /\ exists g',
       restore (Sample.renderer Sample.image (Fin 1)) = Ok g'
       /\ stack_depth g' = 0%nat.
Proof.
  split; [reflexivity |].
  eexists; split; reflexivity.
Qed.

Lemma restore_unguarded_stack_depth_witness :
  state_key (cr_ (Sample.renderer Sample.image (Fin 1)))
  = Some [base_state Sample.black (Fin 1)]
  /\ matched 0 [op_new_gc; op_new_gc; op_restore; op_restore; op_new_gc] = true
  /\ exists g',
       run_ops [op_new_gc; op_new_gc; op_restore; op_restore; op_new_gc]
         (Sample.renderer Sample.image (Fin 1)) = Ok g'
       /\ (1 <= stack_depth g')%nat.
Proof.
  split; [reflexivity |]. split; [reflexivity |].
  destruct (restore_unguarded_stack_depth
              (Sample.renderer Sample.image (Fin 1)) eq_refl) as [_ H].
  destruct (H [op_new_gc; op_new_gc; op_restore; op_restore; op_new_gc] eq_refl)
    as (g' & R & D & _).
  exists g'. split; [exact R | exact D].
Defined.

(** ** The snap flag across [draw_markers] and [draw_path_collection] *)

Lemma set_snap_field_same (s : AdditionalState) :
  set_snap_field (snap s) (set_snap_field false s) = s.
Proof. destruct s; reflexivity. Qed.

Lemma cairo_save_state_key cr : state_key (cairo_save cr) = state_key cr.
Proof. reflexivity. Qed.

Lemma cairo_restore_state_key cr : state_key (cairo_restore cr) = state_key cr.
Proof. unfold cairo_restore; destruct (saved cr); reflexivity. Qed.

Lemma additional_context_state_key g g' :
  additional_context g = Ok g' -> state_key (cr_ g') = state_key (cr_ g).
Proof.
  unfold additional_context, get_rgba, get_additional_state.
  destruct (state_key (cr_ g)) as [[| top rest] |] eqn:E; simpl; try discriminate.
  destruct (source (gs (cr_ g))) as [[[r g0] b] a]; simpl.
  intros H; injection H as <-; simpl.
  destruct (clip_path top); destruct (clip_rectangle top) as [[[[x y] w] h] |];
    simpl; exact E.
Qed.

Lemma direct_loop_state_key vs m mm count :
  forall i cr cr' out,
    direct_loop vs m mm count i cr = Ok (cr', out) ->
    state_key cr' = state_key cr.
Proof.
  induction count as [| count IH]; intros i cr cr' out; simpl.
  - intros H; injection H as <- _; reflexivity.
  - intros H. bind_inv H v Ev.
    destruct (cairo_matrix_transform_point m v) as [x y].
    destruct (negb (isfinite x && isfinite y)).
    + apply IH in H. exact H.
    + bind_inv H cm Ed. destruct cm as [cr1 rest].
      injection H as <- _.
      apply IH in Ed. rewrite Ed.
      now rewrite cairo_restore_state_key.
Qed.

(** The half of C10 that holds: a call of [draw_markers] that returns
    normally leaves the whole stack of additional states, the snap flag of
    the current state included, as it found it. *)
Lemma draw_markers_restores_snap :
  forall thr se fe this gc marker_path marker_transform path transform fc g' out,
    draw_markers thr se fe this gc marker_path marker_transform path transform fc
    = Ok (g', out) ->
    state_key (cr_ g') = state_key (cr_ this).
Proof.
  intros thr se fe this gc marker_path marker_transform path transform fc g' out.
  unfold draw_markers.
  destruct (negb (self gc =? self this)%nat); [discriminate |].
  intros H.
  bind_inv H this1 Eac. apply additional_context_state_key in Eac.
  bind_inv H state Est.
  bind_inv H this2 Eup.
  bind_inv H mm Emm. bind_inv H m Em. bind_inv H thr' Ethr.
  bind_inv H np Enp. destruct np as [n_subpix patterns].
  bind_inv H to Eto. destruct to as [this3 out3].
  bind_inv H this4 Eup4.
  injection H as <- _.
  unfold additional_context_exit; simpl.
  rewrite cairo_restore_state_key.
  unfold get_additional_state in Est.
  unfold update_additional_state in Eup, Eup4.
  destruct (state_key (cr_ this1)) as [[| top rest] |] eqn:E1; try discriminate.
  injection Est as <-. injection Eup as <-.
  assert (E3 : state_key (cr_ this3)
               = Some (set_snap_field false top :: rest)).
  { destruct patterns.
    - destruct (marker_origin se fe fc) as [ox oy].
      bind_inv Eto stamps Es. injection Eto as <- _. reflexivity.
    - bind_inv Eto cm Ed. destruct cm as [cr1 markers].
      injection Eto as <- _. simpl.
      apply direct_loop_state_key in Ed. rewrite Ed. reflexivity. }
  rewrite E3 in Eup4. injection Eup4 as <-. simpl.
  rewrite set_snap_field_same. congruence.
Qed.

(** C10 fails on [draw_path_collection]: with no path to draw, the call
    returns normally through the early [return] that follows the forcing of
    the snap flag, and the flag, true before the call, is false after it. *)
Theorem draw_path_collection_early_return_clears_snap :
  forall base : GraphicsContextRenderer -> result GraphicsContextRenderer,
    let this := Sample.renderer Sample.image (Fin 1) in
    let none := {| shape0 := 0; shape1 := 4; elements := [] |} in
    option_map snap (bottom (states_of this)) = Some true
    /\ exists g',
         draw_path_collection base this this Sample.flip
           [] [] (Sample.points [(0, 0)]) Sample.flip none none [] [] "offsets"
         = Ok (g', [])
         /\ stack_depth g' = 1%nat
         /\ option_map snap (bottom (states_of g')) = Some false.
Proof.
  intros base this none. split; [reflexivity |].
  eexists; split; [reflexivity |]. split; reflexivity.
Qed.

(** ** The marker stamper *)

Lemma flat_map_map_length {A B C : Type} (f : A -> B -> C)
  (outer : list A) (inner : list B) :
  length (flat_map (fun i => map (f i) inner) outer)
  = (length outer * length inner)%nat.
Proof.
  induction outer as [| i outer IH]; simpl; [reflexivity |].
  now rewrite length_app, length_map, IH.
Qed.

Lemma flat_map_map_nth {A B C : Type} (f : A -> B -> C)
  (outer : list A) (inner : list B) (i j : nat) (a : A) (b : B) (c : C) :
  (i < length outer)%nat -> (j < length inner)%nat ->
  nth (i * length inner + j) (flat_map (fun i => map (f i) inner) outer) c
  = f (nth i outer a) (nth j inner b).
Proof.
  revert i; induction outer as [| o outer IH]; intros i Hi Hj; simpl in *.
  - lia.
  - destruct i as [| i].
    + simpl. rewrite app_nth1 by (rewrite length_map; exact Hj).
      rewrite (nth_indep _ c (f o b)) by (rewrite length_map; exact Hj).
      apply (map_nth (f o)).
    + rewrite app_nth2 by (rewrite length_map; simpl; lia).
      rewrite length_map.
      replace (S i * length inner + j - length inner)%nat
        with (i * length inner + j)%nat by (simpl; lia).
      apply IH; [lia | exact Hj].
Qed.

Lemma stamp_patches_length (n : Z) (x0 y0 : double) :
  length (stamp_patches n x0 y0) = (Z.to_nat n * Z.to_nat n)%nat.
Proof.
  unfold stamp_patches.
  rewrite (flat_map_map_length
             (fun i j => ((- x0) + of_Z (Z.of_nat i) / of_Z n,
                          (- y0) + of_Z (Z.of_nat j) / of_Z n)%D)).
  now rewrite length_seq.
Qed.

(** Patch [i * n + j] of the grid is the marker drawn at the sub-pixel
    phase [(i / n, j / n)] from the corner of its extents. *)
Lemma stamp_patches_nth (n : Z) (x0 y0 : double) (i j : nat) :
  (i < Z.to_nat n)%nat -> (j < Z.to_nat n)%nat ->
  nth (i * Z.to_nat n + j) (stamp_patches n x0 y0) (NaN, NaN)
  = ((- x0) + of_Z (Z.of_nat i) / of_Z n,
     (- y0) + of_Z (Z.of_nat j) / of_Z n)%D.
Proof.
  intros Hi Hj. unfold stamp_patches.
  pose proof (flat_map_map_nth
                (fun i j => ((- x0) + of_Z (Z.of_nat i) / of_Z n,
                             (- y0) + of_Z (Z.of_nat j) / of_Z n)%D)
                (seq 0 (Z.to_nat n)) (seq 0 (Z.to_nat n)) (i := i) (j := j)
                0%nat 0%nat (NaN, NaN)) as H.
  rewrite !length_seq in H. cbv beta in H.
  etransitivity; [exact (H Hi Hj) |].
  now rewrite !seq_nth by assumption.
Qed.

Lemma additional_context_target g g' :
  additional_context g = Ok g' -> target (cr_ g') = target (cr_ g).
Proof.
  unfold additional_context. intros H.
  bind_inv H rgba Ergba. bind_inv H state Est.
  injection H as <-; simpl.
  destruct (clip_path state); destruct (clip_rectangle state) as [[[[x y] w] h] |];
    reflexivity.
Qed.

Lemma update_additional_state_target f g g' :
  update_additional_state f g = Ok g' -> target (cr_ g') = target (cr_ g).
Proof.
  unfold update_additional_state.
  destruct (state_key (cr_ g)) as [[| top rest] |]; try discriminate.
  intros H; injection H as <-; reflexivity.
Qed.

Lemma has_vector_surface_classifies cr b :
  has_vector_surface cr = Ok b ->
  is_vector (surface_type (target cr)) = b
  /\ is_raster (surface_type (target cr)) = negb b.
Proof.
  unfold has_vector_surface.
  destruct (surface_type (target cr)); intros H;
    try discriminate; injection H as <-; split; reflexivity.
Qed.

Lemma has_vector_surface_rejects cr :
  is_raster (surface_type (target cr)) = false ->
  is_vector (surface_type (target cr)) = false ->
  has_vector_surface cr = Err InvalidArgument.
Proof.
  unfold has_vector_surface.
  destruct (surface_type (target cr)); simpl; intros; try discriminate;
    reflexivity.
Qed.

Lemma read_point_at vs i v :
  read_point vs i = Ok v -> v = (at2 vs i 0, at2 vs i 1).
Proof.
  unfold read_point, read2. intros H.
  bind_inv H x Ex. bind_inv H y Ey. injection H as <-.
  destruct ((0 <=? i)%Z && (i <? shape0 vs)%Z && (0 <=? 0)%Z && (0 <? shape1 vs)%Z);
    [| discriminate].
  destruct ((0 <=? i)%Z && (i <? shape0 vs)%Z && (0 <=? 1)%Z && (1 <? shape1 vs)%Z);
    [| discriminate].
  injection Ex as <-. injection Ey as <-. reflexivity.
Qed.

(** The direct loop draws one marker per finite position, in order. *)
Lemma direct_loop_markers vs m mm count :
  forall (k : nat) cr cr' out,
    direct_loop vs m mm count (Z.of_nat k) cr = Ok (cr', out) ->
    out = map (fun p => marker_matrix_at mm (fst p) (snd p))
              (filter finite_point
                 (map (fun i => cairo_matrix_transform_point m
                                  (at2 vs (Z.of_nat i) 0, at2 vs (Z.of_nat i) 1))
                      (seq k count))).
Proof.
  induction count as [| count IH]; intros k cr cr' out H.
  - cbn [direct_loop] in H. injection H as _ <-. reflexivity.
  - cbn [direct_loop] in H.
    bind_inv H v Ev. apply read_point_at in Ev. subst v.
    change (seq k (S count)) with (k :: seq (S k) count).
    rewrite map_cons.
    replace (Z.of_nat k + 1)%Z with (Z.of_nat (S k)) in H by lia.
    destruct (cairo_matrix_transform_point m
                (at2 vs (Z.of_nat k) 0, at2 vs (Z.of_nat k) 1)) as [x y].
    cbn [filter]. unfold finite_point at 1. cbn [fst snd].
    destruct (isfinite x && isfinite y); cbn [negb] in H.
    + bind_inv H cm Ed. destruct cm as [cr1 rest].
      injection H as _ <-. apply IH in Ed. subst rest. reflexivity.
    + apply IH in H. exact H.
Qed.

Lemma stamp_grid_characterised thr nv n_subpix patterns :
  stamp_grid thr nv = Ok (n_subpix, patterns) ->
  (patterns = true <->
   (one_sixteenth <=? thr)%D = true
   /\ exists n, to_int (ceil (Fin 1 / thr)%D) = Ok n /\ (n * n < nv)%Z)
  /\ (patterns = true -> to_int (ceil (Fin 1 / thr)%D) = Ok n_subpix).
Proof.
  unfold stamp_grid.
  destruct (one_sixteenth <=? thr)%D.
  - intros H. bind_inv H n En. bind_inv H sq Esq.
    injection H as <- <-.
    unfold cint in Esq. destruct (int_range (n * n)); [| discriminate].
    injection Esq as <-.
    split; [split |].
    + intros Hp. split; [reflexivity |]. exists n. split; [exact En | lia].
    + intros (_ & n' & En' & Hlt). rewrite En in En'. injection En' as <-. lia.
    + intros _. exact En.
  - intros H; injection H as <- <-.
    split; [split |]; try discriminate.
    intros (Hf & _); discriminate.
Qed.




(** The same call on a vector target (a PDF surface): the threshold is
    taken as 0 and the five markers are drawn one by one. *)
Lemma draw_markers_vector_draws_directly :
  exists g' markers,
    draw_markers (Fin (1 # 2)) Sample.unit_extents Sample.unit_extents
      (Sample.renderer (Sample.surface_of CAIRO_SURFACE_TYPE_PDF) (Fin 1))
      (Sample.renderer (Sample.surface_of CAIRO_SURFACE_TYPE_PDF) (Fin 1))
      Sample.five_points Sample.flip Sample.five_points Sample.flip None
    = Ok (g', direct markers)
    /\ length markers = 5%nat.
Proof.
  eexists. eexists. split; [vm_compute; reflexivity | reflexivity].
Qed.

(** ** Region capture and restore *)

Lemma int_range_iff (z : Z) :
  int_range z = true <-> (-2147483648 <= z <= 2147483647)%Z.
Proof.
  unfold int_range, INT_MIN, INT_MAX.
  rewrite andb_true_iff, !Z.leb_le.
  change (- 2 ^ 31)%Z with (-2147483648)%Z.
  change (2 ^ 31 - 1)%Z with 2147483647%Z. tauto.
Qed.

Lemma cint_ok (z : Z) :
  (-2147483648 <= z <= 2147483647)%Z -> cint z = Ok z.
Proof.
  intros H. unfold cint. apply int_range_iff in H. now rewrite H.
Qed.

Lemma cint_inv (z z' : Z) :
  cint z = Ok z' -> z' = z /\ (-2147483648 <= z <= 2147483647)%Z.
Proof.
  unfold cint. destruct (int_range z) eqn:E; [| discriminate].
  intros H; injection H as <-. apply int_range_iff in E. auto.
Qed.

Lemma byte_at_nonneg mem i :
  (0 <= i)%Z -> byte_at mem i = nth_error mem (Z.to_nat i).
Proof.
  intros H. unfold byte_at. apply Z.leb_le in H. now rewrite H.
Qed.

Lemma read_bytes_spec mem off n :
  (0 <= off)%Z -> (0 <= n)%Z -> (off + n <= Z.of_nat (length mem))%Z ->
  exists row,
    read_bytes mem off n = Ok row
    /\ Z.of_nat (length row) = n
    /\ forall j, (0 <= j < n)%Z -> byte_at row j = byte_at mem (off + j).
Proof.
  intros Ho Hn Hb. unfold read_bytes.
  assert (E : (0 <=? off)%Z && (0 <=? n)%Z
              && (off + n <=? Z.of_nat (length mem))%Z = true).
  { rewrite !andb_true_iff, !Z.leb_le. auto. }
  rewrite E. eexists; split; [reflexivity |]. split.
  - rewrite length_firstn, length_skipn. lia.
  - intros j Hj. rewrite !byte_at_nonneg by lia.
    rewrite nth_error_firstn, nth_error_skipn.
    assert (E2 : (Z.to_nat j <? Z.to_nat n)%nat = true)
      by (apply Nat.ltb_lt; lia).
    rewrite E2. f_equal. lia.
Qed.

Lemma write_bytes_spec mem off src :
  (0 <= off)%Z -> (off + Z.of_nat (length src) <= Z.of_nat (length mem))%Z ->
  exists mem',
    write_bytes mem off src = Ok mem'
    /\ length mem' = length mem
    /\ (forall j, (0 <= j < Z.of_nat (length src))%Z ->
                  byte_at mem' (off + j) = byte_at src j)
    /\ (forall i, (i < off \/ off + Z.of_nat (length src) <= i)%Z ->
                  byte_at mem' i = byte_at mem i).
Proof.
  intros Ho Hb. unfold write_bytes.
  assert (E : (0 <=? off)%Z
              && (off + Z.of_nat (length src) <=? Z.of_nat (length mem))%Z
              = true).
  { rewrite !andb_true_iff, !Z.leb_le. auto. }
  rewrite E. eexists; split; [reflexivity |].
  assert (Lf : length (firstn (Z.to_nat off) mem) = Z.to_nat off).
  { rewrite length_firstn. lia. }
  split; [| split].
  - rewrite !length_app, Lf, length_skipn. lia.
  - intros j Hj. rewrite !byte_at_nonneg by lia.
    rewrite nth_error_app2 by (rewrite Lf; lia).
    rewrite Lf. rewrite nth_error_app1 by lia.
    f_equal. lia.
  - intros i Hi. unfold byte_at.
    destruct (0 <=? i)%Z eqn:Ei; [| reflexivity].
    apply Z.leb_le in Ei. destruct Hi as [Hi | Hi].
    + rewrite nth_error_app1 by (rewrite Lf; lia).
      rewrite nth_error_firstn.
      assert (E2 : (Z.to_nat i <? Z.to_nat off)%nat = true)
        by (apply Nat.ltb_lt; lia).
      now rewrite E2.
    + rewrite nth_error_app2 by (rewrite Lf; lia).
      rewrite Lf. rewrite nth_error_app2 by lia.
      rewrite nth_error_skipn. f_equal. lia.
Qed.

Section RowsSpec.

Local Open Scope Z_scope.

Variables x0 y0 width stride : Z.
Hypothesis Hx0 : (0 <= x0 <= 32767)%Z.
Hypothesis Hy0 : (0 <= y0)%Z.
Hypothesis Hwidth : (0 <= width <= 32767)%Z.
Hypothesis Hrow : (4 * x0 + 4 * width <= stride)%Z.

Lemma buf_offset_ok y :
  (y0 <= y)%Z -> (y - y0 <= 32767)%Z ->
  ((y - y0) * (4 * width) <= 2147483647)%Z ->
  buf_offset y0 width y = Ok ((y - y0) * (4 * width))%Z.
Proof.
  intros H1 H2 H3. unfold buf_offset.
  rewrite (@cint_ok (y - y0)) by lia. rewrite bind_Ok.
  rewrite (@cint_ok ((y - y0) * 4)) by lia. rewrite bind_Ok.
  rewrite cint_ok by nia. f_equal. ring.
Qed.

Lemma raw_offset_ok y :
  (0 <= y)%Z -> (y * stride <= 2147483647)%Z ->
  raw_offset x0 stride y = Ok (y * stride + 4 * x0)%Z.
Proof.
  intros H1 H2. unfold raw_offset.
  rewrite (@cint_ok (y * stride)) by nia. rewrite bind_Ok.
  rewrite (@cint_ok (4 * x0)) by lia. rewrite bind_Ok. reflexivity.
Qed.

Lemma copy_rows_spec raw (count : nat) :
  forall y buf,
    (y0 <= y)%Z ->
    let y1 := (y + Z.of_nat count)%Z in
    (y1 - y0 <= 32767)%Z ->
    (y1 * stride <= Z.of_nat (length raw))%Z ->
    (y1 * stride <= 2147483647)%Z ->
    ((y1 - y0) * (4 * width) <= Z.of_nat (length buf))%Z ->
    ((y1 - y0) * (4 * width) <= 2147483647)%Z ->
    exists buf',
      copy_rows x0 y0 width stride raw count y buf = Ok buf'
      /\ length buf' = length buf
      /\ (forall r j, (y <= r < y1)%Z -> (0 <= j < 4 * width)%Z ->
            byte_at buf' ((r - y0) * (4 * width) + j)
            = byte_at raw (r * stride + 4 * x0 + j))
      /\ (forall i, (i < (y - y0) * (4 * width)
                     \/ (y1 - y0) * (4 * width) <= i)%Z ->
            byte_at buf' i = byte_at buf i).
Proof.
  induction count as [| count IH]; intros y buf Hy y1 Hh Hraw Hint Hbuf Hbi.
  - exists buf. simpl. repeat split; auto. intros r j Hr; subst y1; lia.
  - subst y1. cbn [copy_rows].
    assert (Hs : 0 <= stride) by lia.
    assert (Hn : Z.of_nat (S count) = Z.of_nat count + 1) by lia.
    rewrite Hn in *. clear Hn.
    set (n := Z.of_nat count) in *.
    assert (Hn0 : 0 <= n) by (subst n; lia).
    assert (A1 : (y + (n + 1) - y0) * (4 * width)
                 = (y - y0) * (4 * width) + 4 * width
                   + n * (4 * width)) by ring.
    assert (A2 : (y + (n + 1)) * stride
                 = y * stride + stride + n * stride) by ring.
    assert (A3 : 0 <= n * (4 * width))
      by (apply Z.mul_nonneg_nonneg; lia).
    assert (A4 : 0 <= n * stride) by (apply Z.mul_nonneg_nonneg; lia).
    assert (A5 : 0 <= (y - y0) * (4 * width))
      by (apply Z.mul_nonneg_nonneg; lia).
    assert (A6 : 0 <= y * stride) by (apply Z.mul_nonneg_nonneg; lia).
    assert (A7 : (y + 1 + n - y0) * (4 * width)
                 = (y + (n + 1) - y0) * (4 * width)) by (f_equal; ring).
    assert (A8 : (y + 1 + n) * stride = (y + (n + 1)) * stride)
      by (f_equal; ring).
    assert (A9 : (y + 1 - y0) * (4 * width)
                 = (y - y0) * (4 * width) + 4 * width) by ring.
    rewrite buf_offset_ok by lia. rewrite bind_Ok.
    rewrite raw_offset_ok by lia. rewrite bind_Ok.
    rewrite (@cint_ok (4 * width)) by lia. rewrite bind_Ok.
    destruct (@read_bytes_spec raw (y * stride + 4 * x0) (4 * width))
      as (row & Er & Lr & Br); [lia | lia | lia |].
    rewrite Er, bind_Ok.
    destruct (@write_bytes_spec buf ((y - y0) * (4 * width)) row)
      as (buf1 & Ew & Lw & Bw & Fw); [lia | lia |].
    rewrite Ew, bind_Ok.
    destruct (IH (y + 1) buf1) as (buf' & Ec & Lc & Bc & Fc);
      [lia | lia | rewrite A8; lia | rewrite A8; lia
       | rewrite Lw, A7; lia | rewrite A7; lia |].
    exists buf'. split; [exact Ec |]. split; [congruence |]. split.
    + intros r j Hr Hj.
      destruct (Z.eq_dec r y) as [-> | Hne].
      * rewrite Fc by (left; rewrite A9; lia).
        rewrite Bw by lia. rewrite Br by lia. reflexivity.
      * apply Bc; lia.
    + intros i Hi.
      rewrite Fc by (destruct Hi; [left; rewrite A9; lia | right; rewrite A7; lia]).
      apply Fw. destruct Hi; [left; lia | right; lia].
Qed.

Lemma restore_rows_spec buf (count : nat) :
  forall y raw,
    (y0 <= y)%Z ->
    let y1 := (y + Z.of_nat count)%Z in
    (y1 - y0 <= 32767)%Z ->
    (y1 * stride <= Z.of_nat (length raw))%Z ->
    (y1 * stride <= 2147483647)%Z ->
    ((y1 - y0) * (4 * width) <= Z.of_nat (length buf))%Z ->
    ((y1 - y0) * (4 * width) <= 2147483647)%Z ->
    exists raw',
      restore_rows x0 y0 width stride buf count y raw = Ok raw'
      /\ length raw' = length raw
      /\ (forall r j, (y <= r < y1)%Z -> (0 <= j < 4 * width)%Z ->
            byte_at raw' (r * stride + 4 * x0 + j)
            = byte_at buf ((r - y0) * (4 * width) + j))
      /\ (forall i,
            (forall r, (y <= r < y1)%Z ->
               (i < r * stride + 4 * x0
                \/ r * stride + 4 * x0 + 4 * width <= i)%Z) ->
            byte_at raw' i = byte_at raw i).
Proof.
  induction count as [| count IH]; intros y raw Hy y1 Hh Hraw Hint Hbuf Hbi.
  - exists raw. simpl. repeat split; auto. intros r j Hr; subst y1; lia.
  - subst y1. cbn [restore_rows].
    assert (Hs : 0 <= stride) by lia.
    assert (Hn : Z.of_nat (S count) = Z.of_nat count + 1) by lia.
    rewrite Hn in *. clear Hn.
    set (n := Z.of_nat count) in *.
    assert (Hn0 : 0 <= n) by (subst n; lia).
    assert (A1 : (y + (n + 1) - y0) * (4 * width)
                 = (y - y0) * (4 * width) + 4 * width
                   + n * (4 * width)) by ring.
    assert (A2 : (y + (n + 1)) * stride
                 = y * stride + stride + n * stride) by ring.
    assert (A3 : 0 <= n * (4 * width))
      by (apply Z.mul_nonneg_nonneg; lia).
    assert (A4 : 0 <= n * stride) by (apply Z.mul_nonneg_nonneg; lia).
    assert (A5 : 0 <= (y - y0) * (4 * width))
      by (apply Z.mul_nonneg_nonneg; lia).
    assert (A6 : 0 <= y * stride) by (apply Z.mul_nonneg_nonneg; lia).
    assert (A7 : (y + 1 + n - y0) * (4 * width)
                 = (y + (n + 1) - y0) * (4 * width)) by (f_equal; ring).
    assert (A8 : (y + 1 + n) * stride = (y + (n + 1)) * stride)
      by (f_equal; ring).
    assert (A9 : (y + 1 - y0) * (4 * width)
                 = (y - y0) * (4 * width) + 4 * width) by ring.
    rewrite raw_offset_ok by lia. rewrite bind_Ok.
    rewrite buf_offset_ok by lia. rewrite bind_Ok.
    rewrite (@cint_ok (4 * width)) by lia. rewrite bind_Ok.
    destruct (@read_bytes_spec buf ((y - y0) * (4 * width)) (4 * width))
      as (row & Er & Lr & Br); [lia | lia | lia |].
    rewrite Er, bind_Ok.
    destruct (@write_bytes_spec raw (y * stride + 4 * x0) row)
      as (raw1 & Ew & Lw & Bw & Fw); [lia | lia |].
    rewrite Ew, bind_Ok.
    destruct (IH (y + 1) raw1) as (raw' & Ec & Lc & Bc & Fc);
      [lia | lia | rewrite Lw, A8; lia | rewrite A8; lia
       | rewrite A7; lia | rewrite A7; lia |].
    exists raw'. split; [exact Ec |]. split; [congruence |]. split.
    + intros r j Hr Hj.
      destruct (Z.eq_dec r y) as [-> | Hne].
      * rewrite Fc.
        -- replace (y * stride + 4 * x0 + j)
             with ((y * stride + 4 * x0) + j) by ring.
           rewrite Bw by lia. rewrite Br by lia. reflexivity.
        -- intros r Hr'. left.
           pose proof (Z.mul_le_mono_nonneg_r (y + 1) r stride Hs
                         ltac:(lia)). lia.
      * apply Bc; lia.
    + intros i Hi. rewrite Fc by (intros r Hr; apply Hi; lia).
      apply Fw. specialize (Hi y ltac:(lia)). lia.
Qed.

End RowsSpec.

Lemma image_ok_facts (g : GraphicsContextRenderer) :
  image_ok g = true ->
  let s := target (cr_ g) in
  is_image s = true
  /\ (0 <= width_ g <= surface_width s)%Z
  /\ (0 <= height_ g <= surface_height s)%Z
  /\ (surface_width s <= 32767)%Z
  /\ (surface_height s <= 32767)%Z
  /\ (4 * surface_width s <= surface_stride s)%Z
  /\ Z.of_nat (length (surface_data s))
     = (surface_stride s * surface_height s)%Z
  /\ (surface_stride s * surface_height s <= 2147483647)%Z.
Proof.
  unfold image_ok, MAX_IMAGE_SIZE, INT_MAX.
  change (2 ^ 31 - 1)%Z with 2147483647%Z.
  rewrite !andb_true_iff, !Z.leb_le, Z.eqb_eq. cbv zeta. tauto.
Qed.

Lemma bbox_in_bounds_facts g x0 y0 x1 y1 :
  bbox_in_bounds g x0 y0 x1 y1 = true ->
  (0 <= x0 <= x1)%Z /\ (x1 <= width_ g)%Z
  /\ (0 <= y0 <= y1)%Z /\ (y1 <= height_ g)%Z.
Proof.
  unfold bbox_in_bounds. rewrite !andb_true_iff, !Z.leb_le. tauto.
Qed.

Lemma same_geometry_facts g g' :
  same_geometry g g' = true ->
  surface_width (target (cr_ g)) = surface_width (target (cr_ g'))
  /\ surface_height (target (cr_ g)) = surface_height (target (cr_ g'))
  /\ surface_stride (target (cr_ g)) = surface_stride (target (cr_ g')).
Proof.
  unfold same_geometry. rewrite !andb_true_iff, !Z.eqb_eq. tauto.
Qed.

(** The rows of a captured region, and where its pixels come from. *)
Lemma copy_from_bbox_captures g bbox x0 y0 x1 y1 :
  image_ok g = true ->
  to_int (floor (bbox_x0 bbox)) = Ok x0 ->
  to_int (ceil (bbox_x1 bbox)) = Ok x1 ->
  to_int (floor (bbox_y0 bbox)) = Ok y0 ->
  to_int (ceil (bbox_y1 bbox)) = Ok y1 ->
  bbox_in_bounds g x0 y0 x1 y1 = true ->
  exists region,
    copy_from_bbox g bbox = Ok region
    /\ region_rectangle region x0 y0 (x1 - x0) (y1 - y0)
    /\ Z.of_nat (length (buf region)) = (4 * (x1 - x0) * (y1 - y0))%Z
    /\ forall x y k,
         (x0 <= x < x1)%Z -> (y0 <= y < y1)%Z -> (0 <= k < 4)%Z ->
         byte_at (buf region) ((y - y0) * (4 * (x1 - x0)) + 4 * (x - x0) + k)
         = byte_at (surface_data (target (cr_ g)))
             (y * surface_stride (target (cr_ g)) + 4 * x + k).
Proof.
  intros Hok Ex0 Ex1 Ey0 Ey1 Hin.
  pose proof (image_ok_facts g Hok) as (Him & Hw & Hh & Hsw & Hsh & Hst & Hlen & Hmax).
  cbv zeta in *.
  pose proof (bbox_in_bounds_facts _ _ _ _ _ Hin) as (Hx & Hx1 & Hy & Hy1).
  set (s := target (cr_ g)) in *.
  set (stride := surface_stride s) in *.
  assert (Hs0 : (0 <= stride)%Z) by lia.
  assert (P1 : (4 * (x1 - x0) * (y1 - y0) <= stride * surface_height s)%Z).
  { apply Z.mul_le_mono_nonneg; lia. }
  assert (P2 : (0 <= 4 * (x1 - x0) * (y1 - y0))%Z)
    by (apply Z.mul_nonneg_nonneg; lia).
  assert (P3 : (y1 * stride <= stride * surface_height s)%Z).
  { rewrite (Z.mul_comm stride). apply Z.mul_le_mono_nonneg_r; lia. }
  unfold copy_from_bbox.
  rewrite Ex0, bind_Ok, Ex1, bind_Ok, Ey0, bind_Ok, Ey1, bind_Ok.
  rewrite Hin. cbn [negb].
  rewrite (@cint_ok (x1 - x0)%Z) by lia. rewrite bind_Ok.
  rewrite (@cint_ok (y1 - y0)%Z) by lia. rewrite bind_Ok.
  rewrite (@cint_ok (4 * (x1 - x0))%Z) by lia. rewrite bind_Ok.
  rewrite (@cint_ok (4 * (x1 - x0) * (y1 - y0))%Z) by lia. rewrite bind_Ok.
  fold s. rewrite Him. cbn [negb]. fold stride.
  destruct (@copy_rows_spec x0 y0 (x1 - x0)%Z stride
              ltac:(lia) ltac:(lia) ltac:(lia) ltac:(lia)
              (surface_data s) (Z.to_nat (y1 - y0)) y0
              (repeat x00 (Z.to_nat (4 * (x1 - x0) * (y1 - y0)))))
    as (buf' & Ec & Lc & Bc & Fc).
  - lia.
  - lia.
  - rewrite Z2Nat.id by lia. replace (y0 + (y1 - y0))%Z with y1 by ring. lia.
  - rewrite Z2Nat.id by lia. replace (y0 + (y1 - y0))%Z with y1 by ring. lia.
  - rewrite Z2Nat.id by lia. rewrite repeat_length.
    replace (y0 + (y1 - y0) - y0)%Z with (y1 - y0)%Z by ring.
    rewrite Z2Nat.id by lia. lia.
  - rewrite Z2Nat.id by lia.
    replace (y0 + (y1 - y0) - y0)%Z with (y1 - y0)%Z by ring. lia.
  - rewrite Ec, bind_Ok. eexists; split; [reflexivity |].
    split; [reflexivity |]. cbn [buf]. split.
    + rewrite Lc, repeat_length. rewrite Z2Nat.id by lia. reflexivity.
    + intros x y k Hxx Hyy Hk.
      replace ((y - y0) * (4 * (x1 - x0)) + 4 * (x - x0) + k)%Z
        with ((y - y0) * (4 * (x1 - x0)) + (4 * (x - x0) + k))%Z by ring.
      rewrite Bc by (rewrite ?Z2Nat.id by lia; lia).
      f_equal. ring.
Qed.

(** Restoring a region that fits the surface writes its rows back and
    touches no other byte. *)
Lemma restore_region_writes g region x0 y0 w h :
  image_ok g = true ->
  region_rectangle region x0 y0 w h ->
  (0 <= x0)%Z -> (0 <= w)%Z -> (x0 + w <= surface_width (target (cr_ g)))%Z ->
  (0 <= y0)%Z -> (0 <= h)%Z -> (y0 + h <= surface_height (target (cr_ g)))%Z ->
  Z.of_nat (length (buf region)) = (4 * w * h)%Z ->
  exists g',
    restore_region g region = Ok g'
    /\ same_geometry g g' = true
    /\ length (surface_data (target (cr_ g')))
       = length (surface_data (target (cr_ g)))
    /\ (forall x y k,
          (x0 <= x < x0 + w)%Z -> (y0 <= y < y0 + h)%Z -> (0 <= k < 4)%Z ->
          byte_at (surface_data (target (cr_ g')))
            (y * surface_stride (target (cr_ g)) + 4 * x + k)
          = byte_at (buf region) ((y - y0) * (4 * w) + 4 * (x - x0) + k))
    /\ (forall i,
          (forall r, (y0 <= r < y0 + h)%Z ->
             (i < r * surface_stride (target (cr_ g)) + 4 * x0
              \/ r * surface_stride (target (cr_ g)) + 4 * x0 + 4 * w <= i)%Z) ->
          byte_at (surface_data (target (cr_ g'))) i
          = byte_at (surface_data (target (cr_ g))) i).
Proof.
  intros Hok Hrect Hx Hw Hxw Hy Hh Hyh Hlen.
  pose proof (image_ok_facts g Hok)
    as (Him & Hgw & Hgh & Hsw & Hsh & Hst & Hdl & Hmax).
  cbv zeta in *.
  set (s := target (cr_ g)) in *.
  set (stride := surface_stride s) in *.
  assert (Hs0 : (0 <= stride)%Z) by lia.
  assert (P1 : (4 * w * h <= stride * surface_height s)%Z).
  { apply Z.mul_le_mono_nonneg; lia. }
  assert (P2 : (0 <= 4 * w * h)%Z) by (apply Z.mul_nonneg_nonneg; lia).
  assert (P3 : ((y0 + h) * stride <= stride * surface_height s)%Z).
  { rewrite (Z.mul_comm stride). apply Z.mul_le_mono_nonneg_r; lia. }
  unfold restore_region. unfold region_rectangle in Hrect. rewrite Hrect.
  cbn [rect_x rect_y rect_width rect_height].
  rewrite (@cint_ok (y0 + h)%Z) by lia. rewrite bind_Ok.
  fold s. rewrite Him. cbn [negb]. fold stride.
  replace (y0 + h - y0)%Z with h by ring.
  destruct (@restore_rows_spec x0 y0 w stride
              ltac:(lia) ltac:(lia) ltac:(lia) ltac:(lia)
              (buf region) (Z.to_nat h) y0 (surface_data s))
    as (raw' & Ec & Lc & Bc & Fc).
  - lia.
  - rewrite Z2Nat.id by lia. lia.
  - rewrite Z2Nat.id by lia. lia.
  - rewrite Z2Nat.id by lia. lia.
  - rewrite Z2Nat.id by lia. replace (y0 + h - y0)%Z with h by ring. lia.
  - rewrite Z2Nat.id by lia. replace (y0 + h - y0)%Z with h by ring. lia.
  - rewrite Z2Nat.id in Bc, Fc by lia.
    rewrite Ec, bind_Ok. eexists; split; [reflexivity |].
    cbn [cr_ with_cr target with_target surface_data with_surface_data].
    split; [| split; [exact Lc | split]].
    + unfold same_geometry. cbn. fold s. now rewrite !Z.eqb_refl.
    + intros x y k Hxx Hyy Hk.
      replace (y * stride + 4 * x + k)%Z
        with (y * stride + 4 * x0 + (4 * (x - x0) + k))%Z by ring.
      rewrite Bc by lia. f_equal. ring.
    + exact Fc.
Qed.

(** C1.  On an image surface, for every rectangle [R] within the bounds,
    [copy_from_bbox] returns a region whose freshly made buffer holds the
    rows of [R], row stride [width * 4], and [restore_region], applied to
    the surface whatever was drawn on it since, returns with every byte of
    every pixel inside [R] equal to its value at capture time, and with
    every byte outside the rows of [R] as it was before the restore. *)
Theorem restore_region_copy_from_bbox :
  forall (g g_later : GraphicsContextRenderer) (bbox : bbox_t)
         (x0 y0 x1 y1 : Z),
    image_ok g = true ->
    image_ok g_later = true ->
    same_geometry g g_later = true ->
    to_int (floor (bbox_x0 bbox)) = Ok x0 ->
    to_int (ceil (bbox_x1 bbox)) = Ok x1 ->
    to_int (floor (bbox_y0 bbox)) = Ok y0 ->
    to_int (ceil (bbox_y1 bbox)) = Ok y1 ->
    bbox_in_bounds g x0 y0 x1 y1 = true ->
    let stride := surface_stride (target (cr_ g)) in
    exists region g',
      copy_from_bbox g bbox = Ok region
      /\ region_rectangle region x0 y0 (x1 - x0) (y1 - y0)
      /\ Z.of_nat (length (buf region)) = (4 * (x1 - x0) * (y1 - y0))%Z
      /\ (forall x y k,
            (x0 <= x < x1)%Z -> (y0 <= y < y1)%Z -> (0 <= k < 4)%Z ->
            byte_at (buf region)
              ((y - y0) * (4 * (x1 - x0)) + 4 * (x - x0) + k)
            = byte_at (surface_data (target (cr_ g)))
                (y * stride + 4 * x + k))
      /\ restore_region g_later region = Ok g'
      /\ same_geometry g g' = true
      /\ (forall x y k,
            (x0 <= x < x1)%Z -> (y0 <= y < y1)%Z -> (0 <= k < 4)%Z ->
            byte_at (surface_data (target (cr_ g'))) (y * stride + 4 * x + k)
            = byte_at (surface_data (target (cr_ g))) (y * stride + 4 * x + k))
      /\ (forall i,
            (forall r, (y0 <= r < y1)%Z ->
               (i < r * stride + 4 * x0 \/ r * stride + 4 * x1 <= i)%Z) ->
            byte_at (surface_data (target (cr_ g'))) i
            = byte_at (surface_data (target (cr_ g_later))) i).
Proof.
  intros g g2 bbox x0 y0 x1 y1 Hok Hok2 Hgeo Ex0 Ex1 Ey0 Ey1 Hin stride.
  destruct (copy_from_bbox_captures g bbox Hok Ex0 Ex1 Ey0 Ey1 Hin)
    as (region & Ecopy & Hrect & Hlen & Hbytes).
  pose proof (image_ok_facts g Hok) as (_ & Hgw & Hgh & _).
  cbv zeta in *.
  pose proof (bbox_in_bounds_facts _ _ _ _ _ Hin) as (Hx & Hx1 & Hy & Hy1).
  pose proof (same_geometry_facts _ _ Hgeo) as (Gw & Gh & Gs).
  destruct (@restore_region_writes g2 region x0 y0 (x1 - x0)%Z (y1 - y0)%Z
              Hok2 Hrect)
    as (g' & Erest & Hgeo' & Hl' & Hb' & Hf'); try lia.
  exists region, g'.
  split; [exact Ecopy |]. split; [exact Hrect |]. split; [exact Hlen |].
  split; [exact Hbytes |]. split; [exact Erest |]. split.
  - pose proof (same_geometry_facts _ _ Hgeo') as (Gw' & Gh' & Gs').
    unfold same_geometry. rewrite Gw, Gh, Gs, Gw', Gh', Gs'.
    now rewrite !Z.eqb_refl.
  - split.
    + intros x y k Hxx Hyy Hk. unfold stride. rewrite Gs.
      rewrite Hb' by lia. rewrite Hbytes by lia. unfold stride.
      now rewrite Gs.
    + intros i Hi. apply Hf'. intros r Hr. unfold stride in Hi.
      rewrite <- Gs. specialize (Hi r ltac:(lia)). lia.
Qed.

Lemma restore_region_copy_from_bbox_witness :
  image_ok (Sample.renderer Sample.image (Fin 1)) = true
  /\ image_ok (Sample.renderer Sample.image_redrawn (Fin 1)) = true
  /\ bbox_in_bounds (Sample.renderer Sample.image (Fin 1)) 1 0 3 2 = true
  /\ exists region g',
       copy_from_bbox (Sample.renderer Sample.image (Fin 1))
         (Sample.box (3 # 2) (1 # 5) (5 # 2) (3 # 2)) = Ok region
       /\ buf region = [x05; x06; x07; x08;  x09; x0a; x0b; x0c;
                        x15; x16; x17; x18;  x19; x1a; x1b; x1c]
       /\ restore_region (Sample.renderer Sample.image_redrawn (Fin 1)) region
          = Ok g'
       /\ byte_at (surface_data (target (cr_ g'))) (1 * 12 + 4 * 2 + 3)
          = Some x1c.
Proof.
  split; [reflexivity |]. split; [reflexivity |]. split; [reflexivity |].
  destruct (@restore_region_copy_from_bbox
              (Sample.renderer Sample.image (Fin 1))
              (Sample.renderer Sample.image_redrawn (Fin 1))
              (Sample.box (3 # 2) (1 # 5) (5 # 2) (3 # 2)) 1 0 3 2
              eq_refl eq_refl eq_refl eq_refl eq_refl eq_refl eq_refl eq_refl)
    as (region & g' & Ecopy & _ & _ & _ & Erest & _ & Hbytes & _).
  exists region, g'.
  split; [exact Ecopy |].
  split; [vm_compute in Ecopy; injection Ecopy as <-; reflexivity |].
  split; [exact Erest |].
  exact (Hbytes 2%Z 1%Z 3%Z ltac:(lia) ltac:(lia) ltac:(lia)).
Defined.

(** ** Errors of region capture and restore *)

Lemma copy_from_bbox_inv g bbox region :
  copy_from_bbox g bbox = Ok region ->
  exists ix0 iy0 ix1 iy1,
    to_int (floor (bbox_x0 bbox)) = Ok ix0
    /\ to_int (ceil (bbox_x1 bbox)) = Ok ix1
    /\ to_int (floor (bbox_y0 bbox)) = Ok iy0
    /\ to_int (ceil (bbox_y1 bbox)) = Ok iy1
    /\ bbox_in_bounds g ix0 iy0 ix1 iy1 = true.
Proof.
  unfold copy_from_bbox. intros H.
  bind_inv H ix0 Ex0. bind_inv H ix1 Ex1. bind_inv H iy0 Ey0.
  bind_inv H iy1 Ey1.
  exists ix0, iy0, ix1, iy1.
  destruct (bbox_in_bounds g ix0 iy0 ix1 iy1); [auto | discriminate].
Qed.

Lemma to_int_range d z :
  to_int d = Ok z -> (-2147483648 <= z <= 2147483647)%Z.
Proof.
  unfold to_int. destruct d as [q | | |]; try discriminate.
  destruct (int_range _) eqn:E; [| discriminate].
  intros H; injection H as <-. now apply int_range_iff.
Qed.




(** ** Clamping in the general overload of [load_path_exact] *)

Lemma ltb_Fin (a b : Q) : (Fin a <? Fin b)%D = Qltb a b.
Proof. reflexivity. Qed.

(** [std::clamp] to the box: below, the lower bound; above, the upper
    bound; otherwise the value. *)
Lemma clamp_Fin (q : Q) :
  clamp (Fin q) dmin dmax
  = if Qltb q qmin then dmin else if Qltb qmax q then dmax else Fin q.
Proof. reflexivity. Qed.

Lemma qmin_le_qmax : qmin <= qmax.
Proof. unfold qmin, qmax. lra. Qed.

Lemma clamp_isfinite (x : double) :
  isfinite (clamp x dmin dmax) = true ->
  in_range qmin qmax (clamp x dmin dmax).
Proof.
  pose proof qmin_le_qmax as Hmm.
  destruct x as [q | | |]; cbn; try discriminate.
  - intros _. fold (clamp (Fin q) dmin dmax). rewrite clamp_Fin.
    destruct (Qltb q qmin) eqn:E1.
    + cbn. lra.
    + destruct (Qltb qmax q) eqn:E2.
      * cbn. lra.
      * apply Qltb_ge in E1, E2. cbn. lra.
  - intros _. unfold qmin, qmax. lra.
  - intros _. unfold qmin, qmax. lra.
Qed.

Lemma clamp_of_finite (x : double) :
  isfinite x = true -> in_range qmin qmax (clamp x dmin dmax).
Proof.
  intros H. apply clamp_isfinite.
  destruct x as [q | | |]; try discriminate.
  rewrite clamp_Fin.
  destruct (Qltb q qmin); [reflexivity |].
  destruct (Qltb qmax q); reflexivity.
Qed.

Lemma in_range_weaken lo hi hi' d :
  hi <= hi' -> in_range lo hi d -> in_range lo hi' d.
Proof.
  destruct d as [q | | |]; cbn; try tauto. intros; lra.
Qed.

(** The first control point of a quadratic segment: a third of the way
    from the previous point to the control point given. *)
Lemma third_in_range hi a b :
  qmax <= hi ->
  in_range qmin hi a -> in_range qmin qmax b ->
  in_range qmin hi ((a + two * b) / three)%D.
Proof.
  intros Hhi.
  destruct a as [qa | | |]; destruct b as [qb | | |]; cbn; try tauto.
  intros [A1 A2] [B1 B2].
  unfold Qdiv. change (/ (3 # 1)) with (1 # 3). split; lra.
Qed.

Lemma third_in_range' a b :
  in_range qmin qmax a -> in_range qmin qmax b ->
  in_range qmin qmax ((two * a + b) / three)%D.
Proof.
  destruct a as [qa | | |]; destruct b as [qb | | |]; cbn; try tauto.
  intros [A1 A2] [B1 B2].
  unfold Qdiv. change (/ (3 # 1)) with (1 # 3). split; lra.
Qed.

(** What the snappers do to a clamped coordinate. *)
Lemma snap_half_range d :
  in_range qmin qmax d -> in_range qmin (qmax + (1 # 2)) (snap_half d).
Proof.
  destruct d as [q | | |]; try (cbn; tauto).
  intros H. change (qmin <= q <= qmax) in H. destruct H as [H1 H2].
  unfold qmin, qmax in *.
  assert (B52 : two_power 52 == 4503599627370496) by reflexivity.
  rewrite snap_half_exact by (rewrite B52; lra).
  change (- (4194304 # 1) <= Qred (inject_Z (Qfloor q) + (1 # 2))
          <= (4194304 # 1) + (1 # 2)).
  rewrite Qred_correct.
  pose proof (Qfloor_le q) as F1.
  assert (F2 : inject_Z (-4194304) <= inject_Z (Qfloor q)).
  { rewrite <- Zle_Qle. apply (Qfloor_resp_le (inject_Z (-4194304)) q) in H1.
    now rewrite Qfloor_Z in H1. }
  change (inject_Z (-4194304)) with (- (4194304 # 1)) in F2.
  split; lra.
Qed.

Lemma snap_round_range d :
  in_range qmin qmax d -> in_range qmin qmax (snap_round d).
Proof.
  destruct d as [q | | |]; cbn; try tauto. intros [H1 H2].
  unfold Qround_away.
  destruct (Qltb q 0) eqn:E.
  - apply Qltb_lt in E.
    assert (C1 : (-4194304 <= Qceiling (q - (1 # 2)))%Z).
    { assert (L : inject_Z (-4194304) - 1 < q - (1 # 2)).
      { unfold qmin in H1. change (inject_Z (-4194304)) with (- (4194304 # 1)). lra. }
      pose proof (Qle_ceiling (q - (1 # 2))) as U.
      assert (L2 : inject_Z (-4194304 - 1) < inject_Z (Qceiling (q - (1 # 2)))).
      { change (inject_Z (-4194304 - 1)) with (inject_Z (-4194304) - 1). lra. }
      rewrite <- Zlt_Qlt in L2. lia. }
    assert (C2 : (Qceiling (q - (1 # 2)) <= 0)%Z).
    { assert (U : q - (1 # 2) <= inject_Z 0) by (change (inject_Z 0) with 0; lra).
      apply Qceiling_resp_le in U. now rewrite Qceiling_Z in U. }
    rewrite Zle_Qle in C1, C2. unfold qmin, qmax.
    change (inject_Z (-4194304)) with (- (4194304 # 1)) in C1.
    change (inject_Z 0) with 0 in C2. split; lra.
  - apply Qltb_ge in E.
    assert (C1 : (0 <= Qfloor (q + (1 # 2)))%Z).
    { assert (U : inject_Z 0 <= q + (1 # 2)) by (change (inject_Z 0) with 0; lra).
      apply Qfloor_resp_le in U. now rewrite Qfloor_Z in U. }
    assert (C2 : (Qfloor (q + (1 # 2)) <= 4194304)%Z).
    { pose proof (Qfloor_le (q + (1 # 2))) as L.
      assert (L2 : inject_Z (Qfloor (q + (1 # 2))) < inject_Z (4194304 + 1)).
      { change (inject_Z (4194304 + 1)) with ((4194304 # 1) + 1).
        unfold qmax in H2. lra. }
      rewrite <- Zlt_Qlt in L2. lia. }
    rewrite Zle_Qle in C1, C2. unfold qmin, qmax.
    change (inject_Z 4194304) with (4194304 # 1) in C2.
    change (inject_Z 0) with 0 in C1. split; lra.
Qed.

Lemma snapper_general_range snap lw d :
  in_range qmin qmax d ->
  in_range qmin (qmax + (1 # 2)) (snapper_general snap lw d).
Proof.
  intros H. unfold snapper_general.
  destruct snap.
  - destruct ((Fin 0 <? lw)%D && ((lw <? Fin 1)%D || lround_is_odd lw)).
    + now apply snap_half_range.
    + apply in_range_weaken with (hi := qmax); [lra |].
      now apply snap_round_range.
  - apply in_range_weaken with (hi := qmax); [lra | exact H].
Qed.

Section GeneralRange.

Variable snapper : double -> double.
Variable hi : Q.
Hypothesis Hhi : qmax <= hi.
Hypothesis Hsnapper :
  forall d, in_range qmin qmax d -> in_range qmin hi (snapper d).

Let ok := path_in_range qmin hi.

Lemma calls_in_range_snoc l c :
  calls_in_range qmin hi l ->
  Forall (in_range qmin hi) (call_coords c) ->
  calls_in_range qmin hi (l ++ [c]).
Proof.
  intros Hl Hc. unfold calls_in_range. apply Forall_app. split; [exact Hl |].
  constructor; [exact Hc | constructor].
Qed.

Lemma do_move_to_ok p x y :
  ok p -> in_range qmin hi x -> in_range qmin hi y -> ok (do_move_to p x y).
Proof.
  intros (Hc & Hp & Hm) Hx Hy. repeat split; cbn; auto.
  apply calls_in_range_snoc; [exact Hc |]. cbn. auto.
Qed.

Lemma do_line_to_ok p x y :
  ok p -> in_range qmin hi x -> in_range qmin hi y -> ok (do_line_to p x y).
Proof.
  intros (Hc & Hp & Hm) Hx Hy. split; [| split]; cbn.
  - apply calls_in_range_snoc; [exact Hc |]. cbn. auto.
  - auto.
  - destruct (current_point p); cbn; auto.
Qed.

Lemma do_curve_to_ok p x1 y1 x2 y2 x3 y3 :
  ok p ->
  in_range qmin hi x1 -> in_range qmin hi y1 ->
  in_range qmin hi x2 -> in_range qmin hi y2 ->
  in_range qmin hi x3 -> in_range qmin hi y3 ->
  ok (do_curve_to p x1 y1 x2 y2 x3 y3).
Proof.
  intros (Hc & Hp & Hm) H1 H2 H3 H4 H5 H6. split; [| split]; cbn.
  - apply calls_in_range_snoc; [exact Hc |]. cbn. auto 10.
  - auto.
  - destruct (current_point p); cbn; auto.
Qed.

Lemma do_close_path_ok p : ok p -> ok (do_close_path p).
Proof.
  intros (Hc & Hp & Hm). split; [| split]; cbn.
  - apply calls_in_range_snoc; [exact Hc |]. cbn. constructor.
  - destruct (current_point p); cbn; auto.
  - exact Hm.
Qed.

Lemma do_new_sub_path_ok p : ok p -> ok (do_new_sub_path p).
Proof.
  intros (Hc & Hp & Hm). split; [| split]; cbn; auto.
  apply calls_in_range_snoc; [exact Hc |]. cbn. constructor.
Qed.

Lemma clamped_ok x :
  isfinite x = true -> in_range qmin hi (clamp x dmin dmax).
Proof.
  intros H. apply in_range_weaken with (hi := qmax); [exact Hhi |].
  now apply clamp_of_finite.
Qed.

Lemma snapped_ok x :
  isfinite x = true -> in_range qmin hi (snapper (clamp x dmin dmax)).
Proof. intros H. apply Hsnapper. now apply clamp_of_finite. Qed.

Variable vertices_ : array2.
Variable codes_ : list Z.
Variable matrix_ : cairo_matrix_t.

Lemma general_step_ok i p i' p' :
  ok p ->
  general_step snapper vertices_ codes_ matrix_ i p = Ok (i', p') ->
  ok p'.
Proof.
  intros Hp H. unfold general_step in H.
  bind_inv H v Ev.
  destruct (cairo_matrix_transform_point matrix_ v) as [tx ty].
  bind_inv H c Ec.
  destruct (path_code_of_int c) as [[| | | | |] |].
  - injection H as _ <-. exact Hp.
  - destruct (isfinite tx) eqn:Fx; destruct (isfinite ty) eqn:Fy;
      cbn [andb] in H; injection H as _ <-;
      try (now apply do_new_sub_path_ok).
    apply do_move_to_ok; auto using snapped_ok.
  - destruct (isfinite tx) eqn:Fx; destruct (isfinite ty) eqn:Fy;
      cbn [andb] in H; injection H as _ <-;
      try (now apply do_new_sub_path_ok).
    apply do_line_to_ok; auto using snapped_ok.
  - bind_inv H v1 Ev1.
    destruct (cairo_matrix_transform_point matrix_ v1) as [tx1 ty1].
    destruct (isfinite tx1) eqn:Fx1; destruct (isfinite ty1) eqn:Fy1;
      cbn [andb] in H;
      try (injection H as _ <-; now apply do_new_sub_path_ok).
    destruct (isfinite tx && isfinite ty) eqn:F.
    + apply andb_true_iff in F as [Fx Fy].
      pose proof Hp as (Hc & Hcur & Hm).
      destruct (current_point p) as [[px py] |] eqn:Ecur.
      * injection H as _ <-. destruct Hcur as [Hpx Hpy].
        apply do_curve_to_ok; auto using snapped_ok.
        -- apply third_in_range; auto using clamp_of_finite.
        -- apply third_in_range; auto using clamp_of_finite.
        -- apply in_range_weaken with (hi := qmax); [exact Hhi |].
           apply third_in_range'; auto using clamp_of_finite.
        -- apply in_range_weaken with (hi := qmax); [exact Hhi |].
           apply third_in_range'; auto using clamp_of_finite.
      * injection H as _ <-. apply do_move_to_ok; auto using snapped_ok.
    + injection H as _ <-. apply do_move_to_ok; auto using snapped_ok.
  - bind_inv H v1 Ev1. bind_inv H v2 Ev2.
    destruct (cairo_matrix_transform_point matrix_ v1) as [tx1 ty1].
    destruct (cairo_matrix_transform_point matrix_ v2) as [tx2 ty2].
    destruct (isfinite tx2) eqn:Fx2; destruct (isfinite ty2) eqn:Fy2;
      cbn [andb] in H;
      try (injection H as _ <-; now apply do_new_sub_path_ok).
    destruct (isfinite tx && isfinite ty
              && isfinite (clamp tx1 dmin dmax)
              && isfinite (clamp ty1 dmin dmax)
              && has_current_point p) eqn:F.
    + injection H as _ <-.
      rewrite !andb_true_iff in F.
      destruct F as [[[[Fx Fy] Fx1] Fy1] _].
      apply do_curve_to_ok; auto using snapped_ok, clamped_ok.
      * apply in_range_weaken with (hi := qmax); [exact Hhi |].
        now apply clamp_isfinite.
      * apply in_range_weaken with (hi := qmax); [exact Hhi |].
        now apply clamp_isfinite.
    + injection H as _ <-. apply do_move_to_ok; auto using snapped_ok.
  - injection H as _ <-. now apply do_close_path_ok.
  - injection H as _ <-. exact Hp.
Qed.

Lemma general_loop_ok fuel :
  forall n i p p',
    ok p ->
    general_loop snapper vertices_ codes_ matrix_ fuel n i p = Ok p' ->
    ok p'.
Proof.
  induction fuel as [| fuel IH]; intros n i p p' Hp H; cbn [general_loop] in H.
  - injection H as <-. exact Hp.
  - destruct (i <? n)%Z.
    + bind_inv H ip Es. destruct ip as [i1 p1].
      apply (IH n (i1 + 1)%Z p1 p'); [| exact H].
      eapply general_step_ok; eauto.
    + injection H as <-. exact Hp.
Qed.

End GeneralRange.

Lemma empty_path_in_range lo hi : path_in_range lo hi empty_path.
Proof. repeat split; cbn; constructor. Qed.




(** ** Cohen-Sutherland clipping in the codeless overload *)

Lemma outcode_Fin (x y : Q) :
  outcode (Fin x) (Fin y)
  = Z.lor (if Qltb x qmin then 1 else if Qltb qmax x then 2 else 0)
          (if Qltb y qmin then 4 else if Qltb qmax y then 8 else 0).
Proof.
  unfold outcode, dmin, dmax. cbn [ltb].
  destruct (Qltb x qmin); destruct (Qltb qmax x);
    destruct (Qltb y qmin); destruct (Qltb qmax y); reflexivity.
Qed.

(** The three positions of a coordinate relative to the box. *)
Lemma coord_cases (x : Q) :
  (Qltb x qmin = true /\ x < qmin)
  \/ (Qltb x qmin = false /\ Qltb qmax x = true /\ qmax < x)
  \/ (Qltb x qmin = false /\ Qltb qmax x = false /\ qmin <= x /\ x <= qmax).
Proof.
  destruct (Qltb x qmin) eqn:E1.
  - left. split; [reflexivity | now apply Qltb_lt].
  - right. apply Qltb_ge in E1.
    destruct (Qltb qmax x) eqn:E2.
    + left. repeat split. now apply Qltb_lt.
    + right. apply Qltb_ge in E2. repeat split; assumption.
Qed.

Ltac coord_cases x :=
  let E1 := fresh "E" in
  let E2 := fresh "E" in
  let H := fresh "H" in
  let H' := fresh "H" in
  destruct (coord_cases x) as [[E1 H] | [[E1 [E2 H]] | [E1 [E2 [H H']]]]];
  rewrite ?E1, ?E2 in *.

Lemma outcode_zero (p : qpoint) : outcode_of p = 0%Z <-> in_box p.
Proof.
  destruct p as [x y]. unfold outcode_of, in_box. cbn [fst snd].
  rewrite outcode_Fin. pose proof qmin_le_qmax as Hmm.
  coord_cases x; coord_cases y; cbn; split; intros K;
    try discriminate; try reflexivity; try lra.
Qed.

Lemma outcode_side (s : side) (p : qpoint) :
  nonzero (Z.land (outcode_of p)
             match s with
             | side_top => TOP | side_bottom => BOTTOM
             | side_right => RIGHT | side_left => LEFT
             end) = true
  <-> beyond s p.
Proof.
  destruct p as [x y]. unfold outcode_of, beyond. cbn [fst snd].
  rewrite outcode_Fin. pose proof qmin_le_qmax as Hmm.
  destruct s; coord_cases x; coord_cases y; cbn; split; intros K;
    try discriminate; try reflexivity; try lra.
Qed.

Lemma outcode_shared (p q : qpoint) :
  nonzero (Z.land (outcode_of p) (outcode_of q)) = true
  <-> exists s, beyond s p /\ beyond s q.
Proof.
  destruct p as [x y], q as [u v]. unfold outcode_of. cbn [fst snd].
  rewrite !outcode_Fin. pose proof qmin_le_qmax as Hmm.
  split.
  - coord_cases x; coord_cases y; coord_cases u; coord_cases v; cbn;
      intros K; try discriminate;
      first [ exists side_top; cbn; split; assumption
            | exists side_bottom; cbn; split; assumption
            | exists side_right; cbn; split; assumption
            | exists side_left; cbn; split; assumption ].
  - intros [s [B1 B2]].
    destruct s; cbn in B1, B2;
      coord_cases x; coord_cases y; coord_cases u; coord_cases v; cbn;
      try reflexivity; lra.
Qed.

Lemma outcode_bits (p : qpoint) :
  nonzero (Z.land (outcode_of p) TOP) = Qltb qmax (snd p)
  /\ nonzero (Z.land (outcode_of p) BOTTOM) = Qltb (snd p) qmin
  /\ (nonzero (Z.land (outcode_of p) RIGHT) = Qltb qmax (fst p))
  /\ nonzero (Z.land (outcode_of p) LEFT) = Qltb (fst p) qmin.
Proof.
  destruct p as [x y]. unfold outcode_of. cbn [fst snd].
  rewrite outcode_Fin. pose proof qmin_le_qmax as Hmm.
  coord_cases x; coord_cases y; cbn; repeat split; try reflexivity;
    symmetry; first [ apply Qltb_ge; lra | apply Qltb_lt; lra ].
Qed.

Lemma first_side_beyond (p : qpoint) (s : side) :
  first_side p = Some s -> beyond s p.
Proof.
  unfold first_side, beyond.
  destruct (Qltb qmax (snd p)) eqn:E1;
    [intros H; injection H as <-; now apply Qltb_lt |].
  destruct (Qltb (snd p) qmin) eqn:E2;
    [intros H; injection H as <-; now apply Qltb_lt |].
  destruct (Qltb qmax (fst p)) eqn:E3;
    [intros H; injection H as <-; now apply Qltb_lt |].
  destruct (Qltb (fst p) qmin) eqn:E4;
    [intros H; injection H as <-; now apply Qltb_lt | discriminate].
Qed.

Lemma first_side_none (p : qpoint) : first_side p = None <-> in_box p.
Proof.
  unfold first_side, in_box.
  destruct (Qltb qmax (snd p)) eqn:E1;
    [apply Qltb_lt in E1; split; [discriminate | lra] |].
  destruct (Qltb (snd p) qmin) eqn:E2;
    [apply Qltb_lt in E2; split; [discriminate | lra] |].
  destruct (Qltb qmax (fst p)) eqn:E3;
    [apply Qltb_lt in E3; split; [discriminate | lra] |].
  destruct (Qltb (fst p) qmin) eqn:E4;
    [apply Qltb_lt in E4; split; [discriminate | lra] |].
  apply Qltb_ge in E1, E2, E3, E4. split; [intros _; lra | reflexivity].
Qed.

(** The formula of the loop, on finite values with a non-zero divisor. *)
Lemma interpolate_Fin (a b c d e : Q) :
  ~ e - d == 0 ->
  (Fin a + (Fin b - Fin a) * (Fin c - Fin d) / (Fin e - Fin d))%D
  = Fin (a + (b - a) * (c - d) / (e - d)).
Proof.
  intros H. cbn.
  change (e + - d) with (e - d).
  destruct (Qeq_bool (e - d) 0) eqn:E.
  - apply Qeq_bool_iff in E. contradiction.
  - reflexivity.
Qed.

(** The intersection the loop computes for the first side a point lies
    beyond, the other end of the segment not lying beyond it. *)
Lemma clip_point_spec (s : clip_vars) (p q a : qpoint) (sd : side) :
  represents s p q ->
  first_side a = Some sd ->
  (beyond sd p /\ ~ beyond sd q) \/ (beyond sd q /\ ~ beyond sd p) ->
  clip_point s (outcode_of a) = dpoint (clip_at sd p q).
Proof.
  intros (Rxp & Ryp & Rx & Ry & _ & _) Hfs Hb.
  destruct (outcode_bits a) as (Bt & Bb & Br & Bl).
  unfold clip_point. rewrite Bt, Bb, Br, Bl, Rxp, Ryp, Rx, Ry.
  destruct p as [xp yp], q as [xq yq]. cbn [fst snd] in *.
  unfold first_side in Hfs. unfold dpoint, clip_at, dmax, dmin.
  destruct (Qltb qmax (snd a));
    [injection Hfs as <-; cbn [beyond fst snd] in Hb;
     rewrite interpolate_Fin by lra; reflexivity |].
  destruct (Qltb (snd a) qmin);
    [injection Hfs as <-; cbn [beyond fst snd] in Hb;
     rewrite interpolate_Fin by lra; reflexivity |].
  destruct (Qltb qmax (fst a));
    [injection Hfs as <-; cbn [beyond fst snd] in Hb;
     rewrite interpolate_Fin by lra; reflexivity |].
  destruct (Qltb (fst a) qmin);
    [injection Hfs as <-; cbn [beyond fst snd] in Hb;
     rewrite interpolate_Fin by lra; reflexivity |].
  discriminate.
Qed.

Lemma nonzero_false (z : Z) : nonzero z = false <-> z = 0%Z.
Proof. unfold nonzero. rewrite negb_false_iff. apply Z.eqb_eq. Qed.

Lemma nonzero_true (z : Z) : nonzero z = true <-> z <> 0%Z.
Proof. unfold nonzero. rewrite negb_true_iff. apply Z.eqb_neq. Qed.

Lemma first_side_some (p : qpoint) :
  ~ in_box p -> exists sd, first_side p = Some sd.
Proof.
  intros H. destruct (first_side p) as [sd |] eqn:E; [eauto |].
  apply first_side_none in E. contradiction.
Qed.

(** One pass of the loop, read on the points its variables hold: it
    accepts when both are in the box, rejects when both lie beyond one
    side, and otherwise replaces the previous point, if it is outside the
    box, or else the current point, by the intersection with the first
    side it lies beyond. *)
Lemma clip_iter_spec (s : clip_vars) (p q : qpoint) :
  represents s p q ->
  (in_box p /\ in_box q /\ clip_iter s = inl true)
  \/ ((exists sd, beyond sd p /\ beyond sd q) /\ clip_iter s = inl false)
  \/ (exists sd s',
        first_side p = Some sd /\ ~ beyond sd q
        /\ clip_iter s = inr s'
        /\ represents s' (clip_at sd p q) q
        /\ cv_update_prev s' = true)
  \/ (exists sd s',
        in_box p /\ first_side q = Some sd
        /\ clip_iter s = inr s'
        /\ represents s' p (clip_at sd p q)
        /\ cv_update_prev s' = cv_update_prev s).
Proof.
  intros R. pose proof R as (Rxp & Ryp & Rx & Ry & R0 & R1).
  unfold clip_iter. rewrite R0, R1.
  destruct (nonzero (Z.lor (outcode_of p) (outcode_of q))) eqn:Elor; cbn [negb].
  2:{ left. apply nonzero_false in Elor. apply Z.lor_eq_0_iff in Elor.
      destruct Elor as [Z0 Z1]. apply outcode_zero in Z0, Z1. auto. }
  destruct (nonzero (Z.land (outcode_of p) (outcode_of q))) eqn:Eland.
  { right; left. apply outcode_shared in Eland. auto. }
  assert (Hns : forall sd, beyond sd p -> beyond sd q -> False).
  { intros sd B0 B1.
    assert (K : nonzero (Z.land (outcode_of p) (outcode_of q)) = true)
      by (apply outcode_shared; eauto).
    congruence. }
  destruct (nonzero (outcode_of p)) eqn:E0.
  - right; right; left.
    assert (Hp : ~ in_box p).
    { intros K. apply outcode_zero in K. apply nonzero_true in E0. auto. }
    destruct (first_side_some Hp) as [sd Hsd].
    pose proof (first_side_beyond _ Hsd) as Bp.
    assert (Bq : ~ beyond sd q) by (intros K; exact (Hns sd Bp K)).
    rewrite (@clip_point_spec s p q p sd R Hsd) by (left; auto).
    unfold dpoint. rewrite Z.eqb_refl.
    eexists sd, _. split; [exact Hsd |]. split; [exact Bq |].
    split; [reflexivity |]. split; [| reflexivity].
    unfold represents. cbn. repeat split; auto.
  - right; right; right.
    apply nonzero_false in E0.
    assert (Hp : in_box p) by (now apply outcode_zero).
    assert (Hq : ~ in_box q).
    { intros K. apply outcode_zero in K. apply nonzero_true in Elor.
      apply Elor. rewrite E0, K. reflexivity. }
    destruct (first_side_some Hq) as [sd Hsd].
    pose proof (first_side_beyond _ Hsd) as Bq.
    assert (Bp : ~ beyond sd p) by (intros K; exact (Hns sd K Bq)).
    rewrite (@clip_point_spec s p q q sd R Hsd) by (right; auto).
    unfold dpoint.
    assert (Hne : (outcode_of q =? outcode_of p)%Z = false).
    { apply Z.eqb_neq. rewrite E0. intros K.
      apply outcode_zero in K. contradiction. }
    rewrite Hne.
    eexists sd, _. split; [exact Hp |]. split; [exact Hsd |].
    split; [reflexivity |]. split; [| reflexivity].
    unfold represents. cbn. repeat split; auto.
Qed.

(** *** The geometry of one clip *)

Lemma beyond_level (sd : side) (p : qpoint) : beyond sd p <-> 0 < level sd p.
Proof. destruct sd; cbn; split; intros; lra. Qed.

Lemma beyondb_true (sd : side) (p : qpoint) :
  beyondb sd p = true <-> beyond sd p.
Proof. unfold beyondb. rewrite Qltb_lt. symmetry. apply beyond_level. Qed.

Lemma in_box_level (p : qpoint) : in_box p <-> forall sd, level sd p <= 0.
Proof.
  unfold in_box. split.
  - intros H sd. destruct sd; cbn; lra.
  - intros H.
    pose proof (H side_top). pose proof (H side_bottom).
    pose proof (H side_right). pose proof (H side_left). cbn in *. lra.
Qed.

Lemma on_side_level (sd : side) (p : qpoint) : on_side sd p -> level sd p == 0.
Proof. destruct sd; cbn; intros ->; lra. Qed.

(** Along a segment the level of a side is an affine function of the
    parameter. *)
Lemma level_at_param (sd : side) (a b p : qpoint) (t : Q) :
  at_param a b t p ->
  level sd p == level sd a + t * (level sd b - level sd a).
Proof.
  intros [Hx Hy]. destruct sd; cbn; rewrite ?Hx, ?Hy; ring.
Qed.

Lemma at_param_compose (p0 q0 a b n : qpoint) (al be t : Q) :
  at_param p0 q0 al a -> at_param p0 q0 be b -> at_param a b t n ->
  at_param p0 q0 (al + t * (be - al)) n.
Proof.
  intros [Ax Ay] [Bx By] [Nx Ny]. split.
  - rewrite Nx, Bx, Ax. ring.
  - rewrite Ny, By, Ay. ring.
Qed.

(** A quotient of two numbers of one sign, the divisor the larger. *)
Lemma ratio_unit (d e : Q) :
  (d < 0 /\ d <= e /\ e <= 0) \/ (0 < d /\ 0 <= e /\ e <= d) ->
  0 <= e / d /\ e / d <= 1.
Proof.
  intros H.
  assert (Hd : ~ d == 0) by (destruct H; lra).
  assert (E : (e / d) * d == e) by (field; exact Hd).
  destruct H as [(H1 & H2 & H3) | (H1 & H2 & H3)]; split.
  - destruct (Qlt_le_dec (e / d) 0) as [K | K]; [| exact K].
    assert (0 < (e / d) * d) by nra. lra.
  - destruct (Qlt_le_dec 1 (e / d)) as [K | K]; [| exact K].
    assert ((e / d) * d < d) by nra. lra.
  - destruct (Qlt_le_dec (e / d) 0) as [K | K]; [| exact K].
    assert ((e / d) * d < 0) by nra. lra.
  - destruct (Qlt_le_dec 1 (e / d)) as [K | K]; [| exact K].
    assert (d < (e / d) * d) by nra. lra.
Qed.

(** The point the loop computes lies on the line of the side and is a
    point of the segment. *)
Lemma clip_at_spec (sd : side) (a b : qpoint) :
  (beyond sd a /\ ~ beyond sd b) \/ (beyond sd b /\ ~ beyond sd a) ->
  on_side sd (clip_at sd a b)
  /\ exists t, (0 <= t /\ t <= 1) /\ at_param a b t (clip_at sd a b).
Proof.
  intros H. destruct a as [xa ya], b as [xb yb].
  destruct sd; cbn [beyond fst snd] in H; (split; [reflexivity |]).
  - exists ((qmax - ya) / (yb - ya)). split.
    + apply ratio_unit. lra.
    + split; cbn [clip_at fst snd]; field; lra.
  - exists ((qmin - ya) / (yb - ya)). split.
    + apply ratio_unit. lra.
    + split; cbn [clip_at fst snd]; field; lra.
  - exists ((qmax - xa) / (xb - xa)). split.
    + apply ratio_unit. lra.
    + split; cbn [clip_at fst snd]; field; lra.
  - exists ((qmin - xa) / (xb - xa)). split.
    + apply ratio_unit. lra.
    + split; cbn [clip_at fst snd]; field; lra.
Qed.

(** A point between two points that do not lie beyond a side does not lie
    beyond it. *)
Lemma between_not_beyond (sd : side) (a b n : qpoint) (t : Q) :
  0 <= t -> t <= 1 -> at_param a b t n ->
  beyond sd n -> beyond sd a \/ beyond sd b.
Proof.
  intros T0 T1 Hn Bn. rewrite !beyond_level in *.
  rewrite (level_at_param sd Hn) in Bn.
  destruct (Qlt_le_dec 0 (level sd a)) as [K | K]; [left; exact K |].
  destruct (Qlt_le_dec 0 (level sd b)) as [K' | K']; [right; exact K' |].
  exfalso. nra.
Qed.

(** A point between two points that lie beyond a side lies beyond it. *)
Lemma between_beyond (f0 df a b t : Q) :
  a <= t -> t <= b ->
  0 < f0 + a * df -> 0 < f0 + b * df -> 0 < f0 + t * df.
Proof.
  intros H1 H2 Ha Hb.
  destruct (Qlt_le_dec df 0) as [K | K]; nra.
Qed.

(** The part of a segment cut off on the side of its first end holds no
    point at or below the level of the cut. *)
Lemma cut_first (f0 df a c s : Q) :
  0 < f0 + a * df -> f0 + c * df == 0 -> a <= c ->
  f0 + s * df <= 0 -> c <= s.
Proof.
  intros Ha Hc Hac Hs.
  destruct (Qlt_le_dec s c) as [K | K]; [exfalso | exact K].
  destruct (Qlt_le_dec df 0) as [D | D]; nra.
Qed.

Lemma cut_last (f0 df b c s : Q) :
  0 < f0 + b * df -> f0 + c * df == 0 -> c <= b ->
  f0 + s * df <= 0 -> s <= c.
Proof.
  intros Hb Hc Hcb Hs.
  destruct (Qlt_le_dec c s) as [K | K]; [exfalso | exact K].
  destruct (Qlt_le_dec df 0) as [D | D]; nra.
Qed.

Lemma beyondb_false (sd : side) (p : qpoint) :
  beyondb sd p = false <-> ~ beyond sd p.
Proof.
  rewrite <- beyondb_true. destruct (beyondb sd p); split; intros H;
    try reflexivity; try discriminate; try (intros K; discriminate).
  exfalso; apply H; reflexivity.
Qed.

Lemma on_side_not_beyond (sd : side) (n : qpoint) :
  on_side sd n -> ~ beyond sd n.
Proof.
  intros H B. apply on_side_level in H. apply beyond_level in B. lra.
Qed.

Lemma side_count_le (s : side) (p q p' q' : qpoint) :
  (beyond s p' \/ beyond s q' -> beyond s p \/ beyond s q) ->
  (side_count s p' q' <= side_count s p q)%nat.
Proof.
  intros H. unfold side_count.
  destruct (beyondb s p' || beyondb s q') eqn:E'; [| lia].
  assert (K : beyondb s p || beyondb s q = true).
  { apply orb_true_iff. rewrite !beyondb_true.
    apply H. rewrite <- !beyondb_true. now apply orb_true_iff. }
  rewrite K. lia.
Qed.

Lemma side_count_lt (s : side) (p q p' q' : qpoint) :
  ~ beyond s p' -> ~ beyond s q' -> beyond s p \/ beyond s q ->
  (side_count s p' q' < side_count s p q)%nat.
Proof.
  intros Hp Hq H. unfold side_count.
  apply beyondb_false in Hp, Hq. rewrite Hp, Hq. cbn [orb].
  assert (K : beyondb s p || beyondb s q = true).
  { apply orb_true_iff. now rewrite !beyondb_true. }
  rewrite K. lia.
Qed.

(** Replacing an end of the segment by its intersection with the line of
    a side it lies beyond, the other end not, leaves fewer sides with a
    point beyond them. *)
Lemma sides_beyond_decreases (sd : side) (p q n p' q' : qpoint) (t : Q) :
  0 <= t -> t <= 1 -> at_param p q t n -> on_side sd n ->
  (beyond sd p /\ ~ beyond sd q /\ p' = n /\ q' = q)
  \/ (beyond sd q /\ ~ beyond sd p /\ p' = p /\ q' = n) ->
  (sides_beyond p' q' < sides_beyond p q)%nat.
Proof.
  intros T0 T1 Hn Hs H.
  assert (Hle : forall s, (side_count s p' q' <= side_count s p q)%nat).
  { intros s. apply side_count_le.
    destruct H as [(B & NB & -> & ->) | (B & NB & -> & ->)].
    - intros [K | K]; [| right; exact K].
      exact (between_not_beyond s T0 T1 Hn K).
    - intros [K | K]; [left; exact K |].
      exact (between_not_beyond s T0 T1 Hn K). }
  assert (Hlt : (side_count sd p' q' < side_count sd p q)%nat).
  { pose proof (on_side_not_beyond _ _ Hs) as NBn.
    destruct H as [(B & NB & -> & ->) | (B & NB & -> & ->)];
      apply side_count_lt; auto. }
  pose proof (Hle side_top). pose proof (Hle side_bottom).
  pose proof (Hle side_right). pose proof (Hle side_left).
  unfold sides_beyond. destruct sd; lia.
Qed.

Lemma sides_beyond_le_4 (p q : qpoint) : (sides_beyond p q <= 4)%nat.
Proof.
  unfold sides_beyond, side_count.
  destruct (beyondb side_top p || beyondb side_top q);
    destruct (beyondb side_bottom p || beyondb side_bottom q);
    destruct (beyondb side_right p || beyondb side_right q);
    destruct (beyondb side_left p || beyondb side_left q); cbn; lia.
Qed.

(** *** The invariant of the loop *)

Lemma clip_invariant_start (p q : qpoint) : clip_invariant p q p q false.
Proof.
  exists 0, 1. split; [lra |].
  split; [split; cbn; ring |]. split; [split; cbn; ring |].
  split; [intros; lra |]. split; [reflexivity | left; reflexivity].
Qed.

Lemma clip_invariant_prev (p0 q0 p q : qpoint) (upd : bool) (sd : side) :
  clip_invariant p0 q0 p q upd ->
  beyond sd p -> ~ beyond sd q ->
  clip_invariant p0 q0 (clip_at sd p q) q true.
Proof.
  intros (al & be & (A0 & AB & B1) & Hp & Hq & Hcut & Fp & Fq) Bp NBq.
  destruct (@clip_at_spec sd p q) as (Hs & t & (T0 & T1) & Hn); [left; auto |].
  exists (al + t * (be - al)), be.
  split; [nra |].
  split; [exact (at_param_compose Hp Hq Hn) |].
  split; [exact Hq |].
  split; [| split].
  3:{ destruct Fq as [-> | [K _]]; [left; reflexivity |].
      exfalso. apply in_box_level with (sd := sd) in K.
      apply beyond_level in Bp. lra. }
  - intros tau x Tau0 Tau1 Hx Bx.
    destruct (Hcut tau x Tau0 Tau1 Hx Bx) as [C1 C2]. split; [| exact C2].
    apply (@cut_first (level sd p0) (level sd q0 - level sd p0) al).
    + rewrite <- (level_at_param sd Hp). now apply beyond_level.
    + rewrite <- (level_at_param sd (at_param_compose Hp Hq Hn)).
      now apply on_side_level.
    + nra.
    + rewrite <- (level_at_param sd Hx). now apply in_box_level.
  - split; [| exists sd; exact Hs].
    destruct upd; [exact (proj1 Fp) |]. subst p.
    intros K. apply in_box_level with (sd := sd) in K.
    apply beyond_level in Bp. lra.
Qed.

Lemma clip_invariant_cur (p0 q0 p q : qpoint) (upd : bool) (sd : side) :
  clip_invariant p0 q0 p q upd ->
  beyond sd q -> in_box p ->
  clip_invariant p0 q0 p (clip_at sd p q) upd.
Proof.
  intros (al & be & (A0 & AB & B1) & Hp & Hq & Hcut & Fp & Fq) Bq Ip.
  assert (NBp : ~ beyond sd p).
  { intros K. apply in_box_level with (sd := sd) in Ip.
    apply beyond_level in K. lra. }
  destruct (@clip_at_spec sd p q) as (Hs & t & (T0 & T1) & Hn); [right; auto |].
  exists al, (al + t * (be - al)).
  split; [nra |].
  split; [exact Hp |].
  split; [exact (at_param_compose Hp Hq Hn) |].
  split; [| split; [exact Fp |]].
  - intros tau x Tau0 Tau1 Hx Bx.
    destruct (Hcut tau x Tau0 Tau1 Hx Bx) as [C1 C2]. split; [exact C1 |].
    apply (@cut_last (level sd p0) (level sd q0 - level sd p0) be).
    + rewrite <- (level_at_param sd Hq). now apply beyond_level.
    + rewrite <- (level_at_param sd (at_param_compose Hp Hq Hn)).
      now apply on_side_level.
    + nra.
    + rewrite <- (level_at_param sd Hx). now apply in_box_level.
  - right. split; [exact Ip |]. split; [| exists sd; exact Hs].
    destruct Fq as [-> | (_ & K & _)]; [| exact K].
    intros K. apply in_box_level with (sd := sd) in K.
    apply beyond_level in Bq. lra.
Qed.

(** The loop leaves through a [break] within [sides_beyond + 1] passes,
    with its invariant, and accepts exactly when both points are in the
    box. *)
Lemma clip_loop_spec (p0 q0 : qpoint) (fuel : nat) :
  forall (s : clip_vars) (p q : qpoint),
    represents s p q ->
    clip_invariant p0 q0 p q (cv_update_prev s) ->
    (sides_beyond p q < fuel)%nat ->
    exists accept s' p' q',
      clip_loop fuel s = Some (accept, s')
      /\ represents s' p' q'
      /\ clip_invariant p0 q0 p' q' (cv_update_prev s')
      /\ (if accept : bool
          then in_box p' /\ in_box q'
          else exists sd, beyond sd p' /\ beyond sd q').
Proof.
  induction fuel as [| fuel IH]; intros s p q R I M; [lia |].
  cbn [clip_loop].
  destruct (clip_iter_spec R)
    as [(Ip & Iq & E)
       | [(Hsh & E)
         | [(sd & s' & Hsd & NBq & E & R' & U)
           | (sd & s' & Ip & Hsd & E & R' & U)]]]; rewrite E.
  - exists true, s, p, q. auto.
  - exists false, s, p, q. auto.
  - pose proof (first_side_beyond _ Hsd) as Bp.
    destruct (@clip_at_spec sd p q) as (Hs & t & (T0 & T1) & Hn);
      [left; auto |].
    apply (IH s' (clip_at sd p q) q R').
    + rewrite U. exact (@clip_invariant_prev p0 q0 p q _ sd I Bp NBq).
    + assert (D : (sides_beyond (clip_at sd p q) q < sides_beyond p q)%nat).
      { apply (@sides_beyond_decreases sd p q (clip_at sd p q) _ _ t);
          auto. }
      lia.
  - pose proof (first_side_beyond _ Hsd) as Bq.
    assert (NBp : ~ beyond sd p).
    { intros K. apply in_box_level with (sd := sd) in Ip.
      apply beyond_level in K. lra. }
    destruct (@clip_at_spec sd p q) as (Hs & t & (T0 & T1) & Hn);
      [right; auto |].
    apply (IH s' p (clip_at sd p q) R').
    + rewrite U. exact (@clip_invariant_cur p0 q0 p q _ sd I Bq Ip).
    + assert (D : (sides_beyond p (clip_at sd p q) < sides_beyond p q)%nat).
      { apply (@sides_beyond_decreases sd p q (clip_at sd p q) _ _ t);
          auto 6. }
      lia.
Qed.

Lemma represents_start (p q : qpoint) :
  represents (clip_start (Fin (fst p)) (Fin (snd p)) (Fin (fst q)) (Fin (snd q)))
    p q.
Proof. unfold represents, clip_start, outcode_of. cbn. repeat split. Qed.

Lemma in_boxb_true (p : qpoint) : in_boxb p = true <-> in_box p.
Proof.
  unfold in_boxb, in_box. rewrite !andb_true_iff, !Qle_bool_iff. tauto.
Qed.

Lemma at_param_on_segment (p0 q0 x : qpoint) (t : Q) :
  0 <= t -> t <= 1 -> at_param p0 q0 t x -> on_segment p0 q0 x.
Proof. intros T0 T1 H. exists t. auto. Qed.

(** What [codeless_segment] appends when snapping is inactive, in terms
    of the outcome of the clipping loop. *)
Lemma codeless_segment_unsnapped snapper path_data (p q : qpoint) :
  exists (accept : bool) (upd : bool) (p' q' : qpoint),
    codeless_segment false snapper path_data
      (Fin (fst p)) (Fin (snd p)) (Fin (fst q)) (Fin (snd q))
    = Ok ((if accept && upd
           then path_data ++ [header CAIRO_PATH_MOVE_TO 2;
                              pt (Fin (fst p')) (Fin (snd p'))]
           else path_data)
          ++ [if accept then header CAIRO_PATH_LINE_TO 2
              else header CAIRO_PATH_MOVE_TO 2;
              pt (Fin (fst q')) (Fin (snd q'))])
    /\ clip_invariant p q p' q' upd
    /\ (if accept
        then in_box p' /\ in_box q'
        else exists sd, beyond sd p' /\ beyond sd q').
Proof.
  destruct (@clip_loop_spec p q clip_fuel _ p q (represents_start p q))
    as (accept & s' & p' & q' & E & R & I & C).
  - cbn [clip_start cv_update_prev]. apply clip_invariant_start.
  - pose proof (sides_beyond_le_4 p q). unfold clip_fuel. lia.
  - exists accept, (cv_update_prev s'), p', q'.
    split; [| split; assumption].
    unfold codeless_segment. rewrite E.
    destruct R as (Rxp & Ryp & Rx & Ry & _ & _).
    rewrite bind_Ok. rewrite Rxp, Ryp, Rx, Ry. reflexivity.
Qed.

Lemma in_box_not_beyond (sd : side) (p : qpoint) :
  in_box p -> ~ beyond sd p.
Proof.
  intros I B. apply in_box_level with (sd := sd) in I.
  apply beyond_level in B. lra.
Qed.

(** With both ends in the box the loop accepts at its first pass. *)
Lemma clip_loop_in_box (p q : qpoint) :
  in_box p -> in_box q ->
  clip_loop clip_fuel
    (clip_start (Fin (fst p)) (Fin (snd p)) (Fin (fst q)) (Fin (snd q)))
  = Some (true,
          clip_start (Fin (fst p)) (Fin (snd p)) (Fin (fst q)) (Fin (snd q))).
Proof.
  intros Ip Iq. unfold clip_fuel. cbn [clip_loop].
  destruct (clip_iter_spec (represents_start p q))
    as [(_ & _ & E)
       | [((sd & B & _) & _)
         | [(sd & s' & Hsd & _)
           | (sd & s' & _ & Hsd & _)]]].
  - now rewrite E.
  - exfalso. exact (@in_box_not_beyond sd p Ip B).
  - exfalso. exact (@in_box_not_beyond sd p Ip (first_side_beyond _ Hsd)).
  - exfalso. exact (@in_box_not_beyond sd q Iq (first_side_beyond _ Hsd)).
Qed.

(** With snapping active, a segment with both ends in the box is emitted
    with both ends snapped when it is horizontal or vertical (the point
    recorded last is overwritten by the snapped previous point), and
    unchanged otherwise. *)
Lemma codeless_segment_in_box_snapped snapper path_data d (p q : qpoint) :
  in_box p -> in_box q ->
  codeless_segment true snapper (path_data ++ [d])
    (Fin (fst p)) (Fin (snd p)) (Fin (fst q)) (Fin (snd q))
  = Ok (if Qeq_bool (fst q) (fst p) || Qeq_bool (snd q) (snd p)
        then path_data
             ++ [pt (snapper (Fin (fst p))) (snapper (Fin (snd p)));
                 header CAIRO_PATH_LINE_TO 2;
                 pt (snapper (Fin (fst q))) (snapper (Fin (snd q)))]
        else path_data
             ++ [d; header CAIRO_PATH_LINE_TO 2;
                 pt (Fin (fst q)) (Fin (snd q))]).
Proof.
  intros Ip Iq. unfold codeless_segment.
  rewrite (clip_loop_in_box Ip Iq).
  cbn [clip_start cv_x_prev cv_y_prev cv_x cv_y cv_update_prev andb eqb].
  destruct (Qeq_bool (fst q) (fst p) || Qeq_bool (snd q) (snd p)).
  - unfold set_back.
    destruct (path_data ++ [d]) eqn:E; [now destruct path_data |].
    rewrite <- E. rewrite removelast_last. rewrite !bind_Ok.
    now rewrite <- app_assoc.
  - rewrite bind_Ok. now rewrite <- app_assoc.
Qed.




(** With snapping active the clipping can be undone: the segment from
    (0, 0) to (10, 2^23) is clipped to end on the top side of the box, at
    (5, 2^22); the next segment, horizontal and wholly above the box, is
    dropped, and its snapping overwrites that end point, the last point
    recorded, with the snapped unclipped point (21/2, 2^23 + 1/2). *)
Lemma codeless_snap_overwrites_clipped_point :
  exists cr',
    load_path_exact_codeless (cr_ (Sample.renderer Sample.image (Fin 1)))
      Sample.overshoot 0 3 Sample.identity_matrix = Ok cr'
    /\ calls (current_path cr')
       = [cairo_move_to (Fin 0) (Fin 0);
          cairo_line_to (Fin (21 # 2)) (Fin (16777217 # 2));
          cairo_move_to (Fin (41 # 2)) (Fin (16777217 # 2))].
Proof.
  eexists. split; [vm_compute; reflexivity | reflexivity].
Qed.

(** The main loop hands every finite point that follows a finite point to
    [codeless_segment], with the two points as transformed, before any
    clipping or snapping. *)
Lemma codeless_loop_segment :
  forall (snap_ : bool) (snapper : double -> double) (vertices_ : array2)
         (matrix_ : cairo_matrix_t) (count : nat) (i : Z) (v : point)
         (p q : qpoint) (path_data : list cairo_path_data_t),
    read_point vertices_ i = Ok v ->
    cairo_matrix_transform_point matrix_ v = (Fin (fst q), Fin (snd q)) ->
    codeless_loop snap_ snapper vertices_ matrix_ (S count) i
      (Some (Fin (fst p), Fin (snd p))) path_data
    = (path_data' <- codeless_segment snap_ snapper path_data
                       (Fin (fst p)) (Fin (snd p)) (Fin (fst q)) (Fin (snd q)) ;;
       codeless_loop snap_ snapper vertices_ matrix_ count (i + 1)
         (Some (Fin (fst q), Fin (snd q))) path_data').
Proof.
  intros snap_ snapper vertices_ matrix_ count i v p q path_data Hv Hq.
  cbn [codeless_loop]. rewrite Hv, bind_Ok, Hq. reflexivity.
Qed.

(** * Further properties of the renderer *)

(** ** Setters between [new_gc] and [restore] *)

Lemma same_frame_refl g : same_frame g g.
Proof. repeat split. Qed.

Lemma same_frame_trans g1 g2 g3 :
  same_frame g1 g2 -> same_frame g2 g3 -> same_frame g1 g3.
Proof. unfold same_frame. intuition congruence. Qed.

(** A setter changes the top state or the source colour, nothing else. *)
Lemma update_additional_state_frame f g top rest :
  state_key (cr_ g) = Some (top :: rest) ->
  exists g',
    update_additional_state f g = Ok g'
    /\ state_key (cr_ g') = Some (f top :: rest)
    /\ saved (cr_ g') = saved (cr_ g)
    /\ same_frame g g'.
Proof.
  intros H. unfold update_additional_state. rewrite H.
  eexists. split; [reflexivity |]. repeat split.
Qed.

Lemma set_foreground_frame fg g top rest :
  state_key (cr_ g) = Some (top :: rest) ->
  exists g',
    set_foreground fg g = Ok g'
    /\ state_key (cr_ g') = Some (top :: rest)
    /\ saved (cr_ g') = saved (cr_ g)
    /\ same_frame g g'.
Proof.
  intros H. unfold set_foreground, get_additional_state.
  destruct fg as [[[r g_] b] a]. rewrite H, bind_Ok.
  eexists. split; [reflexivity |]. repeat split. exact H.
Qed.

(** Calls that close every [new_gc] they open, and no other, keep the
    states and the saved graphics states below those they started on. *)
Lemma run_calls_frame (calls : list gc_call) :
  forall (d d' : nat) (g : GraphicsContextRenderer)
         (st_pre st_rest : list AdditionalState) (sv_pre sv_rest : list gstate),
    state_key (cr_ g) = Some (st_pre ++ st_rest) ->
    length st_pre = S d ->
    saved (cr_ g) = sv_pre ++ sv_rest ->
    length sv_pre = d ->
    depth_after d calls = Some d' ->
    exists g' st_pre' sv_pre',
      run_calls calls g = Ok g'
      /\ state_key (cr_ g') = Some (st_pre' ++ st_rest)
      /\ length st_pre' = S d'
      /\ saved (cr_ g') = sv_pre' ++ sv_rest
      /\ length sv_pre' = d'
      /\ same_frame g g'.
Proof.
  induction calls as [| c calls IH];
    intros d d' g st_pre st_rest sv_pre sv_rest Hst Hl Hsv Hls Hd.
  - cbn in Hd. injection Hd as <-.
    exists g, st_pre, sv_pre. cbn. repeat split; auto.
  - destruct st_pre as [| top st_pre]; [discriminate |].
    cbn [length] in Hl. injection Hl as Hl.
    assert (Hsetter : forall f,
              depth_after d calls = Some d' ->
              exists g' st_pre' sv_pre',
                (g1 <- update_additional_state f g ;; run_calls calls g1) = Ok g'
                /\ state_key (cr_ g') = Some (st_pre' ++ st_rest)
                /\ length st_pre' = S d'
                /\ saved (cr_ g') = sv_pre' ++ sv_rest
                /\ length sv_pre' = d'
                /\ same_frame g g').
    { intros f Hd'.
      destruct (@update_additional_state_frame f g top (st_pre ++ st_rest) Hst)
        as (g1 & E1 & S1 & V1 & F1).
      rewrite E1, bind_Ok.
      destruct (IH d d' g1 (f top :: st_pre) st_rest sv_pre sv_rest)
        as (g' & sp & vp & E & S' & L' & V' & LV' & F'); auto.
      - cbn. now rewrite Hl.
      - congruence.
      - exists g', sp, vp. eauto 10 using same_frame_trans. }
    destruct c; cbn [run_calls run_call depth_after] in *;
      try (apply Hsetter; exact Hd).
    + (* set_foreground *)
      destruct (@set_foreground_frame fg g top (st_pre ++ st_rest) Hst)
        as (g1 & E1 & S1 & V1 & F1).
      rewrite E1, bind_Ok.
      destruct (IH d d' g1 (top :: st_pre) st_rest sv_pre sv_rest)
        as (g' & sp & vp & E & S' & L' & V' & LV' & F'); auto.
      * cbn. now rewrite Hl.
      * congruence.
      * exists g', sp, vp. eauto 10 using same_frame_trans.
    + (* new_gc *)
      unfold new_gc. rewrite cairo_save_state_key, Hst. cbn [app]. rewrite bind_Ok.
      destruct (IH (S d) d'
                  (with_cr (with_states (top :: top :: st_pre ++ st_rest)
                              (cairo_save (cr_ g))) g)
                  (top :: top :: st_pre) st_rest (gs (cr_ g) :: sv_pre) sv_rest)
        as (g' & sp & vp & E & S' & L' & V' & LV' & F'); auto.
      * cbn. now rewrite Hl.
      * cbn. now rewrite Hsv.
      * cbn. now rewrite Hls.
      * exists g', sp, vp. repeat split; try tauto.
        all: destruct F' as (F1 & F2 & F3 & F4 & F5 & F6 & F7); assumption.
    + (* restore *)
      destruct d as [| d0]; [discriminate |].
      destruct st_pre as [| top2 st_pre]; [discriminate |].
      destruct sv_pre as [| sv sv_pre]; [discriminate |].
      unfold restore. rewrite Hst. cbn [app]. rewrite bind_Ok.
      destruct (IH d0 d'
                  (with_cr (cairo_restore
                              (with_states (top2 :: st_pre ++ st_rest) (cr_ g))) g)
                  (top2 :: st_pre) st_rest sv_pre sv_rest)
        as (g' & sp & vp & E & S' & L' & V' & LV' & F'); auto.
      * cbn. now rewrite cairo_restore_state_key.
      * cbn. unfold cairo_restore. cbn. rewrite Hsv. reflexivity.
      * exists g', sp, vp. repeat split; try tauto.
        all: destruct F' as (F1 & F2 & F3 & F4 & F5 & F6 & F7);
          cbn in F1, F2, F3, F4, F5, F6, F7;
          unfold cairo_restore in F5, F6, F7; cbn in F5, F6, F7;
          rewrite Hsv in F5, F6, F7; destruct (sv :: sv_pre ++ sv_rest);
          cbn in F5, F6, F7; assumption.
Qed.

Lemma run_calls_app (a b : list gc_call) (g : GraphicsContextRenderer) :
  run_calls (a ++ b) g = (g' <- run_calls a g ;; run_calls b g').
Proof.
  revert g. induction a as [| c a IH]; intros g; cbn [app run_calls].
  - now rewrite bind_Ok.
  - destruct (run_call c g) as [g1 | e]; [| reflexivity].
    rewrite !bind_Ok. apply IH.
Qed.

(** X1.  On a renderer with a state, [new_gc], then any calls that close the
    [new_gc]s they open, then [restore], succeed and leave the renderer as
    it was: the graphics state cairo saves, the stack of saved states, the
    stack of additional states, the current path and the target. *)
Theorem new_gc_restore_undoes_setters :
  forall (g : GraphicsContextRenderer) (top : AdditionalState)
         (rest : list AdditionalState) (calls : list gc_call),
    state_key (cr_ g) = Some (top :: rest) ->
    depth_after 0 calls = Some 0%nat ->
    run_calls (call_new_gc :: calls ++ [call_restore]) g = Ok g.
Proof.
  intros g top rest calls Hst Hd.
  cbn [run_calls run_call]. unfold new_gc.
  rewrite cairo_save_state_key, Hst, bind_Ok, run_calls_app.
  destruct (@run_calls_frame calls 0 0
              (with_cr (with_states (top :: top :: rest) (cairo_save (cr_ g))) g)
              [top] (top :: rest) [] (gs (cr_ g) :: saved (cr_ g)))
    as (g2 & sp & vp & E & S2 & L2 & V2 & LV2 & F2); auto.
  rewrite E, bind_Ok. cbn [run_calls run_call].
  destruct sp as [| t' [| ? ?]]; try discriminate.
  destruct vp; [| discriminate].
  cbn [app] in S2, V2.
  unfold restore. rewrite S2, !bind_Ok. f_equal.
  destruct F2 as (F1 & F3 & F4 & F5 & F6 & F7 & F8).
  cbn in F1, F3, F4, F5, F6, F7, F8.
  destruct g2 as [self2 cr2 w2 h2 dpi2].
  destruct cr2 as [t2 gs2 sv2 status2 path2 key2].
  destruct g as [self0 cr0 w0 h0 dpi0].
  destruct cr0 as [t0 gs0 sv0 status0 path0 key0].
  cbn in *. subst.
  unfold with_cr, cairo_restore, with_states. cbn. reflexivity.
Qed.

Lemma new_gc_restore_undoes_setters_witness :
  run_calls
    (call_new_gc
     :: [call_set_alpha (Some (Fin (1 # 2)));
         call_set_foreground (Fin 1, Fin 0, Fin 0, Fin 1);
         call_new_gc; call_set_snap None; call_restore;
         call_set_antialiased (aa_bool false)]
     ++ [call_restore])
    (Sample.renderer Sample.image (Fin 1))
  = Ok (Sample.renderer Sample.image (Fin 1)).
Proof.
  apply (@new_gc_restore_undoes_setters
           (Sample.renderer Sample.image (Fin 1))
           (base_state Sample.black (Fin 1)) []); reflexivity.
Defined.

(** ** The scope of an additional context *)

(** X2.  On a renderer with a state, the constructor of [AdditionalContext]
    succeeds, and once its destructor has run the renderer is as it was
    before: the source colour, the antialiasing and the clips the
    constructor set are gone, and the stacks are as deep as they were.
    Only the current path is not kept: a clip of the state, rectangle or
    path, leaves the renderer without a current path. *)
Theorem additional_context_leaves_no_trace :
  forall (g : GraphicsContextRenderer) (top : AdditionalState)
         (rest : list AdditionalState),
    state_key (cr_ g) = Some (top :: rest) ->
    exists g1,
      additional_context g = Ok g1
      /\ additional_context_exit g1
         = with_cr
             (with_path
                (match clip_rectangle top, clip_path top with
                 | None, None => current_path (cr_ g)
                 | _, _ => empty_path
                 end)
                (cr_ g)) g.
Proof.
  intros g top rest Hst.
  unfold additional_context, get_rgba, get_additional_state.
  rewrite Hst, !bind_Ok.
  destruct (source (gs (cr_ g))) as [[[r g_] b] a]. rewrite bind_Ok.
  eexists. split; [reflexivity |].
  unfold additional_context_exit.
  destruct g as [self0 cr0 w0 h0 dpi0].
  destruct cr0 as [t0 gs0 sv0 status0 path0 key0]. cbn in Hst |- *.
  destruct (clip_rectangle top) as [[[[x y] w] h] |];
    destruct (clip_path top) as [cp |]; reflexivity.
Qed.

Lemma additional_context_leaves_no_trace_witness :
  exists g1,
    additional_context (Sample.renderer Sample.image (Fin 1)) = Ok g1
    /\ additional_context_exit g1 = Sample.renderer Sample.image (Fin 1).
Proof.
  destruct (@additional_context_leaves_no_trace
              (Sample.renderer Sample.image (Fin 1))
              (base_state Sample.black (Fin 1)) [] eq_refl)
    as (g1 & E & X).
  exists g1. split; [exact E |]. rewrite X. reflexivity.
Defined.

(** ** The save stack across [draw_markers] *)

Lemma cairo_restore_save (cr : cairo_t) : cairo_restore (cairo_save cr) = cr.
Proof. destruct cr; reflexivity. Qed.

Lemma repeat_snoc {A : Type} (x : A) (n : nat) (l : list A) :
  repeat x n ++ x :: l = repeat x (S n) ++ l.
Proof.
  induction n as [| n IH]; cbn [repeat app]; [reflexivity |].
  now rewrite IH.
Qed.

(** The direct loop leaves one saved graphics state behind for every
    position it skips, and the graphics state itself as it found it. *)
Lemma direct_loop_saved vs m mm count :
  forall (k : nat) cr cr' out,
    direct_loop vs m mm count (Z.of_nat k) cr = Ok (cr', out) ->
    gs cr' = gs cr
    /\ saved cr'
       = repeat (gs cr)
           (length (filter skipped_point
                      (map (fun i => cairo_matrix_transform_point m
                                       (at2 vs (Z.of_nat i) 0,
                                        at2 vs (Z.of_nat i) 1))
                           (seq k count))))
         ++ saved cr.
Proof.
  induction count as [| count IH]; intros k cr cr' out H.
  - cbn [direct_loop] in H. injection H as <- _. split; reflexivity.
  - cbn [direct_loop] in H.
    bind_inv H v Ev. apply read_point_at in Ev. subst v.
    cbn [seq map filter]. unfold skipped_point at 1, finite_point at 1.
    destruct (cairo_matrix_transform_point m
                (at2 vs (Z.of_nat k) 0, at2 vs (Z.of_nat k) 1)) as [x y] eqn:Et.
    cbn [fst snd].
    replace (Z.of_nat k + 1)%Z with (Z.of_nat (S k)) in H by lia.
    destruct (negb (isfinite x && isfinite y)).
    + apply IH in H. destruct H as [G S]. split; [exact G |].
      rewrite S. cbn [length]. cbn [cairo_save gs saved].
      now rewrite repeat_snoc.
    + bind_inv H cm Ed. destruct cm as [cr1 rest]. injection H as <- _.
      rewrite cairo_restore_save in Ed. apply IH in Ed. exact Ed.
Qed.

Lemma update_additional_state_gs f g g' :
  update_additional_state f g = Ok g' ->
  gs (cr_ g') = gs (cr_ g) /\ saved (cr_ g') = saved (cr_ g).
Proof.
  unfold update_additional_state.
  destruct (state_key (cr_ g)) as [[| top rest] |]; try discriminate.
  intros H; injection H as <-. split; reflexivity.
Qed.

Lemma additional_context_saved g g1 :
  additional_context g = Ok g1 ->
  saved (cr_ g1) = gs (cr_ g) :: saved (cr_ g).
Proof.
  unfold additional_context. intros H.
  bind_inv H rgba Ergba. bind_inv H state Est. injection H as <-. cbn [cr_ with_cr].
  destruct (clip_path state);
    destruct (clip_rectangle state) as [[[[x y] w] h] |]; reflexivity.
Qed.



(** ** The codeless overload as a whole, without snapping *)

Lemma point_in_box_dpoint (p : qpoint) : point_in_box (dpoint p) <-> in_box p.
Proof. unfold point_in_box, dpoint, in_box, in_range. cbn. tauto. Qed.

Lemma lines_in_box_app (l l' : list path_call) :
  forall cur,
    lines_in_box cur (l ++ l')
    <-> lines_in_box cur l /\ lines_in_box (point_after cur l) l'.
Proof.
  induction l as [| c l IH]; intros cur; cbn [app lines_in_box point_after].
  - tauto.
  - destruct c; try tauto; rewrite IH; tauto.
Qed.

Lemma point_after_app (l l' : list path_call) :
  forall cur, point_after cur (l ++ l') = point_after (point_after cur l) l'.
Proof.
  induction l as [| c l IH]; intros cur; cbn [app point_after];
    [reflexivity |].
  destruct c; apply IH.
Qed.

(** Replaying records appends their calls. *)
Lemma cairo_append_path_records (recs : list path_record) :
  forall p,
    calls (cairo_append_path (flat_map encode_record recs) p)
    = calls p ++ map call_of_record recs.
Proof.
  induction recs as [| [[|] [x y]] recs IH]; intros p;
    cbn [flat_map encode_record app fst snd cairo_append_path map].
  - now rewrite app_nil_r.
  - rewrite IH. cbn [do_line_to calls]. now rewrite <- app_assoc.
  - rewrite IH. cbn [do_move_to calls]. now rewrite <- app_assoc.
Qed.

Lemma read_point_ok (a : array2) (i : Z) :
  shape1 a = 2%Z -> (0 <= i < shape0 a)%Z ->
  read_point a i = Ok (at2 a i 0, at2 a i 1).
Proof.
  intros H2 Hi. unfold read_point, read2. rewrite H2.
  assert (E1 : (0 <=? i)%Z = true) by (apply Z.leb_le; lia).
  assert (E2 : (i <? shape0 a)%Z = true) by (apply Z.ltb_lt; lia).
  rewrite E1, E2. cbn. reflexivity.
Qed.

(** What one segment adds to the records when snapping is inactive: with
    the segment accepted, a LINE_TO between two points of the box, after
    a MOVE_TO to its first point unless that is the previous point; with
    the segment dropped, a MOVE_TO.  The point recorded last is the
    current point whenever that lies in the box. *)
Lemma codeless_segment_records snapper (recs : list path_record) (p q : qpoint) :
  (in_box p ->
   point_after None (map call_of_record recs) = Some (dpoint p)) ->
  lines_in_box None (map call_of_record recs) ->
  exists recs',
    codeless_segment false snapper (flat_map encode_record recs)
      (Fin (fst p)) (Fin (snd p)) (Fin (fst q)) (Fin (snd q))
    = Ok (flat_map encode_record recs')
    /\ lines_in_box None (map call_of_record recs')
    /\ (in_box q ->
        point_after None (map call_of_record recs') = Some (dpoint q)).
Proof.
  intros Hprev Hlines.
  destruct (codeless_segment_unsnapped snapper (flat_map encode_record recs) p q)
    as (accept & upd & p' & q' & E & I & C).
  destruct I as (al & be & _ & _ & _ & _ & Fp & Fq).
  assert (Hq : in_box q -> q' = q).
  { intros Iq. destruct Fq as [-> | (_ & NI & _)]; [reflexivity | contradiction]. }
  exists (recs ++ (if accept && upd then [(false, p')] else [])
               ++ [(accept, q')]).
  split; [| split].
  - rewrite E. rewrite !flat_map_app. cbn [flat_map app].
    destruct (accept && upd); destruct accept; cbn [flat_map app encode_record fst snd];
      rewrite ?app_nil_r, <- ?app_assoc; reflexivity.
  - rewrite !map_app. apply lines_in_box_app. split; [exact Hlines |].
    destruct accept.
    + destruct C as [Ip' Iq'].
      destruct upd; cbn [andb map app call_of_record fst snd lines_in_box].
      * split; [now apply (point_in_box_dpoint p') |].
        split; [now apply (point_in_box_dpoint q') | exact Logic.I].
      * subst p'. rewrite (Hprev Ip').
        split; [now apply (point_in_box_dpoint p) |].
        split; [now apply (point_in_box_dpoint q') | exact Logic.I].
    + cbn. exact Logic.I.
  - intros Iq. rewrite (Hq Iq).
    rewrite !map_app, !point_after_app.
    destruct accept; cbn [map call_of_record fst snd point_after]; reflexivity.
Qed.

Section CodelessLoopUnsnapped.

Variable snapper : double -> double.
Variable vertices_ : array2.
Variable matrix_ : cairo_matrix_t.
Hypothesis Hshape : shape1 vertices_ = 2%Z.

(** Without snapping the main loop runs to its end on every range of
    vertices of the array, and keeps every line in the box. *)
Lemma codeless_loop_unsnapped (count : nat) :
  forall (i : Z) (prev : option point) (recs : list path_record),
    (0 <= i)%Z -> (i + Z.of_nat count <= shape0 vertices_)%Z ->
    prev_recorded prev recs ->
    lines_in_box None (map call_of_record recs) ->
    exists recs',
      codeless_loop false snapper vertices_ matrix_ count i prev
        (flat_map encode_record recs)
      = Ok (flat_map encode_record recs')
      /\ lines_in_box None (map call_of_record recs').
Proof.
  induction count as [| count IH]; intros i prev recs Hi Hn Hprev Hlines.
  - exists recs. split; [reflexivity | exact Hlines].
  - cbn [codeless_loop].
    rewrite (read_point_ok _ Hshape) by lia. rewrite bind_Ok.
    destruct (cairo_matrix_transform_point matrix_
                (at2 vertices_ i 0, at2 vertices_ i 1)) as [x y].
    destruct x as [qx | | |]; destruct y as [qy | | |];
      cbn [isfinite andb];
      try (apply IH; [lia | lia | exact Logic.I | exact Hlines]).
    destruct prev as [[xp yp] |].
    + destruct xp as [px | | |]; try contradiction.
      destruct yp as [py | | |]; try contradiction.
      destruct (@codeless_segment_records snapper recs (px, py) (qx, qy)
                  Hprev Hlines) as (recs1 & E1 & L1 & P1).
      cbn [fst snd] in E1. rewrite E1, bind_Ok.
      apply IH; [lia | lia | exact P1 | exact L1].
    + replace (flat_map encode_record recs
               ++ [header CAIRO_PATH_MOVE_TO 2; pt (Fin qx) (Fin qy)])
        with (flat_map encode_record (recs ++ [(false, (qx, qy))]))
        by (rewrite flat_map_app; reflexivity).
      apply IH; [lia | lia | |].
      * cbn [prev_recorded]. intros _.
        rewrite map_app, point_after_app. reflexivity.
      * rewrite map_app. apply lines_in_box_app. split; [exact Hlines |].
        cbn. exact Logic.I.
Qed.

End CodelessLoopUnsnapped.



(** ** The two transform adapters *)

(** X5.  The adapter that takes a master matrix, given the vertical flip about
    [y0] as master, agrees with the adapter that takes [y0]: both reject
    the same transforms with the same error, and on a transform whose two
    top rows are finite both return the same device matrix. *)
Theorem matrix_from_transform_master_flip :
  forall (transform : transform_t) (y0 : double),
    (forall e,
       matrix_from_transform transform y0 = Err e
       <-> matrix_from_transform_master transform (flip_matrix y0) = Err e)
    /\ (finite_rows (matrix transform) = true ->
        forall m,
          matrix_from_transform transform y0 = Ok m ->
          exists m',
            matrix_from_transform_master transform (flip_matrix y0) = Ok m'
            /\ same_matrix m m').
Proof.
  intros t h. unfold matrix_from_transform, matrix_from_transform_master.
  destruct (negb (marked_affine t)); [split; [tauto | discriminate] |].
  destruct (negb (shape0 (matrix t) =? 3)%Z || negb (shape1 (matrix t) =? 3)%Z);
    [split; [tauto | discriminate] |].
  split; [split; discriminate |].
  unfold finite_rows. rewrite !andb_true_iff.
  intros (((((F00 & F01) & F02) & F10) & F11) & F12) m E.
  injection E as <-. eexists. split; [reflexivity |].
  unfold cairo_matrix_multiply, flip_matrix, same_matrix.
  cbn [xx yx xy yy x0 y0].
  destruct (at2 (matrix t) 0 0) as [m00 | | |]; try discriminate.
  destruct (at2 (matrix t) 0 1) as [m01 | | |]; try discriminate.
  destruct (at2 (matrix t) 0 2) as [m02 | | |]; try discriminate.
  destruct (at2 (matrix t) 1 0) as [m10 | | |]; try discriminate.
  destruct (at2 (matrix t) 1 1) as [m11 | | |]; try discriminate.
  destruct (at2 (matrix t) 1 2) as [m12 | | |]; try discriminate.
  destruct h as [qh | | |]; cbn; repeat split; ring.
Qed.

Lemma matrix_from_transform_master_flip_witness :
  finite_rows (matrix Sample.flip) = true
  /\ exists m m',
       matrix_from_transform Sample.flip (Fin 2) = Ok m
       /\ matrix_from_transform_master Sample.flip (flip_matrix (Fin 2)) = Ok m'
       /\ same_matrix m m'.
Proof.
  split; [reflexivity |].
  destruct (matrix_from_transform Sample.flip (Fin 2)) as [m | e] eqn:E;
    [| discriminate].
  destruct (proj2 (matrix_from_transform_master_flip Sample.flip (Fin 2))
              eq_refl m E) as (m' & E' & S).
  exists m, m'. auto.
Defined.

(** ** The size of the stamp grid *)

(** For a finite threshold of at least 1/16 the number of sub-pixel steps
    [ceil(1 / threshold)] lies between 1 and 16. *)
Lemma stamp_steps_bounds (q : Q) (n : Z) :
  (one_sixteenth <=? Fin q)%D = true ->
  to_int (ceil (Fin 1 / Fin q)%D) = Ok n ->
  (1 <= n <= 16)%Z.
Proof.
  unfold one_sixteenth. cbn [div leb].
  change (Qeq_bool (16 # 1) 0) with false. cbn iota.
  intros Hq. apply Qle_bool_iff in Hq.
  assert (E16 : 1 / (16 # 1) == 1 # 16) by reflexivity.
  rewrite E16 in Hq.
  assert (Hq0 : 0 < q) by lra.
  destruct (Qeq_bool q 0) eqn:E0.
  { apply Qeq_bool_iff in E0. lra. }
  cbn [ceil to_int of_Z].
  assert (Hinv : 0 < 1 / q <= 16).
  { split.
    - apply Qlt_shift_div_l; lra.
    - apply Qle_shift_div_r; lra. }
  pose proof (Qle_ceiling (1 / q)) as C1.
  pose proof (Qceiling_lt (1 / q)) as C2.
  rewrite inject_Z_pred in C2.
  assert (A : (0 < Qceiling (1 / q))%Z).
  { rewrite Zlt_Qlt. change (inject_Z 0) with 0. lra. }
  assert (B : (Qceiling (1 / q) < 17)%Z).
  { rewrite Zlt_Qlt. change (inject_Z 17) with 17. lra. }
  assert (F : Qfloor (inject_Z (Qceiling (1 / q))) = Qceiling (1 / q))
    by apply Qfloor_Z.
  assert (G : Qceiling (inject_Z (Qceiling (1 / q))) = Qceiling (1 / q))
    by apply Qceiling_Z.
  rewrite F, G.
  destruct (Qltb (inject_Z (Qceiling (1 / q))) 0);
    destruct (int_range (Qceiling (1 / q))); try discriminate;
    intros H; injection H as <-; lia.
Qed.



(** ** The pixels of [draw_image] *)

Lemma round_half_even_error (x : Q) :
  - (1 # 2) <= inject_Z (round_half_even x) - x <= 1 # 2.
Proof.
  unfold round_half_even.
  pose proof (Qfloor_le x) as F1. pose proof (Qlt_floor x) as F2.
  rewrite inject_Z_succ in F2.
  destruct (Qcompare_spec (x - inject_Z (Qfloor x)) (1 # 2)) as [C | C | C].
  - destruct (Z.even (Qfloor x)); [| rewrite inject_Z_succ]; lra.
  - lra.
  - rewrite inject_Z_succ. lra.
Qed.

(** Between 2^-1022 and 2^1023 rounding to binary64 moves a rational by at
    most 2^-53 of it. *)
Lemma round_binary64_rel_error (q : Q) :
  two_power (-1022) <= q -> q < two_power 1023 ->
  exists r, round_binary64 q = Fin r /\
    q - q * two_power (-53) <= r <= q + q * two_power (-53).
Proof.
  intros Hlo Hhi.
  pose proof (two_power_pos (-1022)) as P0.
  assert (Hne : ~ q == 0) by lra.
  assert (EA : Qabs q == q) by (apply Qabs_pos; lra).
  destruct (Qlog2_spec Hne) as [L1 L2]. rewrite EA in L1, L2.
  set (k := Qlog2 q) in *.
  assert (K1 : (-1022 < k + 1)%Z) by (apply two_power_lt_inv; lra).
  assert (K2 : (k < 1023)%Z) by (apply two_power_lt_inv; lra).
  assert (Ee : Z.max (-1074) (k - 52) = (k - 52)%Z) by lia.
  pose proof (@round_binary64_eq q k) as R. rewrite Ee in R. clear Ee.
  set (e := (k - 52)%Z) in *.
  set (m := round_half_even (q / two_power e)).
  pose proof (two_power_pos e) as Pe.
  pose proof (round_half_even_error (q / two_power e)) as Herr. fold m in Herr.
  assert (Hk : two_power k == two_power e * two_power 52).
  { unfold e. rewrite <- two_power_add. now replace (k - 52 + 52)%Z with k by lia. }
  assert (B52 : two_power 52 == 4503599627370496) by reflexivity.
  assert (B53 : two_power (-53) == 1 # 9007199254740992) by reflexivity.
  assert (Hd : inject_Z m * two_power e - q
               == (inject_Z m - q / two_power e) * two_power e) by (field; lra).
  assert (U1 : (inject_Z m - q / two_power e) * two_power e
               <= (1 # 2) * two_power e).
  { apply Qmult_le_compat_r; lra. }
  assert (U2 : (- (1 # 2)) * two_power e
               <= (inject_Z m - q / two_power e) * two_power e).
  { apply Qmult_le_compat_r; lra. }
  assert (Hs : (1 # 2) * two_power e <= q * two_power (-53)).
  { rewrite B53.
    assert (two_power e * 4503599627370496 <= q) by (rewrite <- B52, <- Hk; exact L1).
    lra. }
  exists (Qred (inject_Z m * two_power e)). split.
  - apply R.
    + rewrite EA. split; assumption.
    + reflexivity.
    + assert (Hu : q * two_power (-53) <= q) by (rewrite B53; lra).
      assert (Hp : 0 <= inject_Z m * two_power e) by lra.
      rewrite Qabs_pos by exact Hp.
      assert (two_power 1024 == 2 * two_power 1023).
      { rewrite <- two_power_succ. reflexivity. }
      lra.
  - rewrite Qred_correct. lra.
Qed.

(** The double that is truncated: within 2^-40 of the exact quotient. *)
Lemma premultiply_value (a c : Z) :
  (1 <= a <= 255)%Z -> (1 <= c <= 255)%Z ->
  exists r,
    (rounded (rounded (of_Z a / Fin (255 # 1)) * of_Z c))%D = Fin r /\
    inject_Z (a * c) / 255 - (1 # 1099511627776) <= r
      <= inject_Z (a * c) / 255 + (1 # 1099511627776).
Proof.
  intros Ha Hc.
  Zlower a 1%Z A1. Zupper a 255%Z A2. Zlower c 1%Z C1. Zupper c 255%Z C2.
  assert (B53 : two_power (-53) == 1 # 9007199254740992) by reflexivity.
  assert (Blo : two_power (-1022) <= 1 # 1024).
  { change (1 # 1024) with (two_power (-10)). apply two_power_le. lia. }
  assert (Bhi : 1024 <= two_power 1023).
  { change 1024 with (two_power 10). apply two_power_le. lia. }
  set (x := inject_Z a / (255 # 1)).
  assert (X : x * 255 == inject_Z a) by (unfold x; field).
  destruct (@round_binary64_rel_error x) as (r1 & R1 & E1); [lra | lra |].
  rewrite B53 in E1.
  set (q2 := r1 * inject_Z c).
  assert (Q1 : (r1 - x) * inject_Z c <= (1 # 9007199254740992) * inject_Z c).
  { apply Qmult_le_compat_r; lra. }
  assert (Q2 : (- (1 # 9007199254740992)) * inject_Z c <= (r1 - x) * inject_Z c).
  { apply Qmult_le_compat_r; lra. }
  assert (Q3 : 0 * inject_Z c <= x * inject_Z c) by (apply Qmult_le_compat_r; lra).
  assert (Q4 : x * inject_Z c <= 1 * inject_Z c) by (apply Qmult_le_compat_r; lra).
  assert (Q5 : (1 # 512) * 1 <= r1 * inject_Z c).
  { apply Qmult_le_compat_nonneg; split; lra. }
  assert (Q6 : q2 - x * inject_Z c == (r1 - x) * inject_Z c) by (unfold q2; ring).
  destruct (@round_binary64_rel_error q2) as (r2 & R2 & E2);
    [unfold q2; lra | lra |].
  rewrite B53 in E2.
  exists r2. split.
  - change (of_Z a / Fin (255 # 1))%D with (Fin x).
    cbn [rounded]. rewrite R1. change (Fin r1 * of_Z c)%D with (Fin q2).
    cbn [rounded]. exact R2.
  - assert (T : inject_Z (a * c) / 255 == x * inject_Z c).
    { rewrite inject_Z_mult. unfold x. field. }
    rewrite T. lra.
Qed.

Lemma to_uint8_floor (r : Q) (p : Z) :
  inject_Z p <= r < inject_Z p + 1 -> (0 <= p <= 255)%Z ->
  to_uint8 (Fin r) = Ok p.
Proof.
  intros Hr Hp. unfold to_uint8.
  Zlower p 0%Z P0.
  assert (N : Qltb r 0 = false) by (apply Qltb_ge; lra).
  rewrite N, (@Qfloor_unique r p Hr).
  destruct (Z.leb_spec 0 p); [| lia].
  destruct (Z.leb_spec p 255); [reflexivity | lia].
Qed.

Lemma premultiply_zero_alpha (c : Z) : premultiply 0 c = Ok 0%Z.
Proof.
  unfold premultiply.
  change (rounded (of_Z 0 / Fin (255 # 1)))%D with (Fin 0).
  change (Fin 0 * of_Z c)%D with (Fin (0 * inject_Z c)).
  cbn [rounded].
  rewrite (@round_binary64_exact (0 * inject_Z c) 0 0).
  - apply to_uint8_floor; [rewrite Qred_correct; change (inject_Z 0) with 0; lra | lia].
  - ring.
  - lia.
  - assert (E : 0 * inject_Z c == 0) by ring. rewrite E. apply two_power_pos.
  - assert (E : 0 * inject_Z c == 0) by ring. rewrite E. apply two_power_pos.
Qed.

Lemma premultiply_opaque (c : Z) : (0 <= c <= 255)%Z -> premultiply 255 c = Ok c.
Proof.
  intros Hc. unfold premultiply.
  change (rounded (of_Z 255 / Fin (255 # 1)))%D with (Fin 1).
  change (Fin 1 * of_Z c)%D with (Fin (1 * inject_Z c)).
  cbn [rounded].
  Zlower c 0%Z C1. Zupper c 255%Z C2.
  assert (E : 1 * inject_Z c == inject_Z c) by ring.
  assert (A : Qabs (1 * inject_Z c) == inject_Z c).
  { rewrite E. apply Qabs_pos. lra. }
  assert (B53 : two_power (0 + 53) == 9007199254740992) by reflexivity.
  assert (B1024 : two_power 53 <= two_power 1024) by (apply two_power_le; lia).
  rewrite (@round_binary64_exact (1 * inject_Z c) c 0).
  - apply to_uint8_floor; [rewrite Qred_correct; lra | lia].
  - change (two_power 0) with 1. ring.
  - lia.
  - rewrite A, B53. lra.
  - rewrite A. change (two_power 53) with (two_power (0 + 53)) in B1024. lra.
Qed.

Lemma uint8_values_In (a : Z) : (0 <= a <= 255)%Z -> In a uint8_values.
Proof.
  intros Ha. unfold uint8_values. rewrite <- (Z2Nat.id a) by lia.
  apply in_map, in_seq. lia.
Qed.

Lemma premultiply_full_channel_all :
  forallb premultiply_full_channel uint8_values = true.
Proof. vm_compute. reflexivity. Qed.

Lemma premultiply_full (a : Z) : (0 <= a <= 255)%Z -> premultiply a 255 = Ok a.
Proof.
  intros Ha.
  pose proof premultiply_full_channel_all as H.
  rewrite forallb_forall in H. specialize (H a (uint8_values_In Ha)).
  unfold premultiply_full_channel in H.
  destruct (premultiply a 255) as [p | e]; [| discriminate].
  apply Z.eqb_eq in H. now subst p.
Qed.

(** The truncation may fall one short of the exact quotient. *)
Lemma premultiply_one_short : premultiply 147 85 = Ok 48%Z /\ (147 * 85 / 255 = 49)%Z.
Proof. split; vm_compute; reflexivity. Qed.

Lemma premultiply_within_one (a c : Z) :
  (0 <= a <= 255)%Z -> (0 <= c <= 255)%Z ->
  exists p, premultiply a c = Ok p /\ premultiplied a c p.
Proof.
  intros Ha Hc. unfold premultiplied.
  destruct (Z.eq_dec a 0) as [-> | Ha0].
  { exists 0%Z. rewrite premultiply_zero_alpha. cbn. repeat split; lia. }
  destruct (Z.eq_dec a 255) as [-> | Ha255].
  { exists c. rewrite (premultiply_opaque Hc).
    assert (E : (255 * c / 255 = c)%Z) by (rewrite Z.mul_comm; apply Z.div_mul; lia).
    rewrite E. repeat split; lia. }
  destruct (Z.eq_dec c 255) as [-> | Hc255].
  { exists a. rewrite (premultiply_full Ha).
    assert (E : (a * 255 / 255 = a)%Z) by (apply Z.div_mul; lia).
    rewrite E. repeat split; lia. }
  destruct (Z.eq_dec c 0) as [-> | Hc0].
  { exists 0%Z. replace (a * 0)%Z with 0%Z by lia. cbn.
    split; [| repeat split; lia].
    destruct (@premultiply_value a 1) as (r & R & _); [lia | lia |].
    unfold premultiply.
    destruct (rounded (of_Z a / Fin (255 # 1))%D) as [r1 | | |] eqn:E1;
      try (cbn in R; discriminate).
    change (Fin r1 * of_Z 0)%D with (Fin (r1 * 0)). cbn [rounded].
    assert (Z0 : r1 * 0 == 0) by ring.
    rewrite (@round_binary64_exact (r1 * 0) 0 0).
    - apply to_uint8_floor; [rewrite Qred_correct, Z0; change (inject_Z 0) with 0; lra | lia].
    - rewrite Z0. ring.
    - lia.
    - rewrite Z0. apply two_power_pos.
    - rewrite Z0. apply two_power_pos. }
  destruct (@premultiply_value a c) as (r & R & Rlo & Rhi); [lia | lia |].
  unfold premultiply. rewrite R.
  pose proof (Z.div_mod (a * c) 255) as DM.
  pose proof (Z.mod_pos_bound (a * c) 255) as MB.
  set (n := (a * c / 255)%Z) in *. set (m := ((a * c) mod 255)%Z) in *.
  assert (AC : (1 <= a * c <= 254 * 254)%Z) by nia.
  assert (T : inject_Z (a * c) / 255 == inject_Z n + inject_Z m * (1 # 255)).
  { rewrite DM by lia. rewrite inject_Z_plus, inject_Z_mult.
    change (inject_Z 255) with 255. field. }
  rewrite T in Rlo, Rhi. clear T. clearbody n m.
  destruct (Z.eq_dec m 0) as [M0 | M0].
  - rewrite M0 in Rlo, Rhi. change (inject_Z 0) with 0 in Rlo, Rhi.
    destruct (Qlt_le_dec r (inject_Z n)) as [L | L].
    + exists (n - 1)%Z. split.
      * apply to_uint8_floor; [rewrite inject_Z_pred; lra | lia].
      * repeat split; try lia; nia.
    + exists n. split.
      * apply to_uint8_floor; [lra | lia].
      * repeat split; try lia; nia.
  - exists n.
    Zlower m 1%Z M1. Zupper m 254%Z M2.
    split.
    + apply to_uint8_floor; [lra | lia].
    + repeat split; try lia; nia.
Qed.


Lemma lor_low_bits (x lo n : Z) :
  (0 <= n)%Z -> (0 <= lo < 2 ^ n)%Z ->
  Z.lor (Z.shiftl x n) lo = (x * 2 ^ n + lo)%Z.
Proof.
  intros Hn Hlo.
  rewrite <- Z.add_lor_land, Z.shiftl_mul_pow2 by lia.
  assert (E : Z.land (x * 2 ^ n) lo = 0%Z).
  { apply Z.bits_inj'. intros i Hi. rewrite Z.land_spec, Z.bits_0.
    destruct (Z.lt_ge_cases i n) as [L | L].
    - rewrite Z.mul_pow2_bits_low by lia. reflexivity.
    - rewrite <- (Z.mod_small lo (2 ^ n)) by lia.
      rewrite Z.mod_pow2_bits_high by lia. apply andb_false_r. }
  rewrite E. lia.
Qed.

(** X7.  [draw_image]: the word written for a pixel of [uint8_t] channels r,
    g, b and alpha a has the bytes a, pr, pg, pb from the top, where each of
    pr, pg, pb is the integer quotient of alpha times the channel by 255 or
    one less (the quotient itself unless 255 divides the product), so never
    above the alpha nor above the channel; an opaque pixel keeps its
    channels and a full channel becomes the alpha. *)
Theorem argb32_premultiplied (r g b a : Z) :
  (0 <= r <= 255)%Z -> (0 <= g <= 255)%Z -> (0 <= b <= 255)%Z ->
  (0 <= a <= 255)%Z ->
  exists pr pg pb,
    argb32 r g b a = Ok (a * 2 ^ 24 + pr * 2 ^ 16 + pg * 2 ^ 8 + pb)%Z /\
    premultiplied a r pr /\ premultiplied a g pg /\ premultiplied a b pb.
Proof.
  intros Hr Hg Hb Ha.
  destruct (premultiply_within_one Ha Hr) as (pr & Er & Pr).
  destruct (premultiply_within_one Ha Hg) as (pg & Eg & Pg).
  destruct (premultiply_within_one Ha Hb) as (pb & Eb & Pb).
  exists pr, pg, pb. split; [| auto].
  unfold argb32. rewrite Er, Eg, Eb, !bind_Ok. f_equal.
  assert (Br : (0 <= pr <= 255)%Z) by (destruct Pr as (_ & ? & _); lia).
  assert (Bg : (0 <= pg <= 255)%Z) by (destruct Pg as (_ & ? & _); lia).
  assert (Bb : (0 <= pb <= 255)%Z) by (destruct Pb as (_ & ? & _); lia).
  replace (Z.shiftl a 24) with (Z.shiftl (Z.shiftl a 8) 16)
    by (rewrite Z.shiftl_shiftl by lia; reflexivity).
  rewrite <- Z.shiftl_lor, (@lor_low_bits a pr 8) by lia.
  replace (Z.shiftl (a * 2 ^ 8 + pr) 16)
    with (Z.shiftl (Z.shiftl (a * 2 ^ 8 + pr) 8) 8)
    by (rewrite Z.shiftl_shiftl by lia; reflexivity).
  rewrite <- Z.shiftl_lor, (@lor_low_bits (a * 2 ^ 8 + pr) pg 8) by lia.
  rewrite lor_low_bits by lia. lia.
Qed.

Lemma argb32_premultiplied_witness :
  exists pr pg pb,
    argb32 85 170 255 147 = Ok (147 * 2 ^ 24 + pr * 2 ^ 16 + pg * 2 ^ 8 + pb)%Z /\
    premultiplied 147 85 pr /\ premultiplied 147 170 pg /\
    premultiplied 147 255 pb.
Proof. apply (@argb32_premultiplied 85 170 255 147); lia. Defined.

(** ** Regions: restoring, then capturing *)

Lemma byte_at_ext (l l' : list byte) :
  length l = length l' ->
  (forall i, (0 <= i < Z.of_nat (length l))%Z -> byte_at l i = byte_at l' i) ->
  l = l'.
Proof.
  intros Hlen H. apply nth_error_ext. intros n.
  destruct (Nat.lt_ge_cases n (length l)) as [L | L].
  - specialize (H (Z.of_nat n) ltac:(lia)).
    rewrite !byte_at_nonneg, Nat2Z.id in H by lia. exact H.
  - rewrite (proj2 (nth_error_None l n)) by lia.
    rewrite (proj2 (nth_error_None l' n)) by lia. reflexivity.
Qed.

Lemma restore_region_inv g region g' :
  restore_region g region = Ok g' ->
  exists raw,
    g' = with_cr (with_target (with_surface_data raw (target (cr_ g))) (cr_ g)) g.
Proof.
  unfold restore_region. intros H. bind_inv H y1 Ey.
  destruct (is_image (target (cr_ g))); cbn [negb] in H; [| discriminate].
  bind_inv H raw Er. injection H as <-. now exists raw.
Qed.

Lemma with_surface_data_same g :
  with_cr (with_target (with_surface_data (surface_data (target (cr_ g)))
                          (target (cr_ g))) (cr_ g)) g = g.
Proof. destruct g as [s [[t w h st d] gs0 sv stt p k] wd ht dp]. reflexivity. Qed.

Lemma restore_region_image_ok g region g' :
  image_ok g = true ->
  restore_region g region = Ok g' ->
  length (surface_data (target (cr_ g'))) = length (surface_data (target (cr_ g))) ->
  image_ok g' = true /\ width_ g' = width_ g /\ height_ g' = height_ g.
Proof.
  intros Hok H Hlen. destruct (restore_region_inv _ _ H) as (raw & ->).
  cbn [cr_ with_cr target with_target surface_data with_surface_data] in Hlen.
  repeat split. unfold image_ok in *.
  cbn [cr_ with_cr target with_target surface_data with_surface_data
       surface_type surface_width surface_height surface_stride width_ height_
       is_image] in *.
  rewrite Hlen. exact Hok.
Qed.

(** The byte of a buffer of rows of [4 * w] bytes at an offset, as the byte
    of a pixel. *)
Lemma buffer_offset_pixel (w h i : Z) :
  (0 <= i < 4 * w * h)%Z -> (0 <= w)%Z -> (0 <= h)%Z ->
  exists row col k,
    (0 <= row < h)%Z /\ (0 <= col < w)%Z /\ (0 <= k < 4)%Z
    /\ i = (row * (4 * w) + 4 * col + k)%Z.
Proof.
  intros Hi Hw Hh.
  assert (W : (0 < 4 * w)%Z) by nia.
  pose proof (Z.div_mod i (4 * w) ltac:(lia)) as D.
  pose proof (Z.mod_pos_bound i (4 * w) W) as M.
  pose proof (Z.div_mod (i mod (4 * w)) 4 ltac:(lia)) as D'.
  pose proof (Z.mod_pos_bound (i mod (4 * w)) 4 ltac:(lia)) as M'.
  exists (i / (4 * w))%Z, (i mod (4 * w) / 4)%Z, ((i mod (4 * w)) mod 4)%Z.
  assert (R0 : (0 <= i / (4 * w))%Z) by (apply Z.div_pos; lia).
  assert (R1 : (i / (4 * w) < h)%Z) by (apply Z.div_lt_upper_bound; nia).
  assert (C0 : (0 <= i mod (4 * w) / 4)%Z) by (apply Z.div_pos; lia).
  assert (C1 : (i mod (4 * w) / 4 < w)%Z) by (apply Z.div_lt_upper_bound; lia).
  repeat split; try lia.
Qed.

(** An offset into the pixel data is in one of the rows of a rectangle, as
    the byte of a pixel, or in none. *)
Lemma surface_offset_pixel (stride x0 y0 w h i : Z) :
  (0 <= x0)%Z -> (0 <= w)%Z -> (4 * (x0 + w) <= stride)%Z -> (0 <= i)%Z ->
  (exists x y k,
     (x0 <= x < x0 + w)%Z /\ (y0 <= y < y0 + h)%Z /\ (0 <= k < 4)%Z
     /\ i = (y * stride + 4 * x + k)%Z)
  \/ (forall r, (y0 <= r < y0 + h)%Z ->
        (i < r * stride + 4 * x0 \/ r * stride + 4 * x0 + 4 * w <= i)%Z).
Proof.
  intros Hx Hw Hs Hi.
  destruct (Z.eq_dec w 0) as [-> | W0]; [right; intros; lia |].
  assert (S0 : (0 < stride)%Z) by lia.
  pose proof (Z.div_mod i stride ltac:(lia)) as D.
  pose proof (Z.mod_pos_bound i stride S0) as M.
  set (r := (i / stride)%Z) in *. set (c := (i mod stride)%Z) in *.
  destruct (Z_lt_ge_dec r y0) as [A | A];
    [right; intros r' Hr'; left; nia |].
  destruct (Z_lt_ge_dec r (y0 + h)) as [B | B];
    [| right; intros r' Hr'; right; nia].
  destruct (Z_lt_ge_dec c (4 * x0)) as [C | C].
  { right. intros r' Hr'.
    destruct (Z.lt_trichotomy r' r) as [L | [-> | L]];
      [right; nia | left; lia | left; nia]. }
  destruct (Z_lt_ge_dec c (4 * x0 + 4 * w)) as [E | E].
  - left.
    pose proof (Z.div_mod c 4 ltac:(lia)) as D'.
    pose proof (Z.mod_pos_bound c 4 ltac:(lia)) as M'.
    exists (c / 4)%Z, r, (c mod 4)%Z. repeat split; lia.
  - right. intros r' Hr'.
    destruct (Z.lt_trichotomy r' r) as [L | [-> | L]];
      [right; nia | right; lia | left; nia].
Qed.

(** X8.  [restore_region] and [copy_from_bbox]: when a region captured from an
    image surface is restored on a surface of the same geometry, whatever
    that surface holds, capturing the same bounding box from the result
    returns the very region that was restored, and restoring the region
    once more leaves the result as it is. *)
Theorem copy_from_bbox_restore_region_round_trip :
  forall (g g_later : GraphicsContextRenderer) (b : bbox_t) (region : Region),
    image_ok g = true ->
    image_ok g_later = true ->
    same_geometry g g_later = true ->
    width_ g_later = width_ g ->
    height_ g_later = height_ g ->
    copy_from_bbox g b = Ok region ->
    exists g',
      restore_region g_later region = Ok g'
      /\ copy_from_bbox g' b = Ok region
      /\ restore_region g' region = Ok g'.
Proof.
  intros g g2 b region Hok Hok2 Hgeo Hwd Hht Hcopy.
  destruct (copy_from_bbox_inv _ _ Hcopy)
    as (x0 & y0 & x1 & y1 & Ex0 & Ex1 & Ey0 & Ey1 & Hin).
  destruct (copy_from_bbox_captures g b Hok Ex0 Ex1 Ey0 Ey1 Hin)
    as (region0 & Ec & Hrect & Hlen & _).
  rewrite Hcopy in Ec. injection Ec as <-.
  pose proof (image_ok_facts g Hok) as (_ & Hgw & Hgh & _).
  pose proof (image_ok_facts g2 Hok2) as (_ & _ & _ & _ & _ & Hst2 & _).
  pose proof (same_geometry_facts _ _ Hgeo) as (Sw & Sh & Ss).
  pose proof (bbox_in_bounds_facts _ _ _ _ _ Hin) as (Hx & Hx1 & Hy & Hy1).
  cbv zeta in *.
  destruct (@restore_region_writes g2 region x0 y0 (x1 - x0) (y1 - y0)
              Hok2 Hrect ltac:(lia) ltac:(lia) ltac:(lia)
              ltac:(lia) ltac:(lia) ltac:(lia) Hlen)
    as (g' & Er & Hgeo' & Hlen' & Hin' & _).
  destruct (@restore_region_image_ok g2 region g' Hok2 Er Hlen') as (Hok' & Hw' & Hh').
  pose proof (same_geometry_facts _ _ Hgeo') as (Sw' & Sh' & Ss').
  assert (Hinb : bbox_in_bounds g' x0 y0 x1 y1 = true).
  { unfold bbox_in_bounds in *. now rewrite Hw', Hh', Hwd, Hht. }
  set (w := (x1 - x0)%Z) in *. set (h := (y1 - y0)%Z) in *.
  set (stride := surface_stride (target (cr_ g2))) in *.
  exists g'. split; [exact Er |]. split.
  - destruct (copy_from_bbox_captures g' b Hok' Ex0 Ex1 Ey0 Ey1 Hinb)
      as (region' & Ec' & Hrect' & Hl' & Hb').
    rewrite Ec'. f_equal.
    destruct region' as [bb' bf'], region as [bb bf].
    unfold region_rectangle in *. cbn [bbox buf] in *.
    rewrite Hrect, Hrect'. f_equal.
    apply byte_at_ext; [apply Nat2Z.inj; fold w h in Hl'; lia |].
    intros i Hi. fold w h in Hl'. rewrite Hl' in Hi.
    destruct (@buffer_offset_pixel w h i Hi ltac:(lia) ltac:(lia))
      as (row & col & k & Hrow & Hcol & Hk & ->).
    specialize (Hb' (x0 + col)%Z (y0 + row)%Z k ltac:(lia) ltac:(lia) Hk).
    specialize (Hin' (x0 + col)%Z (y0 + row)%Z k ltac:(lia) ltac:(lia) Hk).
    fold w in Hb'. rewrite <- Ss' in Hb'. fold stride in Hb'.
    replace (y0 + row - y0)%Z with row in Hb', Hin' by ring.
    replace (x0 + col - x0)%Z with col in Hb', Hin' by ring.
    rewrite Hb'. exact Hin'.
  - assert (Hw2 : (x0 + w <= surface_width (target (cr_ g')))%Z) by lia.
    assert (Hh2 : (y0 + h <= surface_height (target (cr_ g')))%Z) by lia.
    destruct (@restore_region_writes g' region x0 y0 w h
                Hok' Hrect ltac:(lia) ltac:(lia) Hw2
                ltac:(lia) ltac:(lia) Hh2 Hlen)
      as (g'' & Er' & _ & Hlen'' & Hin'' & Hout'').
    rewrite Er'. f_equal.
    destruct (restore_region_inv _ _ Er') as (raw & Eg).
    assert (Eraw : surface_data (target (cr_ g'')) = raw) by (rewrite Eg; reflexivity).
    assert (Ed : surface_data (target (cr_ g''))
                 = surface_data (target (cr_ g'))).
    { apply byte_at_ext; [exact Hlen'' |].
      intros i Hi. rewrite <- Ss' in Hin'', Hout''. fold stride in Hin'', Hout''.
      destruct (@surface_offset_pixel stride x0 y0 w h i
                  ltac:(lia) ltac:(lia) ltac:(lia) ltac:(lia))
        as [(x & y & k & Hxx & Hyy & Hk & ->) | Hno].
      - rewrite (Hin'' x y k Hxx Hyy Hk). symmetry. exact (Hin' x y k Hxx Hyy Hk).
      - apply Hout''. exact Hno. }
    rewrite Eg, <- Eraw, Ed. apply with_surface_data_same.
Qed.

Lemma copy_from_bbox_restore_region_round_trip_witness :
  exists region g',
    copy_from_bbox (Sample.renderer Sample.image (Fin 1))
      (Sample.box (3 # 2) (1 # 5) (5 # 2) (3 # 2)) = Ok region
    /\ restore_region (Sample.renderer Sample.image_redrawn (Fin 1)) region = Ok g'
    /\ copy_from_bbox g' (Sample.box (3 # 2) (1 # 5) (5 # 2) (3 # 2)) = Ok region
    /\ restore_region g' region = Ok g'.
Proof.
  destruct (copy_from_bbox (Sample.renderer Sample.image (Fin 1))
              (Sample.box (3 # 2) (1 # 5) (5 # 2) (3 # 2)))
    as [region | e] eqn:E; [| vm_compute in E; discriminate].
  destruct (@copy_from_bbox_restore_region_round_trip
              (Sample.renderer Sample.image (Fin 1))
              (Sample.renderer Sample.image_redrawn (Fin 1))
              (Sample.box (3 # 2) (1 # 5) (5 # 2) (3 # 2)) region
              eq_refl eq_refl eq_refl eq_refl eq_refl E)
    as (g' & H1 & H2 & H3).
  exists region, g'. auto.
Defined.

(** ** Regions: what a captured region is *)

Lemma to_int_floor_inv (d : double) (z : Z) :
  to_int (floor d) = Ok z ->
  exists q, d = Fin q /\ inject_Z z <= q < inject_Z z + 1.
Proof.
  destruct d as [q | | |]; try discriminate.
  intros H. exists q. split; [reflexivity |].
  unfold floor, of_Z, to_int in H.
  assert (E : (if Qltb (inject_Z (Qfloor q)) 0
               then Qceiling (inject_Z (Qfloor q))
               else Qfloor (inject_Z (Qfloor q))) = Qfloor q).
  { destruct (Qltb _ 0); [apply Qceiling_Z | apply Qfloor_Z]. }
  rewrite E in H. destruct (int_range (Qfloor q)); [| discriminate].
  injection H as <-.
  pose proof (Qfloor_le q). pose proof (Qlt_floor q) as L.
  rewrite inject_Z_succ in L. lra.
Qed.

Lemma to_int_ceil_inv (d : double) (z : Z) :
  to_int (ceil d) = Ok z ->
  exists q, d = Fin q /\ inject_Z z - 1 < q <= inject_Z z.
Proof.
  destruct d as [q | | |]; try discriminate.
  intros H. exists q. split; [reflexivity |].
  unfold ceil, of_Z, to_int in H.
  assert (E : (if Qltb (inject_Z (Qceiling q)) 0
               then Qceiling (inject_Z (Qceiling q))
               else Qfloor (inject_Z (Qceiling q))) = Qceiling q).
  { destruct (Qltb _ 0); [apply Qceiling_Z | apply Qfloor_Z]. }
  rewrite E in H. destruct (int_range (Qceiling q)); [| discriminate].
  injection H as <-.
  pose proof (Qle_ceiling q). pose proof (Qceiling_lt q) as L.
  rewrite inject_Z_pred in L. lra.
Qed.

Lemma write_bytes_length mem off src mem' :
  write_bytes mem off src = Ok mem' -> length mem' = length mem.
Proof.
  unfold write_bytes.
  destruct ((0 <=? off)%Z && _) eqn:E; [| discriminate].
  apply andb_true_iff in E. destruct E as [E1 E2].
  apply Z.leb_le in E1, E2. intros H; injection H as <-.
  rewrite !length_app, length_firstn, length_skipn. lia.
Qed.

Lemma copy_rows_length x0 y0 width stride raw (count : nat) :
  forall y buf buf',
    copy_rows x0 y0 width stride raw count y buf = Ok buf' ->
    length buf' = length buf.
Proof.
  induction count as [| n IH]; intros y buf buf' H; cbn [copy_rows] in H.
  - now injection H as <-.
  - bind_inv H dst Ed. bind_inv H src Es. bind_inv H len El.
    bind_inv H row Er. bind_inv H buf1 Ew.
    rewrite (IH _ _ _ H). exact (write_bytes_length _ _ _ Ew).
Qed.

(** X9.  [copy_from_bbox]: every region that is returned was captured from an
    image surface for a bounding box of finite coordinates; its rectangle
    lies within the canvas, contains the bounding box and exceeds it by
    less than one pixel on each side; its buffer has four bytes for each
    pixel of the rectangle. *)
Theorem copy_from_bbox_region_covers :
  forall (g : GraphicsContextRenderer) (b : bbox_t) (region : Region),
    copy_from_bbox g b = Ok region ->
    let x := rect_x (bbox region) in
    let y := rect_y (bbox region) in
    let w := rect_width (bbox region) in
    let h := rect_height (bbox region) in
    is_image (target (cr_ g)) = true
    /\ (0 <= x)%Z /\ (0 <= w)%Z /\ (x + w <= width_ g)%Z
    /\ (0 <= y)%Z /\ (0 <= h)%Z /\ (y + h <= height_ g)%Z
    /\ Z.of_nat (length (buf region)) = (4 * w * h)%Z
    /\ exists qx0 qy0 qx1 qy1,
         b = {| bbox_x0 := Fin qx0; bbox_y0 := Fin qy0;
                bbox_x1 := Fin qx1; bbox_y1 := Fin qy1 |}
         /\ inject_Z x <= qx0 < inject_Z x + 1
         /\ inject_Z (x + w) - 1 < qx1 <= inject_Z (x + w)
         /\ inject_Z y <= qy0 < inject_Z y + 1
         /\ inject_Z (y + h) - 1 < qy1 <= inject_Z (y + h).
Proof.
  intros g b region H. unfold copy_from_bbox in H.
  bind_inv H ix0 Ex0. bind_inv H ix1 Ex1. bind_inv H iy0 Ey0. bind_inv H iy1 Ey1.
  destruct (bbox_in_bounds g ix0 iy0 ix1 iy1) eqn:Hin; cbn [negb] in H;
    [| discriminate].
  bind_inv H iw Ew. bind_inv H ih Eh. bind_inv H size Esz.
  bind_inv Esz ia Ea.
  destruct (is_image (target (cr_ g))) eqn:Him; cbn [negb] in H;
    [| discriminate].
  bind_inv H buf' Ec. injection H as <-.
  cbv zeta. cbn [bbox buf rect_x rect_y rect_width rect_height].
  apply cint_inv in Ew, Eh, Ea, Esz.
  destruct Ew as [-> _], Eh as [-> _], Ea as [-> _], Esz as [-> Hsz].
  pose proof (bbox_in_bounds_facts _ _ _ _ _ Hin) as (Hx & Hx1 & Hy & Hy1).
  apply copy_rows_length in Ec. rewrite repeat_length in Ec.
  destruct (to_int_floor_inv _ Ex0) as (qx0 & Bx0 & Fx0).
  destruct (to_int_ceil_inv _ Ex1) as (qx1 & Bx1 & Fx1).
  destruct (to_int_floor_inv _ Ey0) as (qy0 & By0 & Fy0).
  destruct (to_int_ceil_inv _ Ey1) as (qy1 & By1 & Fy1).
  replace (ix0 + (ix1 - ix0))%Z with ix1 by ring.
  replace (iy0 + (iy1 - iy0))%Z with iy1 by ring.
  assert (P : (0 <= 4 * (ix1 - ix0) * (iy1 - iy0))%Z) by nia.
  repeat split; try lia.
  exists qx0, qy0, qx1, qy1.
  split; [destruct b; cbn in *; congruence |].
  repeat split; lra.
Qed.

Lemma copy_from_bbox_region_covers_witness :
  exists region,
    copy_from_bbox (Sample.renderer Sample.image (Fin 1))
      (Sample.box (3 # 2) (1 # 5) (5 # 2) (3 # 2)) = Ok region
    /\ bbox region = {| rect_x := 1; rect_y := 0; rect_width := 2; rect_height := 2 |}
    /\ Z.of_nat (length (buf region)) = 16%Z.
Proof.
  destruct (copy_from_bbox (Sample.renderer Sample.image (Fin 1))
              (Sample.box (3 # 2) (1 # 5) (5 # 2) (3 # 2)))
    as [region | e] eqn:E; [| vm_compute in E; discriminate].
  pose proof (@copy_from_bbox_region_covers _ _ _ E) as (_ & _ & _ & _ & _ & _ & _ & L & _).
  exists region. split; [reflexivity |].
  vm_compute in E. injection E as <-. split; reflexivity.
Defined.

(** ** The bounds of a [MathtextBackend] *)

Lemma dle_refl (a : double) : a <> NaN -> dle a a.
Proof.
  unfold dle. destruct a as [q | | |]; cbn; try congruence.
  intros _. apply Qle_bool_iff. lra.
Qed.

Lemma dle_trans (a b c : double) : dle a b -> dle b c -> dle a c.
Proof.
  unfold dle. destruct a as [p | | |], b as [q | | |], c as [r | | |]; cbn;
    try congruence.
  rewrite !Qle_bool_iff. lra.
Qed.

Lemma dle_not_nan (a b : double) : dle a b -> a <> NaN /\ b <> NaN.
Proof.
  unfold dle. destruct a as [p | | |], b as [q | | |]; cbn;
    split; congruence.
Qed.

Lemma ltb_false_dle (a b : double) :
  a <> NaN -> b <> NaN -> (a <? b)%D = false -> dle b a.
Proof.
  unfold dle. destruct a as [p | | |], b as [q | | |]; cbn;
    try congruence.
  intros _ _ H. apply Qltb_ge in H. now apply Qle_bool_iff.
Qed.

Lemma ltb_true_dle (a b : double) : (a <? b)%D = true -> dle a b.
Proof.
  unfold dle. destruct a as [p | | |], b as [q | | |]; cbn;
    try congruence.
  intros H. apply Qltb_lt in H. apply Qle_bool_iff. lra.
Qed.

(** [std::min] never goes above its first argument, nor above a second
    argument that is a number. *)
Lemma dmin2_le (a v : double) :
  a <> NaN -> dle (dmin2 a v) a /\ (v <> NaN -> dle (dmin2 a v) v).
Proof.
  intros Ha. unfold dmin2. destruct (v <? a)%D eqn:E.
  - split; [now apply ltb_true_dle |].
    intros Hv. now apply dle_refl.
  - split; [now apply dle_refl |].
    intros Hv. now apply ltb_false_dle.
Qed.

Lemma dmax2_ge (a v : double) :
  a <> NaN -> dle a (dmax2 a v) /\ (v <> NaN -> dle v (dmax2 a v)).
Proof.
  intros Ha. unfold dmax2. destruct (a <? v)%D eqn:E.
  - split; [now apply ltb_true_dle |].
    intros Hv. now apply dle_refl.
  - split; [now apply dle_refl |].
    intros Hv. now apply ltb_false_dle.
Qed.

Lemma round_half_even_nonneg (q : Q) : 0 <= q -> (0 <= round_half_even q)%Z.
Proof.
  intros H. unfold round_half_even.
  assert (F : (0 <= Qfloor q)%Z).
  { change 0%Z with (Qfloor 0). now apply Qfloor_resp_le. }
  destruct (Qcompare _ _); [destruct (Z.even _) | |]; lia.
Qed.

Lemma round_binary64_nonneg (q : Q) : 0 <= q -> dle (Fin 0) (round_binary64 q).
Proof.
  intros H. unfold round_binary64, dle.
  destruct (Qeq_bool q 0); [reflexivity |].
  cbv zeta. set (e := ulp_exponent q).
  pose proof (two_power_pos e) as Pe.
  assert (Hd : 0 <= q / two_power e).
  { apply Qle_shift_div_l; [exact Pe | lra]. }
  pose proof (round_half_even_nonneg Hd) as Hm.
  destruct (Qle_bool (two_power 1024) _).
  - assert (N : Qltb q 0 = false) by (apply Qltb_ge; exact H).
    rewrite N. reflexivity.
  - cbn [leb]. apply Qle_bool_iff. rewrite Qred_correct.
    apply Qmult_le_0_compat; [| lra].
    change 0 with (inject_Z 0). rewrite <- Zle_Qle. exact Hm.
Qed.

(** The difference of an upper and a lower bound, rounded. *)
Lemma extent_nonneg (lo hi : double) :
  dle lo (Fin 0) -> dle (Fin 0) hi -> dle (Fin 0) (rounded (hi - lo)%D).
Proof.
  unfold dle. destruct lo as [p | | |], hi as [q | | |]; cbn; try congruence.
  rewrite !Qle_bool_iff. intros Hp Hq.
  apply round_binary64_nonneg. lra.
Qed.

Lemma bounds_grow_refl this : encloses_origin this -> bounds_grow this this.
Proof.
  intros (A & B & C & D). unfold bounds_grow.
  repeat split; apply dle_refl;
    first [exact (proj1 (dle_not_nan A)) | exact (proj2 (dle_not_nan B))
          | exact (proj1 (dle_not_nan C)) | exact (proj2 (dle_not_nan D))].
Qed.

Lemma bounds_grow_trans a b c :
  bounds_grow a b -> bounds_grow b c -> bounds_grow a c.
Proof.
  intros (A1 & A2 & A3 & A4) (B1 & B2 & B3 & B4). unfold bounds_grow.
  repeat split; eauto using dle_trans.
Qed.

Lemma bounds_hold_grow this this' c :
  bounds_hold this c -> bounds_grow this this' -> bounds_hold this' c.
Proof.
  intros H (G1 & G2 & G3 & G4).
  destruct c; cbn [bounds_hold] in *; cbv zeta in *;
    destruct H as (H1 & H2 & H3 & H4);
    repeat split; intros N; eauto using dle_trans.
Qed.

Lemma encloses_origin_grow this this' :
  encloses_origin this -> bounds_grow this this' -> encloses_origin this'.
Proof.
  intros (A & B & C & D) (G1 & G2 & G3 & G4). unfold encloses_origin.
  repeat split; eauto using dle_trans.
Qed.

(** One call: the bounds grow, and hold of the call. *)
Lemma run_mathtext_call_bounds this c :
  encloses_origin this ->
  bounds_grow this (run_mathtext_call this c)
  /\ bounds_hold (run_mathtext_call this c) c.
Proof.
  intros (A & B & C & D).
  pose proof (proj1 (dle_not_nan A)) as N1.
  pose proof (proj2 (dle_not_nan B)) as N2.
  pose proof (proj1 (dle_not_nan C)) as N3.
  pose proof (proj2 (dle_not_nan D)) as N4.
  destruct c as [ox oy m | x1 y1 x2 y2];
    cbn [run_mathtext_call render_glyph render_rect_filled bounds_hold
         bounds_grow xmin_ ymin_ xmax_ ymax_]; cbv zeta.
  - pose proof (@dmin2_le (xmin_ this) (rounded (ox + metrics_xmin m)%D) N1) as [? ?].
    pose proof (@dmax2_ge (xmax_ this) (rounded (ox + metrics_xmax m)%D) N2) as [? ?].
    pose proof (@dmin2_le (ymin_ this) (rounded (oy - metrics_ymin m)%D) N3) as [? ?].
    pose proof (@dmax2_ge (ymax_ this) (rounded (oy - metrics_ymax m)%D) N4) as [? ?].
    unfold bounds_grow; cbn [xmin_ ymin_ xmax_ ymax_]. repeat split; auto.
  - pose proof (@dmin2_le (xmin_ this) x1 N1) as [? ?].
    pose proof (@dmax2_ge (xmax_ this) x2 N2) as [? ?].
    pose proof (@dmin2_le (ymin_ this) y1 N3) as [? ?].
    pose proof (@dmax2_ge (ymax_ this) y2 N4) as [? ?].
    unfold bounds_grow; cbn [xmin_ ymin_ xmax_ ymax_]. repeat split; auto.
Qed.

Lemma run_mathtext_calls_bounds calls :
  forall this,
    encloses_origin this ->
    bounds_grow this (run_mathtext_calls calls this)
    /\ forall c, In c calls -> bounds_hold (run_mathtext_calls calls this) c.
Proof.
  unfold run_mathtext_calls.
  induction calls as [| c rest IH]; intros this Hthis; cbn [fold_left].
  - split; [now apply bounds_grow_refl | intros c []].
  - destruct (@run_mathtext_call_bounds _ c Hthis) as (G1 & B1).
    pose proof (@encloses_origin_grow _ _ Hthis G1) as H1.
    destruct (IH _ H1) as (G2 & B2).
    split; [exact (@bounds_grow_trans _ _ _ G1 G2) |].
    intros c' [<- | Hin]; [exact (@bounds_hold_grow _ _ _ B1 G2) | now apply B2].
Qed.

(** X10.  [MathtextBackend]: whatever calls of [render_glyph] and
    [render_rect_filled] are made on a new backend, the rectangle that
    [get_results] reports starts at or before the origin in both
    directions and has a width and a height that are numbers and not
    negative; the bounds stay at or beyond the origin, and for every call
    made they reach each of the four values the call passed to [std::min]
    or [std::max], except those that are NaN. *)
Theorem get_results_rectangle_encloses :
  forall calls : list mathtext_call,
    let this := run_mathtext_calls calls MathtextBackend_new in
    let r := get_results this in
    dle (rectangle_x r) (Fin 0) /\ dle (rectangle_y r) (Fin 0)
    /\ dle (Fin 0) (xmax_ this) /\ dle (Fin 0) (ymax_ this)
    /\ dle (Fin 0) (rectangle_width r) /\ dle (Fin 0) (rectangle_height r)
    /\ forall c, In c calls -> bounds_hold this c.
Proof.
  intros calls this r.
  assert (H0 : encloses_origin MathtextBackend_new).
  { unfold encloses_origin. repeat split; reflexivity. }
  destruct (@run_mathtext_calls_bounds calls _ H0) as (G & B).
  destruct (@encloses_origin_grow _ _ H0 G) as (A1 & A2 & A3 & A4).
  fold this in A1, A2, A3, A4, B.
  unfold r, get_results. cbn [rectangle_x rectangle_y rectangle_width rectangle_height].
  repeat split; auto using extent_nonneg.
Qed.

Lemma get_results_rectangle_encloses_witness :
  get_results (run_mathtext_calls SampleX.mathtext_calls MathtextBackend_new)
  = {| rectangle_x := Fin (-3); rectangle_y := Fin 0;
       rectangle_width := Fin 19; rectangle_height := Fin 5 |}
  /\ bounds_hold (run_mathtext_calls SampleX.mathtext_calls MathtextBackend_new)
       (call_render_rect_filled (Fin (-3)) NaN (Fin 4) (Fin 5)).
Proof.
  split; [vm_compute; reflexivity |].
  apply (get_results_rectangle_encloses SampleX.mathtext_calls).
  right. left. reflexivity.
Defined.

(** ** A polyline with and without codes *)

Lemma point_in_box_inv (p : point) :
  point_in_box p ->
  exists qx qy, p = (Fin qx, Fin qy)
    /\ qmin <= qx /\ qx <= qmax /\ qmin <= qy /\ qy <= qmax.
Proof.
  destruct p as [[qx | | |] [qy | | |]]; unfold point_in_box, in_range; cbn;
    try tauto.
  intros ((A & B) & (C & D)). exists qx, qy. auto.
Qed.

Lemma clamp_in_range (q : Q) :
  qmin <= q -> q <= qmax -> clamp (Fin q) dmin dmax = Fin q.
Proof.
  intros A B. unfold clamp, dmin, dmax. cbn [ltb].
  rewrite (proj2 (Qltb_ge q qmin) A), (proj2 (Qltb_ge qmax q) B). reflexivity.
Qed.

Lemma outcode_in_box (qx qy : Q) :
  qmin <= qx -> qx <= qmax -> qmin <= qy -> qy <= qmax ->
  outcode (Fin qx) (Fin qy) = 0%Z.
Proof.
  intros A B C D. unfold outcode, dmin, dmax. cbn [ltb].
  rewrite (proj2 (Qltb_ge qx qmin) A), (proj2 (Qltb_ge qmax qx) B).
  rewrite (proj2 (Qltb_ge qy qmin) C), (proj2 (Qltb_ge qmax qy) D).
  reflexivity.
Qed.

(** A segment between two points of the box is recorded as it is. *)
Lemma codeless_segment_in_box snapper path_data (p q : point) :
  point_in_box p -> point_in_box q ->
  codeless_segment false snapper path_data (fst p) (snd p) (fst q) (snd q)
  = Ok (path_data ++ [header CAIRO_PATH_LINE_TO 2; pt (fst q) (snd q)]).
Proof.
  intros Hp Hq.
  destruct (point_in_box_inv Hp) as (px & py & -> & P1 & P2 & P3 & P4).
  destruct (point_in_box_inv Hq) as (qx & qy & -> & Q1 & Q2 & Q3 & Q4).
  cbn [fst snd]. unfold codeless_segment, clip_start, clip_fuel.
  cbn [clip_loop]. unfold clip_iter. cbn [cv_code0 cv_code1].
  rewrite !outcode_in_box by assumption.
  cbn. reflexivity.
Qed.

Section Polyline.

Variable snapper : double -> double.
Variable vertices_ : array2.
Variable matrix_ : cairo_matrix_t.

Hypothesis shape_two : shape1 vertices_ = 2%Z.
Hypothesis all_in_box :
  forall i, (0 <= i < shape0 vertices_)%Z ->
    point_in_box (device_point vertices_ matrix_ i).

Lemma device_point_read (i : Z) :
  (0 <= i < shape0 vertices_)%Z ->
  exists qx qy,
    read_point vertices_ i = Ok (at2 vertices_ i 0, at2 vertices_ i 1)
    /\ device_point vertices_ matrix_ i = (Fin qx, Fin qy)
    /\ qmin <= qx /\ qx <= qmax /\ qmin <= qy /\ qy <= qmax.
Proof.
  intros Hi.
  destruct (point_in_box_inv (all_in_box Hi)) as (qx & qy & E & B).
  exists qx, qy. split; [now apply read_point_ok |]. split; assumption.
Qed.

Lemma read_code_polyline (n i : Z) :
  (1 <= i < n)%Z -> read_code (polyline_codes n) i = Ok 2%Z.
Proof.
  intros Hi. unfold read_code, polyline_codes.
  destruct (Z.to_nat n) as [| k] eqn:En; [lia |].
  destruct (Z.to_nat i) as [| j] eqn:Ei; [lia |].
  cbn [nth_error].
  rewrite (nth_error_repeat 2%Z) by lia.
  destruct (Z.leb_spec 0 i); [reflexivity | lia].
Qed.

(** The general overload on the LINETOs of a polyline. *)
Lemma general_loop_line_to (count : nat) :
  forall (fuel : nat) (i : Z) (p : path_state),
    (count <= fuel)%nat -> (1 <= i)%Z ->
    (i + Z.of_nat count = shape0 vertices_)%Z ->
    general_loop snap_none vertices_ (polyline_codes (shape0 vertices_))
      matrix_ fuel (shape0 vertices_) i p
    = Ok (line_to_from vertices_ matrix_ count i p).
Proof.
  induction count as [| count IH]; intros fuel i p Hf Hi Hn.
  - cbn [line_to_from]. destruct fuel as [| fuel]; [reflexivity |].
    cbn [general_loop].
    destruct (Z.ltb_spec i (shape0 vertices_)); [lia | reflexivity].
  - destruct fuel as [| fuel]; [lia |].
    cbn [general_loop line_to_from].
    destruct (Z.ltb_spec i (shape0 vertices_)); [| lia].
    destruct (@device_point_read i ltac:(lia))
      as (qx & qy & Er & Ed & B1 & B2 & B3 & B4).
    unfold general_step. rewrite Er, bind_Ok.
    fold (device_point vertices_ matrix_ i). rewrite Ed.
    rewrite (@read_code_polyline (shape0 vertices_) i) by lia.
    rewrite bind_Ok. change (path_code_of_int 2) with (Some LINETO).
    cbn [isfinite andb]. cbn iota.
    rewrite !clamp_in_range by assumption.
    rewrite bind_Ok. cbn [fst snd]. unfold snap_none.
    apply IH; lia.
Qed.

(** The codeless overload after the first vertex. *)
Lemma codeless_loop_line_data (count : nat) :
  forall (i : Z) (path_data : list cairo_path_data_t),
    (1 <= i)%Z -> (i + Z.of_nat count = shape0 vertices_)%Z ->
    codeless_loop false snapper vertices_ matrix_ count i
      (Some (device_point vertices_ matrix_ (i - 1))) path_data
    = Ok (path_data ++ line_data vertices_ matrix_ count i).
Proof.
  induction count as [| count IH]; intros i pd Hi Hn.
  - cbn [codeless_loop line_data]. now rewrite app_nil_r.
  - cbn [codeless_loop line_data].
    destruct (@device_point_read i ltac:(lia))
      as (qx & qy & Er & Ed & B1 & B2 & B3 & B4).
    rewrite Er, bind_Ok.
    fold (device_point vertices_ matrix_ i).
    pose proof (@all_in_box (i - 1)%Z ltac:(lia)) as Hprev.
    pose proof (@all_in_box i ltac:(lia)) as Hcur.
    pose proof (@codeless_segment_in_box snapper pd _ _ Hprev Hcur) as Es.
    rewrite Ed in *. cbn [isfinite andb fst snd] in *.
    destruct (device_point vertices_ matrix_ (i - 1)) as [xp yp] eqn:Ep.
    cbn [fst snd] in Es. rewrite Es, bind_Ok.
    replace (Some (Fin qx, Fin qy))
      with (Some (device_point vertices_ matrix_ (i + 1 - 1)))
      by (replace (i + 1 - 1)%Z with i by ring; now rewrite Ed).
    rewrite IH by lia. rewrite <- app_assoc. reflexivity.
Qed.

Lemma cairo_append_path_line_data (count : nat) :
  forall (i : Z) (p : path_state),
    cairo_append_path (line_data vertices_ matrix_ count i) p
    = line_to_from vertices_ matrix_ count i p.
Proof.
  induction count as [| count IH]; intros i p;
    cbn [line_data line_to_from cairo_append_path]; [reflexivity | apply IH].
Qed.

End Polyline.

Lemma polyline_codes_length (n : Z) :
  (0 <= n)%Z -> Z.of_nat (length (polyline_codes n)) = n.
Proof.
  intros Hn. unfold polyline_codes.
  destruct (Z.to_nat n) as [| k] eqn:E; cbn [length]; [lia |].
  rewrite repeat_length. lia.
Qed.

(** X11.  [load_path_exact]: with snapping off, a path whose vertices all fall
    in the box [-2^22, 2^22] x [-2^22, 2^22] after the transformation gives
    the same context whether it has no codes or the codes MOVETO, LINETO,
    ..., LINETO: the two overloads build the same path. *)
Theorem load_path_exact_polyline_codes :
  forall (cr : cairo_t) (vertices_ : array2) (matrix : cairo_matrix_t),
    shape1 vertices_ = 2%Z ->
    (0 <= shape0 vertices_)%Z ->
    (forall i, (0 <= i < shape0 vertices_)%Z ->
       point_in_box (device_point vertices_ matrix i)) ->
    snap_control (with_path empty_path cr) = Ok false ->
    exists cr',
      load_path_exact cr
        {| vertices := vertices_;
           codes := Some (polyline_codes (shape0 vertices_)) |} matrix = Ok cr'
      /\ load_path_exact cr {| vertices := vertices_; codes := None |} matrix
         = Ok cr'.
Proof.
  intros cr vs matrix Hshape Hn Hbox Hsnap.
  unfold load_path_exact, load_path_exact_codeless.
  cbn [vertices codes]. rewrite Hshape. cbn [Z.eqb Pos.eqb negb].
  rewrite (polyline_codes_length Hn), Z.eqb_refl. cbn [negb].
  assert (Hb : negb ((0 <=? 0)%Z && (0 <=? shape0 vs)%Z
                     && (shape0 vs <=? shape0 vs)%Z) = false).
  { rewrite (proj2 (Z.leb_le 0 (shape0 vs)) Hn).
    rewrite (Z.leb_refl (shape0 vs)). reflexivity. }
  rewrite Hb.
  change (snap_control (with_path empty_path (with_path empty_path cr)))
    with (snap_control (with_path empty_path cr)).
  rewrite Hsnap, !bind_Ok. cbn [snapper_general].
  replace (shape0 vs - 0)%Z with (shape0 vs) by ring.
  destruct (Z.to_nat (shape0 vs)) as [| k] eqn:Ek.
  - cbn [general_loop codeless_loop]. rewrite bind_Ok.
    eexists. split; reflexivity.
  - cbn [general_loop codeless_loop].
    destruct (Z.ltb_spec 0 (shape0 vs)); [| lia].
    destruct (@device_point_read vs matrix Hshape Hbox 0%Z ltac:(lia))
      as (qx & qy & Er & Ed & B1 & B2 & B3 & B4).
    unfold general_step. rewrite Er, !bind_Ok.
    fold (device_point vs matrix 0). rewrite Ed.
    assert (Ec : read_code (polyline_codes (shape0 vs)) 0 = Ok 1%Z).
    { unfold read_code, polyline_codes. rewrite Ek. reflexivity. }
    rewrite Ec, bind_Ok. change (path_code_of_int 1) with (Some MOVETO).
    cbn [isfinite andb]. cbn iota.
    rewrite !clamp_in_range by assumption. rewrite bind_Ok.
    unfold snap_none.
    rewrite (@general_loop_line_to vs matrix Hshape Hbox k) by lia.
    replace (Some (Fin qx, Fin qy))
      with (Some (device_point vs matrix (0 + 1 - 1))) by (now rewrite <- Ed).
    rewrite (@codeless_loop_line_data _ vs matrix Hshape Hbox k) by lia.
    rewrite !bind_Ok. cbn [app cairo_append_path].
    rewrite cairo_append_path_line_data.
    eexists. split; reflexivity.
Qed.

Lemma load_path_exact_polyline_codes_witness :
  exists cr',
    load_path_exact (cr_ SampleX.pdf_renderer)
      {| vertices := vertices Sample.five_points;
         codes := Some [1; 2; 2; 2; 2]%Z |} Sample.identity_matrix = Ok cr'
    /\ load_path_exact (cr_ SampleX.pdf_renderer) Sample.five_points
         Sample.identity_matrix = Ok cr'.
Proof.
  apply (@load_path_exact_polyline_codes (cr_ SampleX.pdf_renderer)
           (vertices Sample.five_points) Sample.identity_matrix);
    [reflexivity | cbn; lia | | reflexivity].
  intros i Hi. cbn in Hi.
  assert (C : i = 0%Z \/ i = 1%Z \/ i = 2%Z \/ i = 3%Z \/ i = 4%Z) by lia.
  destruct C as [-> | [-> | [-> | [-> | ->]]]];
    unfold point_in_box, in_range; cbn; unfold qmin, qmax; repeat split; lra.
Defined.

(** ** The chunks of [draw_path] *)

Section Chunks.

Variable n chunksize : Z.
Hypothesis chunksize_pos : (0 < chunksize)%Z.

Lemma chunk_loop_In (fuel : nat) :
  forall (i s t : Z),
    (n - i <= Z.of_nat fuel)%Z ->
    In (s, t) (chunk_loop fuel n chunksize i)
    <-> exists k, (0 <= k)%Z /\ s = (i + k * chunksize)%Z /\ (s < n)%Z
                  /\ t = Z.min (s + chunksize + 1) n.
Proof.
  induction fuel as [| fuel IH]; intros i s t Hf; cbn [chunk_loop].
  - split; [intros [] |]. intros (k & Hk & -> & Hs & _). nia.
  - destruct (Z.ltb_spec i n) as [L | L].
    + cbn [In]. rewrite IH by lia. split.
      * intros [E | (k & Hk & -> & Hs & ->)].
        -- injection E as <- <-. exists 0%Z. repeat split; lia.
        -- exists (k + 1)%Z. repeat split; first [lia | f_equal; lia].
      * intros (k & Hk & -> & Hs & ->).
        destruct (Z.eq_dec k 0) as [-> | K].
        -- left. f_equal; f_equal; lia.
        -- right. exists (k - 1)%Z. repeat split; first [lia | f_equal; lia].
    + split; [intros [] |]. intros (k & Hk & -> & Hs & _). nia.
Qed.

Lemma chunk_loop_fuel (fuel : nat) :
  forall (fuel' : nat) (i : Z),
    (n - i <= Z.of_nat fuel)%Z -> (n - i <= Z.of_nat fuel')%Z ->
    chunk_loop fuel n chunksize i = chunk_loop fuel' n chunksize i.
Proof.
  induction fuel as [| fuel IH]; intros fuel' i Hf Hf'.
  - destruct fuel' as [| fuel']; [reflexivity |]. cbn [chunk_loop].
    destruct (Z.ltb_spec i n); [lia | reflexivity].
  - destruct fuel' as [| fuel']; cbn [chunk_loop].
    + destruct (Z.ltb_spec i n); [lia | reflexivity].
    + destruct (Z.ltb_spec i n); [| reflexivity].
      f_equal. apply IH; lia.
Qed.

End Chunks.

(** X12.  [draw_path] strokes a codeless path of [n] vertices in chunks when
    [agg.path.chunksize] is positive: the loop ends; each chunk is a range
    [start, stop) of at least one and at most [chunksize + 1] vertices
    within the array; and every segment between consecutive vertices lies
    within one chunk and no other, so it is stroked exactly once. *)
Theorem draw_path_chunks_cover :
  forall n chunksize : Z,
    (0 < chunksize)%Z -> (0 <= n)%Z ->
    (forall fuel, (Z.to_nat n <= fuel)%nat ->
       chunk_loop fuel n chunksize 0 = draw_path_chunks n chunksize)
    /\ (forall start stop, In (start, stop) (draw_path_chunks n chunksize) ->
          (0 <= start < stop)%Z /\ (stop <= n)%Z
          /\ (stop - start <= chunksize + 1)%Z)
    /\ (forall j, (0 <= j)%Z -> (j + 1 < n)%Z ->
          exists chunk,
            In chunk (draw_path_chunks n chunksize)
            /\ segment_in_chunk j chunk
            /\ forall chunk',
                 In chunk' (draw_path_chunks n chunksize) ->
                 segment_in_chunk j chunk' -> chunk' = chunk).
Proof.
  intros n c Hc Hn. unfold draw_path_chunks. split; [| split].
  - intros fuel Hf. apply chunk_loop_fuel; lia.
  - intros s t H. apply (@chunk_loop_In n c Hc) in H; [| lia].
    destruct H as (k & Hk & -> & Hs & ->). nia.
  - intros j Hj Hj1.
    pose proof (Z.div_mod j c ltac:(lia)) as D.
    pose proof (Z.mod_pos_bound j c Hc) as M.
    assert (K : (0 <= j / c)%Z) by (apply Z.div_pos; lia).
    exists ((j / c) * c, Z.min ((j / c) * c + c + 1) n)%Z. split; [| split].
    + apply (@chunk_loop_In n c Hc); [lia |].
      exists (j / c)%Z. repeat split; lia.
    + unfold segment_in_chunk. cbn [fst snd]. lia.
    + intros [s t] H [S1 S2]. cbn [fst snd] in S1, S2.
      apply (@chunk_loop_In n c Hc) in H; [| lia].
      destruct H as (k & Hk & -> & Hs & ->).
      assert (E : k = (j / c)%Z) by nia.
      subst k. f_equal; lia.
Qed.

Lemma draw_path_chunks_cover_witness :
  draw_path_chunks 7 3 = [(0, 4); (3, 7); (6, 7)]%Z
  /\ exists chunk,
       In chunk (draw_path_chunks 7 3) /\ segment_in_chunk 3 chunk
       /\ forall chunk',
            In chunk' (draw_path_chunks 7 3) ->
            segment_in_chunk 3 chunk' -> chunk' = chunk.
Proof.
  split; [reflexivity |].
  apply (@draw_path_chunks_cover 7 3); lia.
Defined.
